(** * A shallow embedding of the QCFractal task queue and torsiondrive service

    Sources embedded here:
    - [qcfractal/components/tasks/sockets.py]: [TaskSocket.claim_tasks] and
      [TaskSocket.update_finished];
    - [qcfractal/components/torsiondrive/record_socket.py]:
      [TorsiondriveRecordSocket.iterate_service] and [_submit_optimizations].

    The database is a record of tables, each table a [gmap] keyed by the
    primary key.  Collaborators that live outside these files are either
    abstract (Section variables, so every theorem holds for all of them) or,
    when a claim needs their effect, modelled from the spec. *)

From Stdlib Require Import ZArith Sorting.Sorted.
From stdpp Require Import gmap strings list fin_maps pretty.

Open Scope Z_scope.

(** ** Enums of qcportal *)

Inductive RecordStatusEnum :=
  | waiting | running | complete | error | cancelled | invalid | deleted.

#[global] Instance RecordStatusEnum_eq_dec : EqDecision RecordStatusEnum.
Proof. solve_decision. Defined.

Inductive ManagerStatusEnum := active | inactive.

#[global] Instance ManagerStatusEnum_eq_dec : EqDecision ManagerStatusEnum.
Proof. solve_decision. Defined.

(** ** ORM rows *)

(** The error payload of a qcelemental [FailedOperation]. *)
Record FailedOpError := {
  error_type : string;
  error_message : string;
}.

(** One entry of [BaseRecordORM.compute_history]. *)
Record ComputeHistory := {
  ch_status : RecordStatusEnum;
  ch_manager_name : string;
  ch_error : option FailedOpError;
}.

(** [BaseRecordORM] (the columns the task socket reads or writes). *)
Record BaseRecordORM := {
  br_id : nat;
  br_status : RecordStatusEnum;
  br_manager_name : option string;
  br_modified_on : nat;
  br_compute_history : list ComputeHistory;
}.

(** [TaskQueueORM]; [tq_spec] stands for the execution specification
    (function and kwargs) attached by [generate_task_specification]. *)
Record TaskQueueORM := {
  tq_id : nat;
  tq_record_id : nat;
  tq_tag : string;
  tq_priority : nat;           (* PriorityEnum: low = 0, normal = 1, high = 2 *)
  tq_required_programs : list string;
  tq_available : bool;
  tq_created_on : nat;
  tq_spec : option string;
}.

(** [ComputeManagerORM]; [cm_programs] is [manager.programs.keys()]. *)
Record ComputeManagerORM := {
  cm_name : string;
  cm_status : ManagerStatusEnum;
  cm_programs : list string;
  cm_tags : list string;
  cm_successes : nat;
  cm_failures : nat;
  cm_rejected : nat;
  cm_claimed : nat;
}.

(** The tables touched by the task socket. *)
Record DB := {
  records : gmap nat BaseRecordORM;
  task_queue : gmap nat TaskQueueORM;
  compute_managers : gmap string ComputeManagerORM;
}.

(** Exceptions raised by the sockets. *)
Inductive Exc :=
  | ComputeManagerError (msg : string)
  | InternalException
  | RuntimeError (msg : string).

(** ** Setters (ORM attribute assignment) *)

Definition set_records (db : DB) (m : gmap nat BaseRecordORM) : DB :=
  {| records := m; task_queue := task_queue db; compute_managers := compute_managers db |}.

Definition set_task_queue (db : DB) (m : gmap nat TaskQueueORM) : DB :=
  {| records := records db; task_queue := m; compute_managers := compute_managers db |}.

Definition set_compute_managers (db : DB) (m : gmap string ComputeManagerORM) : DB :=
  {| records := records db; task_queue := task_queue db; compute_managers := m |}.

(** [task_orm.record.status = running; .manager_name = ...; .modified_on = now] *)
Definition claim_record (manager_name : string) (now : nat) (r : BaseRecordORM) : BaseRecordORM :=
  {| br_id := br_id r; br_status := running; br_manager_name := Some manager_name;
     br_modified_on := now; br_compute_history := br_compute_history r |}.

Definition with_spec (t : TaskQueueORM) (s : string) : TaskQueueORM :=
  {| tq_id := tq_id t; tq_record_id := tq_record_id t; tq_tag := tq_tag t;
     tq_priority := tq_priority t; tq_required_programs := tq_required_programs t;
     tq_available := tq_available t; tq_created_on := tq_created_on t; tq_spec := Some s |}.

Definition add_claimed (n : nat) (m : ComputeManagerORM) : ComputeManagerORM :=
  {| cm_name := cm_name m; cm_status := cm_status m; cm_programs := cm_programs m;
     cm_tags := cm_tags m; cm_successes := cm_successes m; cm_failures := cm_failures m;
     cm_rejected := cm_rejected m; cm_claimed := cm_claimed m + n |}.

(** ** [qcportal.utils.calculate_limit] *)

(** Modelled from the spec: [calculate_limit] of [qcportal.utils] is not
    under src/.  The spec's "claim batch limit" provided by the server
    configuration bounds the limit a manager asks for; an omitted limit
    means the configured one. *)
Definition calculate_limit (max_limit : Z) (given_limit : option Z) : Z :=
  match given_limit with
  | None => max_limit
  | Some l => Z.min l max_limit
  end.

(** ** The claim query *)

(** [array(manager.programs.keys()).contains(TaskQueueORM.required_programs)]:
    postgres [@>], every required program is among the manager's. *)
Definition programs_contain (manager_programs required : list string) : bool :=
  forallb (fun p => existsb (String.eqb p) manager_programs) required.

(** The WHERE clause of the claim query for one manager tag. *)
Definition claim_filter (db : DB) (manager_programs : list string) (tag : string)
    (t : TaskQueueORM) : bool :=
  match records db !! tq_record_id t with
  | Some r =>
      bool_decide (br_status r = waiting)
      && programs_contain manager_programs (tq_required_programs t)
      && (if String.eqb tag "*" then true else String.eqb (tq_tag t) tag)
  | None => false   (* plain join: a task without its record is not selected *)
  end.

(** [ORDER BY priority DESC, created_on]: [a] may come before [b]. *)
Definition claim_order_leb (a b : TaskQueueORM) : bool :=
  (tq_priority b <? tq_priority a)%nat
  || ((tq_priority a =? tq_priority b)%nat && (tq_created_on a <=? tq_created_on b)%nat).

Fixpoint insert_by (t : TaskQueueORM) (l : list TaskQueueORM) : list TaskQueueORM :=
  match l with
  | [] => [t]
  | x :: rest => if claim_order_leb t x then t :: l else x :: insert_by t rest
  end.

Fixpoint sort_by_claim_order (l : list TaskQueueORM) : list TaskQueueORM :=
  match l with
  | [] => []
  | x :: rest => insert_by x (sort_by_claim_order rest)
  end.

(** The claim query: filter, order, skip rows locked by concurrent
    claimants ([skip_locked=True]) and take [new_limit] rows. *)
Definition select_claimable (db : DB) (locked : gset nat) (manager_programs : list string)
    (tag : string) (new_limit : Z) : list TaskQueueORM :=
  firstn (Z.to_nat new_limit)
    (List.filter (fun t => bool_decide (tq_id t ∉ locked))
       (sort_by_claim_order
          (List.filter (claim_filter db manager_programs tag)
             (map snd (map_to_list (task_queue db)))))).

Section Claim.

(** [records.generate_task_specification]: modelled from the spec
    ("generate and attach any execution-ready specification payload"): it
    attaches to each claimed task the payload computed by [make_task_spec]. *)
Variable make_task_spec : TaskQueueORM -> string.

(** The body of the loop for the claimed rows: update the records, then
    attach the specification. *)
Definition claim_rows (manager_name : string) (now : nat) (db : DB)
    (items : list TaskQueueORM) : DB * list TaskQueueORM :=
  let recs := foldl (fun m t => alter (claim_record manager_name now) (tq_record_id t) m)
                    (records db) items in
  let items' := map (fun t => with_spec t (make_task_spec t)) items in
  let tq := foldl (fun m t => <[tq_id t := t]> m) (task_queue db) items' in
  (set_task_queue (set_records db recs) tq, items').

(** [for tag in manager.tags: ...] *)
Fixpoint claim_loop (manager_name : string) (now : nat) (locked : gset nat)
    (manager_programs : list string) (limit : Z) (tags : list string)
    (db : DB) (found : list TaskQueueORM) : DB * list TaskQueueORM :=
  match tags with
  | [] => (db, found)
  | tag :: rest =>
      let new_limit := limit - Z.of_nat (length found) in
      if new_limit <=? 0 then (db, found)
      else
        let new_items := select_claimable db locked manager_programs tag new_limit in
        let '(db', items') := claim_rows manager_name now db new_items in
        claim_loop manager_name now locked manager_programs limit rest db' (found ++ items')
  end.

(** [TaskSocket.claim_tasks]; [tasks_claim_limit] is
    [api_limits.manager_tasks_claim], [now] is [datetime.utcnow()], [locked]
    the task rows currently locked by other transactions. *)
Definition claim_tasks (tasks_claim_limit : Z) (now : nat) (locked : gset nat)
    (manager_name : string) (limit : option Z) (db : DB)
    : DB * (Exc + list TaskQueueORM) :=
  let limit := calculate_limit tasks_claim_limit limit in
  match compute_managers db !! manager_name with
  | None => (db, inl (ComputeManagerError "Manager does not exist!"))
  | Some manager =>
      if bool_decide (cm_status manager <> active)
      then (db, inl (ComputeManagerError "Manager is not active!"))
      else
        let '(db', found) := claim_loop manager_name now locked (cm_programs manager)
                               limit (cm_tags manager) db [] in
        (set_compute_managers db'
           (<[manager_name := add_claimed (length found) manager]> (compute_managers db')),
         inr found)
  end.

End Claim.

(** ** Results returned by managers *)

(** [AllResultTypes]: a qcelemental [FailedOperation] or a computed result;
    both carry a [success] field. *)
Inductive AllResultTypes :=
  | FailedOperation (success : bool) (err : FailedOpError)
  | AtomicResult (success : bool) (payload : nat).

Definition result_success (res : AllResultTypes) : bool :=
  match res with
  | FailedOperation s _ => s
  | AtomicResult s _ => s
  end.

(** [TaskReturnMetadata] *)
Record TaskReturnMetadata := {
  rejected_info : list (nat * string);
  accepted_ids : list nat;
}.

(** The local lists of [update_finished]. *)
Record UpdateLists := {
  tasks_success : list nat;
  tasks_failures : list nat;
  tasks_rejected : list (nat * string);
  all_notifications : list (nat * RecordStatusEnum);
  to_be_reset : list nat;
}.

Definition empty_lists : UpdateLists :=
  {| tasks_success := []; tasks_failures := []; tasks_rejected := [];
     all_notifications := []; to_be_reset := [] |}.

Definition push_success (ls : UpdateLists) (x : nat) : UpdateLists :=
  {| tasks_success := tasks_success ls ++ [x]; tasks_failures := tasks_failures ls;
     tasks_rejected := tasks_rejected ls; all_notifications := all_notifications ls;
     to_be_reset := to_be_reset ls |}.

Definition push_failure (ls : UpdateLists) (x : nat) : UpdateLists :=
  {| tasks_success := tasks_success ls; tasks_failures := tasks_failures ls ++ [x];
     tasks_rejected := tasks_rejected ls; all_notifications := all_notifications ls;
     to_be_reset := to_be_reset ls |}.

Definition push_rejected (ls : UpdateLists) (x : nat * string) : UpdateLists :=
  {| tasks_success := tasks_success ls; tasks_failures := tasks_failures ls;
     tasks_rejected := tasks_rejected ls ++ [x]; all_notifications := all_notifications ls;
     to_be_reset := to_be_reset ls |}.

Definition push_reset (ls : UpdateLists) (x : nat) : UpdateLists :=
  {| tasks_success := tasks_success ls; tasks_failures := tasks_failures ls;
     tasks_rejected := tasks_rejected ls; all_notifications := all_notifications ls;
     to_be_reset := to_be_reset ls ++ [x] |}.

(** The [finally] clause: [if notify_status is not None: all_notifications.append(...)] *)
Definition push_notify (ls : UpdateLists) (record_id : nat)
    (notify_status : option RecordStatusEnum) : UpdateLists :=
  match notify_status with
  | None => ls
  | Some s =>
      {| tasks_success := tasks_success ls; tasks_failures := tasks_failures ls;
         tasks_rejected := tasks_rejected ls;
         all_notifications := all_notifications ls ++ [(record_id, s)];
         to_be_reset := to_be_reset ls |}
  end.

Definition add_counts (s f r : nat) (m : ComputeManagerORM) : ComputeManagerORM :=
  {| cm_name := cm_name m; cm_status := cm_status m; cm_programs := cm_programs m;
     cm_tags := cm_tags m; cm_successes := cm_successes m + s;
     cm_failures := cm_failures m + f; cm_rejected := cm_rejected m + r;
     cm_claimed := cm_claimed m |}.

(** [select(TaskQueueORM).filter(id == task_id)] with the record joined
    ([innerjoin=True]). *)
Definition lookup_task (db : DB) (task_id : nat) : option (TaskQueueORM * BaseRecordORM) :=
  match task_queue db !! task_id with
  | Some t =>
      match records db !! tq_record_id t with
      | Some r => Some (t, r)
      | None => None
      end
  | None => None
  end.

(** The record after a failure outcome: [error] status and one more
    history entry. *)
Definition failed_record (r : BaseRecordORM) (err : FailedOpError) (manager_name : string)
    : BaseRecordORM :=
  {| br_id := br_id r; br_status := error; br_manager_name := br_manager_name r;
     br_modified_on := br_modified_on r;
     br_compute_history := br_compute_history r ++
       [{| ch_status := error; ch_manager_name := manager_name; ch_error := Some err |}] |}.

(** The record after a success outcome. *)
Definition completed_record (r : BaseRecordORM) (manager_name : string) : BaseRecordORM :=
  {| br_id := br_id r; br_status := complete; br_manager_name := br_manager_name r;
     br_modified_on := br_modified_on r;
     br_compute_history := br_compute_history r ++
       [{| ch_status := complete; ch_manager_name := manager_name; ch_error := None |}] |}.

(** The task row of a record is removed once the record leaves
    waiting/running. *)
Definition drop_task_of (record_id : nat) (tq : gmap nat TaskQueueORM) : gmap nat TaskQueueORM :=
  filter (fun kv => tq_record_id kv.2 <> record_id) tq.

Definition unexpected_return_msg (task_id record_id : nat) : string :=
  "Unexpected return from manager for task " +:+ pretty (N.of_nat task_id)
  +:+ "/base result " +:+ pretty (N.of_nat record_id)
  +:+ ": Returned success != True, but not a FailedOperation".

Section Completion.

(** Whether the per-record-type completion code raises on a given input:
    any behaviour is allowed. *)
Variable failure_raises : BaseRecordORM -> FailedOpError -> bool.
Variable completion_raises : BaseRecordORM -> AllResultTypes -> bool.

(** [reset_logic.should_reset] with the server's [auto_reset] configuration,
    a pure function of the record (spec 4.3). *)
Variable should_reset : BaseRecordORM -> bool.
Variable auto_reset_enabled : bool.

(** [records.reset(ids)]: any effect on the database. *)
Variable records_reset : list nat -> DB -> DB.

(** [traceback.format_exc()] *)
Variable traceback_text : string.

(** Modelled from the spec: [records.update_failed_task] (not under src/)
    "appends the failure to the compute history, status -> error", and the
    task row is deleted once the record is in a resting state; it may raise. *)
Definition update_failed_task (db : DB) (r : BaseRecordORM) (err : FailedOpError)
    (manager_name : string) : option DB :=
  if failure_raises r err then None
  else Some (set_task_queue
               (set_records db (<[br_id r := failed_record r err manager_name]> (records db)))
               (drop_task_of (br_id r) (task_queue db))).

(** Modelled from the spec: [records.update_completed_task] (not under
    src/) "appends history, status -> complete, persists outputs"; it may
    raise. *)
Definition update_completed_task (db : DB) (r : BaseRecordORM) (res : AllResultTypes)
    (manager_name : string) : option DB :=
  if completion_raises r res then None
  else Some (set_task_queue
               (set_records db (<[br_id r := completed_record r manager_name]> (records db)))
               (drop_task_of (br_id r) (task_queue db))).

(** How the [try] block of one result ends: normally, with the database
    inside the savepoint, or by an exception (the lists already appended to
    are kept, the savepoint is rolled back). *)
Inductive TryOutcome :=
  | TryDone (db : DB) (ls : UpdateLists) (notify_status : option RecordStatusEnum)
  | TryRaised (ls : UpdateLists).

(** The [try] block of [update_finished] for one task. *)
Definition try_body (manager_name : string) (db : DB) (ls : UpdateLists) (task_id : nat)
    (r : BaseRecordORM) (res : AllResultTypes) : TryOutcome :=
  if bool_decide (br_status r <> running) then
    TryDone db (push_rejected ls (task_id, "Task is not in a running state")) None
  else if bool_decide (br_manager_name r <> Some manager_name) then
    TryDone db (push_rejected ls (task_id, "Task is claimed by another manager")) None
  else
    match res with
    | FailedOperation false err =>
        match update_failed_task db r err manager_name with
        | None => TryRaised ls
        | Some db' =>
            let ls1 := push_failure ls task_id in
            let ls2 := if auto_reset_enabled
                       then if should_reset (failed_record r err manager_name)
                            then push_reset ls1 (br_id r) else ls1
                       else ls1 in
            TryDone db' ls2 (Some error)
        end
    | _ =>
        if negb (result_success res) then
          let failed_op := {| error_type := "internal_fractal_error";
                              error_message := unexpected_return_msg task_id (br_id r) |} in
          match update_failed_task db r failed_op manager_name with
          | None => TryRaised ls
          | Some db' =>
              TryDone db'
                (push_rejected ls (task_id, "Returned success=False, but not a FailedOperation"))
                (Some error)
          end
        else
          match update_completed_task db r res manager_name with
          | None => TryRaised ls
          | Some db' => TryDone db' (push_success ls task_id) (Some complete)
          end
    end.

(** The synthetic payload of the [except] clause. *)
Definition internal_error_op : FailedOpError :=
  {| error_type := "internal_fractal_error";
     error_message := "Internal FractalServer Error:" +:+ String (Ascii.ascii_of_nat 10) traceback_text |}.

(** One iteration of [for task_id, result in results.items()]; [inl] is an
    exception leaving the loop. *)
Definition process_result (manager_name : string) (db : DB) (ls : UpdateLists)
    (task_id : nat) (res : AllResultTypes) : Exc + (DB * UpdateLists) :=
  match lookup_task db task_id with
  | None => inr (db, push_rejected ls (task_id, "Task does not exist in the task queue"))
  | Some (_, r) =>
      match try_body manager_name db ls task_id r res with
      | TryDone db' ls' notify_status => inr (db', push_notify ls' (br_id r) notify_status)
      | TryRaised ls' =>
          (* nested_session.rollback(): back to [db] *)
          match update_failed_task db r internal_error_op manager_name with
          | None => inl InternalException
          | Some db' =>
              inr (db', push_notify (push_rejected ls' (task_id, "Internal server error"))
                          (br_id r) (Some error))
          end
      end
  end.

Fixpoint process_results (manager_name : string) (db : DB) (ls : UpdateLists)
    (results : list (nat * AllResultTypes)) : Exc + (DB * UpdateLists) :=
  match results with
  | [] => inr (db, ls)
  | (task_id, res) :: rest =>
      match process_result manager_name db ls task_id res with
      | inl e => inl e
      | inr (db', ls') => process_results manager_name db' ls' rest
      end
  end.

(** [TaskSocket.update_finished]; the dict of results is a list in its
    insertion order.  Besides the metadata it returns the notifications sent
    after the commit.  An exception leaving the [with] block rolls the
    session back. *)
Definition update_finished (manager_name : string) (results : list (nat * AllResultTypes))
    (db : DB) : DB * (Exc + (TaskReturnMetadata * list (nat * RecordStatusEnum))) :=
  match compute_managers db !! manager_name with
  | None =>
      (db, inl (ComputeManagerError ("Manager " +:+ manager_name +:+ " does not exist")))
  | Some manager =>
      if bool_decide (cm_status manager <> active) then
        (db, inl (ComputeManagerError ("Manager " +:+ manager_name +:+ " is not active")))
      else
        match process_results manager_name db empty_lists results with
        | inl e => (db, inl e)
        | inr (db1, ls) =>
            let manager' := add_counts (length (tasks_success ls)) (length (tasks_failures ls))
                              (length (tasks_rejected ls)) manager in
            let db2 := set_compute_managers db1
                         (<[manager_name := manager']> (compute_managers db1)) in
            let db3 := if auto_reset_enabled && negb (bool_decide (to_be_reset ls = []))
                       then records_reset (to_be_reset ls) db2 else db2 in
            (db3, inr ({| rejected_info := tasks_rejected ls;
                          accepted_ids := tasks_success ls ++ tasks_failures ls |},
                       all_notifications ls))
        end
  end.

End Completion.

(** ** The torsiondrive service *)

(** [ServiceDependencyORM] with its [extras = {"td_api_key", "position"}]. *)
Record ServiceDependencyORM := {
  dep_record_id : nat;
  dep_td_api_key : string;
  dep_position : nat;
}.

(** Insertion into a list already sorted by [position] (stable). *)
Fixpoint insert_by_position (d : ServiceDependencyORM) (l : list ServiceDependencyORM)
    : list ServiceDependencyORM :=
  match l with
  | [] => [d]
  | x :: rest => if (dep_position d <=? dep_position x)%nat then d :: l
                 else x :: insert_by_position d rest
  end.

(** [sorted(service_orm.dependencies, key=lambda x: x.extras["position"])] *)
Fixpoint sort_by_position (l : list ServiceDependencyORM) : list ServiceDependencyORM :=
  match l with
  | [] => []
  | x :: rest => insert_by_position x (sort_by_position rest)
  end.

(** [TorsiondriveOptimizationORM]: a sub-optimization and its grid key. *)
Record TorsiondriveOptimizationORM := {
  tdo_torsiondrive_id : nat;
  tdo_optimization_id : nat;
  tdo_key : string;
}.

Section Torsiondrive.

(** The torsiondrive package: its state, geometries, energies (with
    Python's [<] and [==] on them) and the [td_api] functions. *)
Variable TDState Geometry Energy : Type.
Context `{EqDecision Energy}.
Variable energy_lt : Energy -> Energy -> bool.
Variable td_update_state : TDState -> gmap string (list (Geometry * Geometry * Energy)) -> TDState.
Variable td_next_jobs_from_state : TDState -> list (string * list Geometry).
Variable td_collect_lowest_energies : TDState -> list (list Z * option Energy).
Variable td_grid_id_from_string : string -> list Z.
(** What the package printed while updating (captured stdout). *)
Variable td_printed : TDState -> string.

(** [qcportal.torsiondrive.serialize_key] *)
Variable serialize_key : list Z -> string.

(** The rest of the database, as seen by [records.optimization.add],
    [molecules.get] and the optimization records. *)
Variable Store OptSpec Molecule : Type.

(** Modelled from the spec: [records.optimization.add(mols, spec, tag,
    priority, ..., find_existing)] (not under src/), left arbitrary: the new
    store, [meta.success] and the ids. *)
Variable optimization_add :
  Store -> list Molecule -> OptSpec -> string -> nat -> bool -> Store * (bool * list nat).

(** The constrained optimization specification built from the template and
    a grid id (may raise), and [Molecule(...)] built from the molecule
    template and a geometry. *)
Variable constrained_spec : string -> list Z -> option OptSpec.
Variable make_molecule : string -> Geometry -> Molecule.

(** For a finished dependency: initial and final geometry of its
    optimization and [energies[-1]] ([None]: the lookup raises). *)
Variable dependency_result : Store -> nat -> option (Geometry * Geometry * Energy).

(** [TorsiondriveOptimizationORM.energy] of an optimization record. *)
Variable optimization_energy : Store -> nat -> option Energy.

Record TorsiondriveServiceState := {
  torsiondrive_state : TDState;
  molecule_template : string;
  dihedral_template : string;
}.

(** [ServiceQueueORM] *)
Record ServiceQueueORM := {
  svc_record_id : nat;
  service_state : TorsiondriveServiceState;
  dependencies : list ServiceDependencyORM;
  compute_tag : string;
  compute_priority : nat;
  find_existing : bool;
}.

(** [TorsiondriveRecordORM]: the provenance creator of each history entry,
    the sub-optimizations and the stdout output. *)
Record TorsiondriveRecordORM := {
  td_history_provenance : list string;
  td_optimizations : list TorsiondriveOptimizationORM;
  td_stdout : string;
}.

Record TDWorld := {
  store : Store;
  service : ServiceQueueORM;
  td_record : TorsiondriveRecordORM;
}.

Definition set_dependencies (s : ServiceQueueORM) (deps : list ServiceDependencyORM)
    : ServiceQueueORM :=
  {| svc_record_id := svc_record_id s; service_state := service_state s;
     dependencies := deps; compute_tag := compute_tag s;
     compute_priority := compute_priority s; find_existing := find_existing s |}.

Definition set_service_state (s : ServiceQueueORM) (st : TorsiondriveServiceState)
    : ServiceQueueORM :=
  {| svc_record_id := svc_record_id s; service_state := st;
     dependencies := dependencies s; compute_tag := compute_tag s;
     compute_priority := compute_priority s; find_existing := find_existing s |}.

Definition add_optimizations (td : TorsiondriveRecordORM) (l : list TorsiondriveOptimizationORM)
    : TorsiondriveRecordORM :=
  {| td_history_provenance := td_history_provenance td;
     td_optimizations := td_optimizations td ++ l; td_stdout := td_stdout td |}.

(** [records.append_output(session, td_orm, stdout, text)] *)
Definition append_stdout (td : TorsiondriveRecordORM) (s : string) : TorsiondriveRecordORM :=
  {| td_history_provenance := td_history_provenance td;
     td_optimizations := td_optimizations td; td_stdout := td_stdout td +:+ s |}.

(** [td_orm.compute_history[-1].provenance = {"creator": "torsiondrive", ...}]:
    raises [IndexError] on an empty history. *)
Definition set_last_provenance (td : TorsiondriveRecordORM) : option TorsiondriveRecordORM :=
  match td_history_provenance td with
  | [] => None
  | h => Some {| td_history_provenance := removelast h ++ ["torsiondrive"];
                 td_optimizations := td_optimizations td; td_stdout := td_stdout td |}
  end.

(** The dependencies and history rows of one [td_api_key] of the batch:
    [for position, opt_id in enumerate(opt_ids)]. *)
Definition key_dependencies (td_api_key : string) (opt_ids : list nat)
    : list ServiceDependencyORM :=
  imap (fun position opt_id =>
          {| dep_record_id := opt_id; dep_td_api_key := td_api_key; dep_position := position |})
       opt_ids.

Definition key_optimizations (torsiondrive_id : nat) (opt_key : string) (opt_ids : list nat)
    : list TorsiondriveOptimizationORM :=
  map (fun opt_id => {| tdo_torsiondrive_id := torsiondrive_id; tdo_optimization_id := opt_id;
                        tdo_key := opt_key |}) opt_ids.

(** The loop [for td_api_key, geometries in next_tasks.items()] of
    [_submit_optimizations]. *)
Fixpoint submit_loop (st : TorsiondriveServiceState) (w : TDWorld)
    (next_tasks : list (string * list Geometry)) : Exc + TDWorld :=
  match next_tasks with
  | [] => inr w
  | (td_api_key, geometries) :: rest =>
      let grid_id := td_grid_id_from_string td_api_key in
      match constrained_spec (dihedral_template st) grid_id with
      | None => inl (RuntimeError "constraints")
      | Some opt_spec2 =>
          let constrained_mols := map (make_molecule (molecule_template st)) geometries in
          let svc := service w in
          let '(s', (success, opt_ids)) :=
            optimization_add (store w) constrained_mols opt_spec2 (compute_tag svc)
                             (compute_priority svc) (find_existing svc) in
          if negb success
          then inl (RuntimeError "Error adding optimizations - likely a developer error")
          else
            let opt_key := serialize_key grid_id in
            let w' := {| store := s';
                         service := set_dependencies svc
                                      (dependencies svc ++ key_dependencies td_api_key opt_ids);
                         td_record := add_optimizations (td_record w)
                                        (key_optimizations (svc_record_id svc) opt_key opt_ids) |} in
            submit_loop st w' rest
      end
  end.

(** [TorsiondriveRecordSocket._submit_optimizations] *)
Definition submit_optimizations (st : TorsiondriveServiceState) (w : TDWorld)
    (next_tasks : list (string * list Geometry)) : Exc + TDWorld :=
  (* service_orm.dependencies = [] *)
  let w0 := {| store := store w; service := set_dependencies (service w) [];
               td_record := td_record w |} in
  submit_loop st w0 next_tasks.

(** [task_results.setdefault(key, []).append(...)] over the sorted
    dependencies. *)
Fixpoint collect_task_results (s : Store) (deps : list ServiceDependencyORM)
    (acc : gmap string (list (Geometry * Geometry * Energy)))
    : option (gmap string (list (Geometry * Geometry * Energy))) :=
  match deps with
  | [] => Some acc
  | d :: rest =>
      match dependency_result s (dep_record_id d) with
      | None => None
      | Some x =>
          let cur := default [] (acc !! dep_td_api_key d) in
          collect_task_results s rest (<[dep_td_api_key d := cur ++ [x]]> acc)
      end
  end.

(** Python's [min] of a non-empty list: keeps the first smallest. *)
Definition py_min (e : Energy) (es : list Energy) : Energy :=
  foldl (fun m x => if energy_lt x m then x else m) e es.

(** [{serialize_key(x): y for x, y in lowest_energies.items()}] *)
Definition serialized_lowest_energies (st : TDState) : gmap string (option Energy) :=
  foldl (fun m '(k, v) => <[serialize_key k := v]> m) ∅ (td_collect_lowest_energies st).

(** [our_energies] and then [min_energies]. *)
Definition our_energies (s : Store) (opts : list TorsiondriveOptimizationORM)
    : gmap string (list Energy) :=
  let m0 := foldl (fun m x => <[tdo_key x := []]> m) ∅ opts in
  foldl (fun m x => match optimization_energy s (tdo_optimization_id x) with
                    | Some e => <[tdo_key x := default [] (m !! tdo_key x) ++ [e]]> m
                    | None => m
                    end) m0 opts.

Definition min_energies (s : Store) (opts : list TorsiondriveOptimizationORM)
    : gmap string (option Energy) :=
  fmap (fun y => match y with [] => None | e :: es => Some (py_min e es) end)
       (our_energies s opts).

(** The part of [iterate_service] before the branch: provenance, results
    of the dependencies, [update_state] and [next_jobs_from_state].  Returns
    the record, the updated service state and the next batch. *)
Definition prepare_iteration (w : TDWorld)
    : Exc + (TorsiondriveRecordORM * TorsiondriveServiceState * list (string * list Geometry)) :=
  match set_last_provenance (td_record w) with
  | None => inl (RuntimeError "IndexError")
  | Some td =>
      let st := service_state (service w) in
      let complete_tasks := sort_by_position (dependencies (service w)) in
      match collect_task_results (store w) complete_tasks ∅ with
      | None => inl (RuntimeError "lookup")
      | Some task_results =>
          let tds := td_update_state (torsiondrive_state st) task_results in
          let st' := {| torsiondrive_state := tds; molecule_template := molecule_template st;
                        dihedral_template := dihedral_template st |} in
          inr (td, st', td_next_jobs_from_state tds)
      end
  end.

(** [TorsiondriveRecordSocket.iterate_service]: the boolean is [done]. *)
Definition iterate_service (w : TDWorld) : TDWorld * (Exc + bool) :=
  match prepare_iteration w with
  | inl e => (w, inl e)
  | inr (td, st', next_tasks) =>
      let stdout_append := String (Ascii.ascii_of_nat 10) (td_printed (torsiondrive_state st')) in
      let w1 := {| store := store w; service := service w; td_record := td |} in
      let branch : Exc + TDWorld :=
        if bool_decide (0 < length next_tasks)%nat
        then submit_optimizations st' w1 next_tasks
        else if bool_decide (serialized_lowest_energies (torsiondrive_state st')
                             <> min_energies (store w1) (td_optimizations (td_record w1)))
             then inl (RuntimeError
                         "Minimum energies reported by the torsiondrive package do not match ours!")
             else inr w1 in
      match branch with
      | inl e => (w, inl e)
      | inr w2 =>
          let w3 := {| store := store w2;
                       service := set_service_state (service w2) st';
                       td_record := append_stdout (td_record w2) stdout_append |} in
          (w3, inr (bool_decide (length next_tasks = 0)%nat))
      end
  end.

End Torsiondrive.

Arguments torsiondrive_state {TDState}.
Arguments molecule_template {TDState}.
Arguments dihedral_template {TDState}.
Arguments svc_record_id {TDState}.
Arguments service_state {TDState}.
Arguments dependencies {TDState}.
Arguments compute_tag {TDState}.
Arguments compute_priority {TDState}.
Arguments find_existing {TDState}.
Arguments store {TDState Store}.
Arguments service {TDState Store}.
Arguments td_record {TDState Store}.

(** The dependencies of a submitted batch, [ids] being the ids returned
    for each key. *)
Definition batch_dependencies {Geometry : Type} (next_tasks : list (string * list Geometry))
    (idss : list (list nat)) : list ServiceDependencyORM :=
  concat (zip_with (fun kg ids => key_dependencies (fst kg) ids) next_tasks idss).

(** [position] of [a] is at most that of [b]: the order of
    [sort_by_position]. *)
Definition position_le (a b : ServiceDependencyORM) : Prop :=
  (dep_position a <= dep_position b)%nat.

(** The dependency belongs to the batch key [k]. *)
Definition dep_key_is (k : string) (d : ServiceDependencyORM) : bool :=
  String.eqb (dep_td_api_key d) k.

(** The energies of the optimizations of [opts] at key [k] that have one,
    in the order of [opts]. *)
Definition energies_at {Energy Store : Type} (optimization_energy : Store -> nat -> option Energy)
    (s : Store) (opts : list TorsiondriveOptimizationORM) (k : string) : list Energy :=
  flat_map (fun x => if String.eqb (tdo_key x) k
                     then match optimization_energy s (tdo_optimization_id x) with
                          | Some e => [e]
                          | None => []
                          end
                     else []) opts.

(** ** Migration 12e2ba353ee6: the [available] column of [task_queue] *)

(** A [task_queue] row before the migration: no [available] column. *)
Record TaskQueueRowV0 := {
  tq0_id : nat;
  tq0_record_id : nat;
  tq0_tag : string;
  tq0_priority : nat;
  tq0_required_programs : list string;
  tq0_created_on : nat;
  tq0_spec : option string;
}.

Definition row_with_available (r : TaskQueueRowV0) (a : bool) : TaskQueueORM :=
  {| tq_id := tq0_id r; tq_record_id := tq0_record_id r; tq_tag := tq0_tag r;
     tq_priority := tq0_priority r; tq_required_programs := tq0_required_programs r;
     tq_available := a; tq_created_on := tq0_created_on r; tq_spec := tq0_spec r |}.

Definition row_without_available (t : TaskQueueORM) : TaskQueueRowV0 :=
  {| tq0_id := tq_id t; tq0_record_id := tq_record_id t; tq0_tag := tq_tag t;
     tq0_priority := tq_priority t; tq0_required_programs := tq_required_programs t;
     tq0_created_on := tq_created_on t; tq0_spec := tq_spec t |}.

(** [op.add_column("task_queue", sa.Column("available", sa.Boolean(), nullable=True))]:
    every row gets a NULL. *)
Definition add_available_column (tq : gmap nat TaskQueueRowV0)
    : gmap nat (TaskQueueRowV0 * option bool) :=
  (fun r => (r, None)) <$> tq.

(** [UPDATE task_queue tq SET available = CASE WHEN br.status = 'waiting'
    THEN TRUE ELSE FALSE END FROM base_record br WHERE tq.record_id = br.id]:
    a row without a matching record is not updated. *)
Definition set_available_from_records (recs : gmap nat BaseRecordORM)
    (tq : gmap nat (TaskQueueRowV0 * option bool)) : gmap nat (TaskQueueRowV0 * option bool) :=
  (fun ra => match recs !! tq0_record_id ra.1 with
             | Some br => (ra.1, Some (bool_decide (br_status br = waiting)))
             | None => ra
             end) <$> tq.

(** [op.alter_column("task_queue", "available", nullable=False)]: fails
    (and the migration with it) if a NULL is left; otherwise every value is
    set and the default is never used. *)
Definition set_available_not_null (tq : gmap nat (TaskQueueRowV0 * option bool))
    : option (gmap nat TaskQueueORM) :=
  if bool_decide (map_Forall (fun _ ra => is_Some ra.2) tq)
  then Some ((fun ra => row_with_available ra.1 (default false ra.2)) <$> tq)
  else None.

(** [upgrade()]; dropping and recreating the index [ix_task_queue_sort]
    changes no row. *)
Definition upgrade_available (recs : gmap nat BaseRecordORM) (tq : gmap nat TaskQueueRowV0)
    : option (gmap nat TaskQueueORM) :=
  set_available_not_null (set_available_from_records recs (add_available_column tq)).

(** [downgrade()]: the index is recreated and the column dropped. *)
Definition downgrade_available (tq : gmap nat TaskQueueORM) : gmap nat TaskQueueRowV0 :=
  row_without_available <$> tq.

(** ** [TorsiondriveRecordSocket.add_internal] and [get_initial_molecules_ids] *)

(** The columns of a [TorsiondriveRecordORM] row that [add_internal] sets;
    [tdr_service] is the service attached by [create_service]. *)
Record TDRecordRow := {
  tdr_is_service : bool;
  tdr_specification_id : nat;
  tdr_status : RecordStatusEnum;
  tdr_owner_user_id : option nat;
  tdr_owner_group_id : option nat;
  tdr_service : option (string * nat * bool);
}.

(** The torsiondrive tables: records by id, the rows of
    [TorsiondriveInitialMoleculeORM] as [(torsiondrive_id, molecule_id)] in
    insertion order, and the next value of the id sequence. *)
Record TDStore := {
  td_records : gmap nat TDRecordRow;
  td_initial_molecules : list (nat * nat);
  td_next_id : nat;
}.

(** [InsertMetadata(inserted_idx=..., existing_idx=...)] *)
Record InsertMetadata := {
  inserted_idx : list nat;
  existing_idx : list nat;
}.

Inductive TDSocketError :=
  | MissingDataError (msg : string)
  | GroupMembershipError.

(** Python's [sorted] on integers: an insertion sort. *)
Fixpoint insert_nat (x : nat) (l : list nat) : list nat :=
  match l with
  | [] => [x]
  | y :: rest => if (x <=? y)%nat then x :: l else y :: insert_nat x rest
  end.

Fixpoint sort_nat (l : list nat) : list nat :=
  match l with
  | [] => []
  | x :: rest => insert_nat x (sort_nat rest)
  end.

(** [sorted(set(mol_ids))] *)
Definition sorted_set (l : list nat) : list nat := sort_nat (remove_dups l).

(** [rec.initial_molecules]: the molecule ids of the rows of a record. *)
Definition molecule_ids_of (st : TDStore) (rid : nat) : list nat :=
  map snd (List.filter (fun p => Nat.eqb (fst p) rid) (td_initial_molecules st)).

(** [init_mol_cte]: the records joined with their initial molecules
    ([innerjoin]: a record without one has no row), grouped by id, with the
    molecule ids aggregated in increasing order. *)
Definition init_mol_cte (st : TDStore) : list (nat * nat * list nat) :=
  omap (fun kr => match molecule_ids_of st kr.1 with
                  | [] => None
                  | mids => Some (kr.1, tdr_specification_id kr.2, sort_nat mids)
                  end) (map_to_list (td_records st)).

(** [TorsiondriveRecordSocket.get_initial_molecules_ids] *)
Definition get_initial_molecules_ids (st : TDStore) (record_id : nat)
    : TDSocketError + list nat :=
  match td_records st !! record_id with
  | None => inl (MissingDataError ("Cannot find record " +:+ pretty (N.of_nat record_id)))
  | Some _ => inr (molecule_ids_of st record_id)
  end.

Section TDAddInternal.

(** Python's [str.lower]. *)
Variable str_lower : string -> string.

(** [users.assert_group_member] (not under src/): whether it accepts the
    owner user and group; it raises otherwise. *)
Variable group_member_ok : option nat -> option nat -> bool.

(** [session.execute(stmt).scalars().first()]: the query has no
    [ORDER BY], so which matching row comes first is left open. *)
Variable first_row : list nat -> option nat.

(** [select(init_mol_cte.c.id).where(specification_id == td_spec_id)
    .where(molecule_ids == mol_ids)] then [.first()] *)
Definition find_existing_td (st : TDStore) (td_spec_id : nat) (mol_ids : list nat)
    : option nat :=
  first_row (map (fun row => row.1.1)
                 (List.filter (fun row => Nat.eqb row.1.2 td_spec_id &&
                                          bool_decide (row.2 = mol_ids))
                              (init_mol_cte st))).

(** Modelled from the spec: [create_service] (not under src/) attaches to
    the record a service with the given [compute_tag], [compute_priority]
    and [find_existing]. *)
Definition create_service (td : TDRecordRow) (compute_tag : string) (compute_priority : nat)
    (find_existing : bool) : TDRecordRow :=
  {| tdr_is_service := tdr_is_service td; tdr_specification_id := tdr_specification_id td;
     tdr_status := tdr_status td; tdr_owner_user_id := tdr_owner_user_id td;
     tdr_owner_group_id := tdr_owner_group_id td;
     tdr_service := Some (compute_tag, compute_priority, find_existing) |}.

(** A new record: [TorsiondriveRecordORM(...)], [create_service], [flush]
    (the id is the next value of the sequence) and one initial-molecule row
    per id of [mol_ids]. *)
Definition insert_td (st : TDStore) (td_spec_id : nat) (as_service : bool)
    (compute_tag : string) (compute_priority : nat) (owner_user_id owner_group_id : option nat)
    (find_existing : bool) (mol_ids : list nat) : TDStore * nat :=
  let td_orm := {| tdr_is_service := as_service; tdr_specification_id := td_spec_id;
                   tdr_status := waiting; tdr_owner_user_id := owner_user_id;
                   tdr_owner_group_id := owner_group_id; tdr_service := None |} in
  let td_orm := create_service td_orm compute_tag compute_priority find_existing in
  let id := td_next_id st in
  ({| td_records := <[id := td_orm]> (td_records st);
      td_initial_molecules := td_initial_molecules st ++ map (fun mid => (id, mid)) mol_ids;
      td_next_id := S id |}, id).

(** Both loops [for idx, mol_ids in enumerate(initial_molecule_ids)]: with
    [find_existing] the query runs first and [if not existing] (no row, or
    id 0) inserts; without it every entry is inserted.  The accumulator is
    [(td_ids, inserted_idx, existing_idx)]. *)
Fixpoint add_loop (td_spec_id : nat) (as_service : bool) (compute_tag : string)
    (compute_priority : nat) (owner_user_id owner_group_id : option nat) (find_existing : bool)
    (idx : nat) (initial_molecule_ids : list (list nat)) (st : TDStore)
    (acc : list nat * list nat * list nat) : TDStore * (list nat * list nat * list nat) :=
  match initial_molecule_ids with
  | [] => (st, acc)
  | mol_ids0 :: rest =>
      let mol_ids := sorted_set mol_ids0 in
      let '(td_ids, ins, ex) := acc in
      let insert_new :=
        let '(st', id) := insert_td st td_spec_id as_service compute_tag compute_priority
                            owner_user_id owner_group_id find_existing mol_ids in
        (st', (td_ids ++ [id], ins ++ [idx], ex)) in
      let '(st', acc') :=
        if find_existing then
          match find_existing_td st td_spec_id mol_ids with
          | Some existing =>
              if Nat.eqb existing 0 then insert_new
              else (st, (td_ids ++ [existing], ins, ex ++ [idx]))
          | None => insert_new
          end
        else insert_new in
      add_loop td_spec_id as_service compute_tag compute_priority owner_user_id owner_group_id
        find_existing (S idx) rest st' acc'
  end.

(** [TorsiondriveRecordSocket.add_internal]; the advisory lock serializes
    concurrent inserts and changes no row. *)
Definition add_internal (st : TDStore) (initial_molecule_ids : list (list nat))
    (td_spec_id : nat) (as_service : bool) (compute_tag : string) (compute_priority : nat)
    (owner_user_id owner_group_id : option nat) (find_existing : bool)
    : TDSocketError + (TDStore * (InsertMetadata * list nat)) :=
  let compute_tag := str_lower compute_tag in
  if negb (group_member_ok owner_user_id owner_group_id) then inl GroupMembershipError
  else
    let '(st', (td_ids, ins, ex)) :=
      add_loop td_spec_id as_service compute_tag compute_priority owner_user_id owner_group_id
        find_existing 0 initial_molecule_ids st ([], [], []) in
    inr (st', ({| inserted_idx := ins; existing_idx := ex |}, td_ids)).

End TDAddInternal.

(** ** Predicates used to state the properties *)

(** The id sequence is ahead of every record id and of every
    initial-molecule row. *)
Definition td_store_wf (st : TDStore) : Prop :=
  (forall k, is_Some (td_records st !! k) -> (k < td_next_id st)%nat) /\
  (forall p, In p (td_initial_molecules st) -> (fst p < td_next_id st)%nat).

(** The primary key of every task row is its [id] column. *)
Definition tasks_keyed (db : DB) : Prop :=
  map_Forall (fun k t => tq_id t = k) (task_queue db).

(** [t] comes before [u] in [ORDER BY priority DESC, created_on]. *)
Definition claim_before (t u : TaskQueueORM) : Prop :=
  (tq_priority u < tq_priority t)%nat \/
  (tq_priority t = tq_priority u /\ (tq_created_on t <= tq_created_on u)%nat).

(** A task returned by a claim for manager tag [tag]: a row of the queue
    [db0] at the start of the call, with its specification attached, whose
    record was waiting, whose required programs the manager has, whose tag
    matches, and which was not locked by another claimant. *)
Definition claimed_from (make_task_spec : TaskQueueORM -> string) (db0 : DB)
    (locked : gset nat) (manager_programs : list string) (tag : string)
    (t : TaskQueueORM) : Prop :=
  exists t0 r0,
    task_queue db0 !! tq_id t = Some t0 /\ t = with_spec t0 (make_task_spec t0) /\
    records db0 !! tq_record_id t0 = Some r0 /\ br_status r0 = waiting /\
    programs_contain manager_programs (tq_required_programs t0) = true /\
    (tag = "*" \/ tq_tag t0 = tag) /\ tq_id t0 ∉ locked.

(** A task the claim query for manager tag [tag] may still return once the
    tasks [before] have been claimed for earlier tags: a row of the queue
    [db0] at the start of the call whose record was waiting and has not been
    claimed since, whose required programs the manager has, whose tag
    matches, and which is not locked by another claimant. *)
Definition claim_candidate (db0 : DB) (locked : gset nat) (manager_programs : list string)
    (tag : string) (before : list TaskQueueORM) (t : TaskQueueORM) : Prop :=
  task_queue db0 !! tq_id t = Some t /\
  (exists r0, records db0 !! tq_record_id t = Some r0 /\ br_status r0 = waiting) /\
  programs_contain manager_programs (tq_required_programs t) = true /\
  (tag = "*" \/ tq_tag t = tag) /\ (tq_id t ∉ locked) /\
  ~ In (tq_record_id t) (map tq_record_id before).

(** The rows of [db0] a claim that returned [found] has not touched. *)
Definition claim_frame (db0 db : DB) (found : list TaskQueueORM) : Prop :=
  (forall rid, ~ In rid (map tq_record_id found) -> records db !! rid = records db0 !! rid) /\
  (forall k, ~ In k (map tq_id found) -> task_queue db !! k = task_queue db0 !! k).

(** What the claim loop keeps true of the database [db] reached from [db0]
    after returning [found]. *)
Definition claim_inv (make_task_spec : TaskQueueORM -> string) (manager_name : string)
    (now : nat) (db0 db : DB) (found : list TaskQueueORM) : Prop :=
  (forall rid r, records db !! rid = Some r -> br_status r = waiting ->
                 records db0 !! rid = Some r) /\
  (forall k t, task_queue db !! k = Some t ->
     exists t0, task_queue db0 !! k = Some t0 /\
       (t = t0 \/ (t = with_spec t0 (make_task_spec t0) /\
                   exists r, records db !! tq_record_id t0 = Some r /\ br_status r = running))) /\
  (forall t, In t found ->
     exists t0 r0, task_queue db0 !! tq_id t = Some t0 /\ t = with_spec t0 (make_task_spec t0) /\
       records db0 !! tq_record_id t0 = Some r0 /\ br_status r0 = waiting /\
       records db !! tq_record_id t0 = Some (claim_record manager_name now r0) /\
       task_queue db !! tq_id t = Some t) /\
  tasks_keyed db.

(** What happened to one result of a batch. *)
Inductive TaskOutcome :=
  | OSuccess (r : BaseRecordORM)
  | OFailure (r : BaseRecordORM) (err : FailedOpError)
  | ORejected (reason : string).

(** The outcome [o] of the result [res] for [task_id], processed from
    [db] to [db']: a success outcome is the completed record written; a
    recognized failure is the manager's [FailedOperation] written into the
    record; a rejection leaves the database as it was, or (internal error)
    writes a synthetic failure tagged [internal_fractal_error]. *)
Definition outcome_applied (manager_name : string) (db : DB) (task_id : nat)
    (res : AllResultTypes) (db' : DB) (o : TaskOutcome) : Prop :=
  match o with
  | OSuccess r =>
      (exists t, lookup_task db task_id = Some (t, r)) /\ result_success res = true /\
      records db' !! br_id r = Some (completed_record r manager_name)
  | OFailure r err =>
      (exists t, lookup_task db task_id = Some (t, r)) /\ res = FailedOperation false err /\
      records db' !! br_id r = Some (failed_record r err manager_name)
  | ORejected reason =>
      (lookup_task db task_id = None /\ db' = db /\
       reason = "Task does not exist in the task queue") \/
      (exists t r, lookup_task db task_id = Some (t, r) /\
         ((db' = db /\ (reason = "Task is not in a running state" \/
                        reason = "Task is claimed by another manager")) \/
          (exists err, error_type err = "internal_fractal_error" /\
             records db' !! br_id r = Some (failed_record r err manager_name) /\
             (reason = "Returned success=False, but not a FailedOperation" \/
              reason = "Internal server error"))))
  end.

(** The outcomes of a whole batch, in order, and the database they lead to. *)
Inductive batch_trace (manager_name : string)
    : DB -> list (nat * AllResultTypes) -> list TaskOutcome -> DB -> Prop :=
  | trace_nil db : batch_trace manager_name db [] [] db
  | trace_cons db db1 db2 task_id res rest o os :
      outcome_applied manager_name db task_id res db1 o ->
      batch_trace manager_name db1 rest os db2 ->
      batch_trace manager_name db ((task_id, res) :: rest) (o :: os) db2.

Definition is_success (o : TaskOutcome) : bool :=
  match o with OSuccess _ => true | _ => false end.

Definition is_failure (o : TaskOutcome) : bool :=
  match o with OFailure _ _ => true | _ => false end.

(** The task ids whose outcome satisfies [p]. *)
Fixpoint ids_with (p : TaskOutcome -> bool) (ids : list nat) (outs : list TaskOutcome)
    : list nat :=
  match ids, outs with
  | i :: ids', o :: outs' => if p o then i :: ids_with p ids' outs' else ids_with p ids' outs'
  | _, _ => []
  end.

(** The rejected task ids with their reasons. *)
Fixpoint rejections (ids : list nat) (outs : list TaskOutcome) : list (nat * string) :=
  match ids, outs with
  | i :: ids', ORejected reason :: outs' => (i, reason) :: rejections ids' outs'
  | _ :: ids', _ :: outs' => rejections ids' outs'
  | _, _ => []
  end.

(** The records the reset policy asked for: one per recognized failure
    for which auto-reset is enabled and [should_reset] holds on the record
    as the failure left it. *)
Definition reset_candidates (should_reset : BaseRecordORM -> bool) (auto_reset_enabled : bool)
    (manager_name : string) (outs : list TaskOutcome) : list nat :=
  flat_map (fun o => match o with
                     | OFailure r err =>
                         if auto_reset_enabled && should_reset (failed_record r err manager_name)
                         then [br_id r] else []
                     | _ => []
                     end) outs.

(** ** A small database used by the examples *)

Definition ex_manager : ComputeManagerORM :=
  {| cm_name := "mgr"; cm_status := active; cm_programs := ["psi4"; "geometric"];
     cm_tags := ["*"]; cm_successes := 0; cm_failures := 0; cm_rejected := 0;
     cm_claimed := 0 |}.

Definition ex_record (id : nat) (st : RecordStatusEnum) (mgr : option string) : BaseRecordORM :=
  {| br_id := id; br_status := st; br_manager_name := mgr; br_modified_on := 0;
     br_compute_history := [] |}.

Definition ex_task (id record_id priority created_on : nat) : TaskQueueORM :=
  {| tq_id := id; tq_record_id := record_id; tq_tag := "default"; tq_priority := priority;
     tq_required_programs := ["psi4"]; tq_available := true; tq_created_on := created_on;
     tq_spec := None |}.

(** Three waiting tasks, priorities normal, high, high. *)
Definition ex_db : DB :=
  {| records := {[1%nat := ex_record 1 waiting None; 2%nat := ex_record 2 waiting None;
                  3%nat := ex_record 3 waiting None]};
     task_queue := {[10%nat := ex_task 10 1 1 0; 11%nat := ex_task 11 2 2 1; 12%nat := ex_task 12 3 2 2]};
     compute_managers := {["mgr" := ex_manager]} |}.

(** One task whose record is already complete. *)
Definition ex_db_complete : DB :=
  {| records := {[1%nat := ex_record 1 complete (Some "mgr")]};
     task_queue := {[10%nat := ex_task 10 1 1 0]};
     compute_managers := {["mgr" := ex_manager]} |}.

(** One task whose record is running on "mgr". *)
Definition ex_db_running : DB :=
  {| records := {[1%nat := ex_record 1 running (Some "mgr")]};
     task_queue := {[10%nat := ex_task 10 1 1 0]};
     compute_managers := {["mgr" := ex_manager]} |}.

(** Three tasks whose records are running on "mgr". *)
Definition ex_db_running3 : DB :=
  {| records := {[1%nat := ex_record 1 running (Some "mgr"); 2%nat := ex_record 2 running (Some "mgr");
                  3%nat := ex_record 3 running (Some "mgr")]};
     task_queue := {[10%nat := ex_task 10 1 1 0; 11%nat := ex_task 11 2 1 1;
                     12%nat := ex_task 12 3 1 2]};
     compute_managers := {["mgr" := ex_manager]} |}.

(** ** A small torsiondrive instance used by the examples *)

(** The driver: state [0] has no more jobs, any other state asks for two
    geometries at key "0" and one at key "90". *)
Definition ex_td_next_jobs (s : nat) : list (string * list nat) :=
  if Nat.eqb s 0 then [] else [("0", [1%nat; 2%nat]); ("90", [3%nat])].

Definition ex_td_lowest (s : nat) : list (list Z * option nat) := [([0], Some 5%nat)].

(** [optimization.add]: the molecules are their own ids. *)
Definition ex_optimization_add (s : nat) (mols : list nat) (_ : unit) (_ : string) (_ : nat)
    (_ : bool) : nat * (bool * list nat) :=
  (s, (true, mols)).

Definition ex_td_state (s : nat) : TorsiondriveServiceState nat :=
  {| torsiondrive_state := s; molecule_template := "m"; dihedral_template := "d" |}.

(** A service in state [s], with one dependency left from before. *)
Definition ex_td_world (s : nat) : TDWorld nat nat :=
  {| store := 0%nat;
     service := {| svc_record_id := 5; service_state := ex_td_state s;
                   dependencies := [{| dep_record_id := 77; dep_td_api_key := "old";
                                       dep_position := 0 |}];
                   compute_tag := "*"; compute_priority := 1; find_existing := true |};
     td_record := {| td_history_provenance := ["x"]; td_optimizations := [];
                     td_stdout := "" |} |}.

Definition ex_td_after : TorsiondriveRecordORM :=
  {| td_history_provenance := ["torsiondrive"]; td_optimizations := []; td_stdout := "" |}.

(** A [task_queue] before migration 12e2ba353ee6: task 10 of a waiting
    record, task 11 of a running one. *)
Definition ex_records_v0 : gmap nat BaseRecordORM :=
  {[1%nat := ex_record 1 waiting None; 2%nat := ex_record 2 running (Some "mgr")]}.

Definition ex_tq_v0 : gmap nat TaskQueueRowV0 :=
  {[10%nat := row_without_available (ex_task 10 1 1 0);
    11%nat := row_without_available (ex_task 11 2 1 1)]}.

Definition ex_tq_v1 : gmap nat TaskQueueORM :=
  {[10%nat := row_with_available (row_without_available (ex_task 10 1 1 0)) true;
    11%nat := row_with_available (row_without_available (ex_task 11 2 1 1)) false]}.

(** The example service after submitting the batch of state [1]. *)
Definition ex_td_submitted : TDWorld nat nat :=
  Eval vm_compute in
    match submit_optimizations nat nat (fun _ => [0]) (fun _ => "[0]") nat unit nat
            ex_optimization_add (fun _ _ => Some tt) (fun _ g => g) (ex_td_state 1)
            (ex_td_world 1) (ex_td_next_jobs 1) with
    | inr w => w
    | inl _ => ex_td_world 1
    end.

(** The results gathered from those dependencies when optimization [i]
    ends at geometry [i] with energy [i]. *)
Definition ex_td_collected : gmap string (list (nat * nat * nat)) :=
  Eval vm_compute in
    default ∅ (collect_task_results nat nat nat (fun _ i => Some (i, i, i)) 0%nat
                 (sort_by_position (dependencies (service ex_td_submitted))) ∅).

(** Three optimizations, two at key "0"; optimization [i] has energy
    [10 - i], except optimization 3 which has none. *)
Definition ex_td_opts : list TorsiondriveOptimizationORM :=
  [{| tdo_torsiondrive_id := 5; tdo_optimization_id := 1; tdo_key := "[0]" |};
   {| tdo_torsiondrive_id := 5; tdo_optimization_id := 2; tdo_key := "[0]" |};
   {| tdo_torsiondrive_id := 5; tdo_optimization_id := 3; tdo_key := "[90]" |}].

Definition ex_td_energy (_ : unit) (i : nat) : option nat :=
  if Nat.eqb i 3 then None else Some (10 - i)%nat.

(** A torsiondrive store with record 1 (specification 7, molecules 5 and
    3), and a batch whose first entry names the same molecules. *)
Definition ex_td_store : TDStore :=
  {| td_records := <[1%nat := {| tdr_is_service := true; tdr_specification_id := 7;
                                 tdr_status := waiting; tdr_owner_user_id := None;
                                 tdr_owner_group_id := None; tdr_service := None |}]> ∅;
     td_initial_molecules := [(1, 5); (1, 3)]%nat;
     td_next_id := 2 |}.

Definition ex_td_inputs : list (list nat) := [[3; 5; 5]; [7]; []]%nat.

Definition ex_td_added : TDStore * (InsertMetadata * list nat) :=
  Eval vm_compute in
  match add_internal (fun s => s) (fun _ _ => true) head ex_td_store ex_td_inputs 7 true
          "Tag" 1 None None true with
  | inr r => r
  | inl _ => (ex_td_store, ({| inserted_idx := []; existing_idx := [] |}, []))
  end.

Definition ex_td_added_plain : TDStore * (InsertMetadata * list nat) :=
  Eval vm_compute in
  match add_internal (fun s => s) (fun _ _ => true) head ex_td_store ex_td_inputs 7 true
          "Tag" 1 None None false with
  | inr r => r
  | inl _ => (ex_td_store, ({| inserted_idx := []; existing_idx := [] |}, []))
  end.

(** * Properties *)

(** ** Ordering of the claim query *)

Lemma claim_order_leb_spec a b : claim_order_leb a b = true <-> claim_before a b.
Proof.
  unfold claim_order_leb, claim_before.
  rewrite orb_true_iff, andb_true_iff, Nat.ltb_lt, Nat.eqb_eq, Nat.leb_le. tauto.
Qed.

Lemma claim_order_leb_total a b : claim_order_leb a b = false -> claim_order_leb b a = true.
Proof.
  intros H. apply claim_order_leb_spec. apply not_true_iff_false in H.
  rewrite claim_order_leb_spec in H. unfold claim_before in *. lia.
Qed.

Lemma claim_before_trans a b c : claim_before a b -> claim_before b c -> claim_before a c.
Proof. unfold claim_before. lia. Qed.

Lemma insert_by_hd x t l :
  HdRel claim_before x l -> claim_before x t -> HdRel claim_before x (insert_by t l).
Proof.
  destruct l as [|y l]; simpl; intros H1 H2.
  - constructor. exact H2.
  - destruct (claim_order_leb t y); constructor; [exact H2|]. inversion H1; assumption.
Qed.

Lemma insert_by_sorted t l : Sorted claim_before l -> Sorted claim_before (insert_by t l).
Proof.
  induction l as [|x l IH]; simpl; intros H.
  - repeat constructor.
  - destruct (claim_order_leb t x) eqn:E.
    + constructor; [exact H|]. constructor. apply claim_order_leb_spec. exact E.
    + inversion H as [|? ? Hs Hh]; subst. constructor; [apply IH; exact Hs|].
      apply insert_by_hd; [exact Hh|]. apply claim_order_leb_spec, claim_order_leb_total, E.
Qed.

Lemma sort_by_claim_order_sorted l : Sorted claim_before (sort_by_claim_order l).
Proof. induction l; simpl; [constructor | apply insert_by_sorted; assumption]. Qed.

Lemma insert_by_perm t l : Permutation (insert_by t l) (t :: l).
Proof.
  induction l as [|x l IH]; simpl; [reflexivity|].
  destruct (claim_order_leb t x); [reflexivity|].
  rewrite IH. apply perm_swap.
Qed.

Lemma sort_by_claim_order_perm l : Permutation (sort_by_claim_order l) l.
Proof.
  induction l as [|x l IH]; simpl; [reflexivity|].
  rewrite insert_by_perm. constructor. exact IH.
Qed.

Lemma strongly_sorted_filter (f : TaskQueueORM -> bool) l :
  StronglySorted claim_before l -> StronglySorted claim_before (List.filter f l).
Proof.
  induction l as [|x l IH]; simpl; intros H; [constructor|].
  inversion H as [|? ? Hs Hf]; subst.
  destruct (f x); [|apply IH; exact Hs].
  constructor; [apply IH; exact Hs|].
  apply List.Forall_forall. intros y Hy. apply filter_In in Hy.
  rewrite List.Forall_forall in Hf. apply Hf, Hy.
Qed.

Lemma strongly_sorted_firstn n l :
  StronglySorted claim_before l -> StronglySorted claim_before (firstn n l).
Proof.
  revert l. induction n as [|n IH]; intros [|x l] H; simpl; [constructor..|].
  inversion H as [|? ? Hs Hf]; subst. constructor.
  - apply IH, Hs.
  - rewrite List.Forall_forall in *. intros y Hy. apply Hf.
    rewrite <- (firstn_skipn n l). apply in_or_app. left. exact Hy.
Qed.

Lemma in_firstn {A} n (l : list A) x : In x (firstn n l) -> In x l.
Proof. intros H. rewrite <- (firstn_skipn n l). apply in_or_app. left. exact H. Qed.

Lemma select_claimable_sorted db locked progs tag n :
  Sorted claim_before (select_claimable db locked progs tag n).
Proof.
  apply StronglySorted_Sorted. apply strongly_sorted_firstn, strongly_sorted_filter.
  apply Sorted_StronglySorted; [exact claim_before_trans|].
  apply sort_by_claim_order_sorted.
Qed.

Lemma select_claimable_length db locked progs tag n :
  (length (select_claimable db locked progs tag n) <= Z.to_nat n)%nat.
Proof. apply firstn_le_length. Qed.

Lemma select_claimable_in db locked progs tag n t :
  In t (select_claimable db locked progs tag n) ->
  (exists k, task_queue db !! k = Some t) /\
  claim_filter db progs tag t = true /\ tq_id t ∉ locked.
Proof.
  unfold select_claimable. intros H.
  apply in_firstn in H.
  apply filter_In in H as [H Hl]. apply bool_decide_eq_true in Hl.
  apply (Permutation_in _ (sort_by_claim_order_perm _)) in H.
  apply filter_In in H as [H Hf].
  apply in_map_iff in H as [[k t'] [Ht Hin]]. simpl in Ht. subst t'.
  apply list_elem_of_In, elem_of_map_to_list in Hin.
  split; [exists k; exact Hin|]. split; assumption.
Qed.

Lemma strongly_sorted_app_rel (l1 l2 : list TaskQueueORM) :
  StronglySorted claim_before (l1 ++ l2) ->
  forall u t, In u l1 -> In t l2 -> claim_before u t.
Proof.
  induction l1 as [|x l1 IH]; simpl; intros H u t Hu Ht; [contradiction|].
  inversion H as [|? ? Hs Hf]; subst. destruct Hu as [<-|Hu].
  - rewrite List.Forall_forall in Hf. apply Hf, in_or_app. right. exact Ht.
  - exact (IH Hs u t Hu Ht).
Qed.

(** The claim query returns a prefix of the matching unlocked rows in claim
    order: if it returns fewer rows than asked, it returns every such row;
    a matching unlocked row it leaves out comes after every row it returns. *)
Lemma select_claimable_complete db locked progs tag n t :
  (exists k, task_queue db !! k = Some t) -> claim_filter db progs tag t = true ->
  tq_id t ∉ locked ->
  let items := select_claimable db locked progs tag n in
  ((length items < Z.to_nat n)%nat -> In t items) /\
  (~ In t items -> forall u, In u items -> claim_before u t).
Proof.
  intros [k Hk] Hf Hl items.
  set (S := List.filter (fun t => bool_decide (tq_id t ∉ locked))
              (sort_by_claim_order (List.filter (claim_filter db progs tag)
                                      (map snd (map_to_list (task_queue db)))))).
  assert (HS : In t S).
  { unfold S. apply filter_In. split; [|apply bool_decide_eq_true; exact Hl].
    apply (Permutation_in _ (Permutation_sym (sort_by_claim_order_perm _))).
    apply filter_In. split; [|exact Hf].
    apply in_map_iff. exists (k, t). split; [reflexivity|].
    apply list_elem_of_In, elem_of_map_to_list, Hk. }
  assert (Hsorted : StronglySorted claim_before S).
  { unfold S. apply strongly_sorted_filter, Sorted_StronglySorted;
      [exact claim_before_trans|apply sort_by_claim_order_sorted]. }
  assert (Hitems : items = firstn (Z.to_nat n) S) by reflexivity.
  split.
  - intros Hlen. rewrite Hitems in *. rewrite firstn_all2; [exact HS|].
    rewrite length_firstn in Hlen. lia.
  - intros Hnot u Hu. rewrite <- (firstn_skipn (Z.to_nat n) S) in HS, Hsorted.
    apply in_app_or in HS as [HS|HS]; [rewrite Hitems in Hnot; contradiction|].
    rewrite Hitems in Hu. exact (strongly_sorted_app_rel _ _ Hsorted u t Hu HS).
Qed.

(** ** The claim loop *)

Lemma foldl_alter_lookup (f : BaseRecordORM -> BaseRecordORM) (key : TaskQueueORM -> nat)
    (Hf : forall v, f (f v) = f v) (items : list TaskQueueORM)
    (m : gmap nat BaseRecordORM) (k : nat) :
  foldl (fun m t => alter f (key t) m) m items !! k =
  if bool_decide (k ∈ map key items) then f <$> m !! k else m !! k.
Proof.
  revert m. induction items as [|t items IH]; intros m; cbn [foldl map].
  - rewrite bool_decide_eq_false_2; [reflexivity|]. apply not_elem_of_nil.
  - rewrite IH, lookup_alter.
    destruct (decide (key t = k)) as [<-|Hne].
    + rewrite (bool_decide_eq_true_2 (key t ∈ key t :: map key items)) by (apply elem_of_cons; left; reflexivity).
      case_bool_decide; [|reflexivity].
      destruct (m !! key t); simpl; [rewrite Hf|]; reflexivity.
    + rewrite (bool_decide_ext (k ∈ key t :: map key items) (k ∈ map key items)).
      * reflexivity.
      * rewrite elem_of_cons. split; [intros [->|H]; [congruence|exact H] | intros H; right; exact H].
Qed.

Lemma foldl_insert_lookup (g : TaskQueueORM -> TaskQueueORM) (Hg : forall t, tq_id (g t) = tq_id t)
    (src : gmap nat TaskQueueORM) (items : list TaskQueueORM) (m : gmap nat TaskQueueORM) (k : nat) :
  (forall t, In t items -> src !! tq_id t = Some t) ->
  foldl (fun m t => <[tq_id t := t]> m) m (map g items) !! k =
  if bool_decide (k ∈ map tq_id items) then g <$> src !! k else m !! k.
Proof.
  revert m. induction items as [|t items IH]; intros m Hsrc; cbn [foldl map].
  - rewrite bool_decide_eq_false_2; [reflexivity|]. apply not_elem_of_nil.
  - rewrite IH by (intros u Hu; apply Hsrc; right; exact Hu).
    rewrite lookup_insert, Hg.
    destruct (decide (tq_id t = k)) as [<-|Hne].
    + rewrite (bool_decide_eq_true_2 (tq_id t ∈ tq_id t :: map tq_id items)) by (apply elem_of_cons; left; reflexivity).
      rewrite (Hsrc t) by (left; reflexivity). case_bool_decide; reflexivity.
    + rewrite (bool_decide_ext (k ∈ tq_id t :: map tq_id items) (k ∈ map tq_id items)).
      * reflexivity.
      * rewrite elem_of_cons. split; [intros [->|H]; [congruence|exact H] | intros H; right; exact H].
Qed.

Lemma claim_record_idem name now r :
  claim_record name now (claim_record name now r) = claim_record name now r.
Proof. reflexivity. Qed.

Lemma sorted_map_with_spec (g : TaskQueueORM -> TaskQueueORM) l :
  (forall t, tq_priority (g t) = tq_priority t /\ tq_created_on (g t) = tq_created_on t) ->
  Sorted claim_before l -> Sorted claim_before (map g l).
Proof.
  intros Hg H. induction H as [|x l Hs IH Hh]; simpl; constructor; [exact IH|].
  destruct Hh as [|y l' Hxy]; simpl; constructor.
  unfold claim_before in *. destruct (Hg x), (Hg y). lia.
Qed.

Section ClaimProofs.

Variable make_task_spec : TaskQueueORM -> string.
Variables (manager_name : string) (now : nat) (locked : gset nat)
          (manager_programs : list string).

Let spec_of (t : TaskQueueORM) : TaskQueueORM := with_spec t (make_task_spec t).

Lemma selected_facts db tag n s :
  tasks_keyed db -> In s (select_claimable db locked manager_programs tag n) ->
  task_queue db !! tq_id s = Some s /\
  exists r, records db !! tq_record_id s = Some r /\ br_status r = waiting /\
    programs_contain manager_programs (tq_required_programs s) = true /\
    (tag = "*" \/ tq_tag s = tag) /\ tq_id s ∉ locked.
Proof.
  intros Hkey Hin. apply select_claimable_in in Hin as [[k Hk] [Hf Hl]].
  pose proof (map_Forall_lookup_1 _ _ _ _ Hkey Hk) as Hid. simpl in Hid. subst k. split; [exact Hk|].
  unfold claim_filter in Hf. destruct (records db !! tq_record_id s) as [r|]; [|discriminate].
  exists r. apply andb_true_iff in Hf as [Hf Ht]. apply andb_true_iff in Hf as [Hw Hp].
  apply bool_decide_eq_true in Hw. repeat split; try assumption.
  destruct (String.eqb tag "*") eqn:E.
  - left. apply String.eqb_eq, E.
  - right. apply String.eqb_eq, Ht.
Qed.

Lemma claim_rows_records db items k :
  records (fst (claim_rows make_task_spec manager_name now db items)) !! k =
  if bool_decide (k ∈ map tq_record_id items)
  then claim_record manager_name now <$> records db !! k else records db !! k.
Proof. apply foldl_alter_lookup, claim_record_idem. Qed.

Lemma claim_rows_tasks db items k :
  (forall t, In t items -> task_queue db !! tq_id t = Some t) ->
  task_queue (fst (claim_rows make_task_spec manager_name now db items)) !! k =
  if bool_decide (k ∈ map tq_id items) then spec_of <$> task_queue db !! k
  else task_queue db !! k.
Proof. intros H. apply (foldl_insert_lookup spec_of (fun _ => eq_refl)). exact H. Qed.

Lemma claim_rows_found db items :
  snd (claim_rows make_task_spec manager_name now db items) = map spec_of items.
Proof. reflexivity. Qed.


Lemma in_map_key {A} (f : A -> nat) (l : list A) k : k ∈ map f l <-> exists y, k = f y /\ In y l.
Proof. rewrite list_elem_of_In, in_map_iff. split; intros [y [H1 H2]]; exists y; auto. Qed.

Lemma claim_step db0 db found tag n :
  claim_inv make_task_spec manager_name now db0 db found ->
  let items := select_claimable db locked manager_programs tag n in
  claim_inv make_task_spec manager_name now db0
    (fst (claim_rows make_task_spec manager_name now db items)) (found ++ map spec_of items) /\
  Forall (claimed_from make_task_spec db0 locked manager_programs tag) (map spec_of items).
Proof.
  intros [I1 [I2 [I3 I4]]] items.
  assert (Hsel : forall s, In s items -> task_queue db !! tq_id s = Some s /\
            exists r, records db !! tq_record_id s = Some r /\ br_status r = waiting /\
              programs_contain manager_programs (tq_required_programs s) = true /\
              (tag = "*" \/ tq_tag s = tag) /\ tq_id s ∉ locked)
    by (intros s Hs; apply selected_facts with (n := n); assumption).
  assert (Hsrc : forall s, In s items -> task_queue db !! tq_id s = Some s)
    by (intros s Hs; apply Hsel, Hs).
  assert (Hs0 : forall s, In s items -> task_queue db0 !! tq_id s = Some s /\
            exists r, records db0 !! tq_record_id s = Some r /\
                      records db !! tq_record_id s = Some r /\ br_status r = waiting).
  { intros s Hs. destruct (Hsel s Hs) as [Hq [r [Hr [Hw _]]]].
    destruct (I2 _ _ Hq) as [t0 [H0 [Heq|[Heq [r' [Hr' Hrun]]]]]].
    - subst t0. split; [exact H0|]. exists r. split; [apply I1; assumption|]. split; assumption.
    - subst s. exfalso. simpl in Hr. rewrite Hr' in Hr. injection Hr as <-.
      rewrite Hrun in Hw. discriminate. }
  assert (Hrid : forall k, k ∈ map tq_record_id items ->
            exists r, records db !! k = Some r /\ br_status r = waiting).
  { intros k Hk. apply in_map_key in Hk as [s [-> Hs]].
    destruct (Hsel s Hs) as [_ [r [Hr [Hw _]]]]. exists r. split; assumption. }
  assert (Hid : forall k, k ∈ map tq_id items -> exists s, k = tq_id s /\ In s items)
    by (intros k Hk; apply in_map_key, Hk).
  pose proof (claim_rows_records db items) as HR.
  pose proof (fun k => claim_rows_tasks db items k Hsrc) as HT.
  set (db' := fst (claim_rows make_task_spec manager_name now db items)) in *.
  (* the records of claimed tasks, after the claim *)
  assert (Hnew : forall s, In s items ->
            task_queue db0 !! tq_id s = Some s /\
            exists r0, records db0 !! tq_record_id s = Some r0 /\ br_status r0 = waiting /\
              records db' !! tq_record_id s = Some (claim_record manager_name now r0) /\
              task_queue db' !! tq_id s = Some (spec_of s)).
  { intros s Hs. destruct (Hs0 s Hs) as [Hq0 [r0 [Hr0 [Hr Hw]]]].
    split; [exact Hq0|]. exists r0. split; [exact Hr0|]. split; [exact Hw|]. split.
    - rewrite HR, bool_decide_eq_true_2, Hr; [reflexivity|].
      apply in_map_key. exists s. split; [reflexivity|exact Hs].
    - rewrite HT, bool_decide_eq_true_2, (Hsrc s Hs); [reflexivity|].
      apply in_map_key. exists s. split; [reflexivity|exact Hs]. }
  split; [split; [|split; [|split]]|].
  - (* waiting records are untouched rows of db0 *)
    intros rid r Hr Hw. rewrite HR in Hr. case_bool_decide as Hin.
    + destruct (records db !! rid); simpl in Hr; [|discriminate].
      injection Hr as <-. discriminate.
    + apply I1; assumption.
  - (* task rows *)
    intros k t Hk. rewrite HT in Hk. case_bool_decide as Hin.
    + destruct (Hid k Hin) as [s [-> Hs]]. rewrite (Hsrc s Hs) in Hk. simpl in Hk.
      injection Hk as <-. destruct (Hnew s Hs) as [Hq0 [r0 [_ [_ [Hr' _]]]]].
      exists s. split; [exact Hq0|]. right. split; [reflexivity|].
      exists (claim_record manager_name now r0). split; [exact Hr'|reflexivity].
    + destruct (I2 k t Hk) as [t0 [H0 Ht]]. exists t0. split; [exact H0|].
      destruct Ht as [Ht|[Ht [r [Hr Hrun]]]]; [left; exact Ht|right].
      split; [exact Ht|]. rewrite HR. case_bool_decide as Hin'.
      * destruct (Hrid _ Hin') as [r' [Hr' Hw']]. rewrite Hr in Hr'.
        injection Hr' as <-. rewrite Hrun in Hw'. discriminate.
      * exists r. split; assumption.
  - (* returned tasks *)
    intros t Ht. apply in_app_or in Ht as [Ht|Ht].
    + destruct (I3 t Ht) as [t0 [r0 [Hq0 [Ht0 [Hr0 [Hw0 [Hrc Hq]]]]]]].
      exists t0, r0. repeat (split; [assumption|]). split.
      * rewrite HR. case_bool_decide as Hin; [|exact Hrc].
        destruct (Hrid _ Hin) as [r' [Hr' Hw']]. rewrite Hrc in Hr'.
        injection Hr' as <-. discriminate.
      * rewrite HT. case_bool_decide as Hin; [|exact Hq].
        destruct (Hid _ Hin) as [s [Hks Hs]]. rewrite Hks in Hq.
        rewrite (Hsrc s Hs) in Hq. injection Hq as Est. subst s.
        destruct (Hsel t Hs) as [_ [r [Hr [Hw _]]]].
        rewrite Ht0 in Hr. simpl in Hr. rewrite Hrc in Hr. injection Hr as <-. discriminate.
    + apply in_map_iff in Ht as [s [<- Hs]].
      destruct (Hnew s Hs) as [Hq0 [r0 [Hr0 [Hw0 [Hrc Hq]]]]].
      exists s, r0. split; [exact Hq0|]. split; [reflexivity|].
      repeat (split; [assumption|]). exact Hq.
  - (* keys *)
    intros k t Hk. rewrite HT in Hk. case_bool_decide as Hin.
    + destruct (task_queue db !! k) as [u|] eqn:E; simpl in Hk; [|discriminate].
      injection Hk as <-. apply I4 in E. exact E.
    + apply I4, Hk.
  - (* the block returned for this tag *)
    apply List.Forall_forall. intros t Ht. apply in_map_iff in Ht as [s [<- Hs]].
    destruct (Hnew s Hs) as [Hq0 [r0 [Hr0 [Hw0 _]]]].
    destruct (Hsel s Hs) as [_ [r [Hr [_ [Hp [Htag Hl]]]]]].
    exists s, r0. split; [exact Hq0|]. split; [reflexivity|].
    repeat (split; [assumption|]). assumption.
Qed.

Lemma claim_loop_spec db0 limit : forall tags db found,
  claim_inv make_task_spec manager_name now db0 db found ->
  (length found <= Z.to_nat limit)%nat ->
  exists db' blocks,
    claim_loop make_task_spec manager_name now locked manager_programs limit tags db found
      = (db', found ++ concat blocks) /\
    (length blocks <= length tags)%nat /\
    Forall2 (fun tag b => Forall (claimed_from make_task_spec db0 locked manager_programs tag) b /\
                          Sorted claim_before b)
            (firstn (length blocks) tags) blocks /\
    claim_inv make_task_spec manager_name now db0 db' (found ++ concat blocks) /\
    (length (found ++ concat blocks) <= Z.to_nat limit)%nat.
Proof.
  induction tags as [|tag tags IH]; intros db found Hinv Hlen; cbn [claim_loop].
  - exists db, []. simpl. rewrite app_nil_r.
    split; [reflexivity|]. split; [lia|]. split; [constructor|]. split; assumption.
  - destruct (limit - Z.of_nat (length found) <=? 0) eqn:E.
    + exists db, []. simpl. rewrite app_nil_r.
      split; [reflexivity|]. split; [lia|]. split; [constructor|]. split; assumption.
    + apply Z.leb_gt in E.
      set (items := select_claimable db locked manager_programs tag (limit - Z.of_nat (length found))).
      destruct (claim_step db0 db found tag (limit - Z.of_nat (length found)) Hinv)
        as [Hinv' Hblk].
      fold items in Hinv', Hblk.
      destruct (claim_rows make_task_spec manager_name now db items) as [db1 items'] eqn:Ec.
      pose proof (claim_rows_found db items) as Hf. rewrite Ec in Hf. simpl in Hf. subst items'.
      simpl in Hinv'.
      assert (Hlen' : (length (found ++ map spec_of items) <= Z.to_nat limit)%nat).
      { pose proof (select_claimable_length db locked manager_programs tag
                      (limit - Z.of_nat (length found))) as Hs. fold items in Hs.
        rewrite length_app, length_map. lia. }
      destruct (IH db1 _ Hinv' Hlen') as [db' [blocks [Hl [Hb [HF [Hi Hlen2]]]]]].
      exists db', (map spec_of items :: blocks).
      rewrite Hl, <- app_assoc. simpl. split; [reflexivity|].
      split; [lia|]. split; [|split; [rewrite <- app_assoc in Hi; exact Hi|
                                      rewrite <- app_assoc in Hlen2; exact Hlen2]].
      constructor; [|exact HF]. split; [exact Hblk|].
      apply sorted_map_with_spec; [intros; split; reflexivity|]. apply select_claimable_sorted.
Qed.

Lemma claim_frame_step db0 db found tag n :
  claim_inv make_task_spec manager_name now db0 db found -> claim_frame db0 db found ->
  let items := select_claimable db locked manager_programs tag n in
  claim_frame db0 (fst (claim_rows make_task_spec manager_name now db items))
    (found ++ map spec_of items).
Proof.
  intros (_ & _ & _ & I4) [F1 F2] items.
  assert (Hsrc : forall s, In s items -> task_queue db !! tq_id s = Some s)
    by (intros s Hs; apply (selected_facts db tag n s I4 Hs)).
  split.
  - intros rid Hrid. rewrite map_app in Hrid. rewrite claim_rows_records. rewrite bool_decide_eq_false_2.
    + apply F1. intros Hin. apply Hrid, in_or_app. left. exact Hin.
    + intros Hin. apply Hrid, in_or_app. right. rewrite map_map.
      apply list_elem_of_In in Hin. exact Hin.
  - intros k Hk. rewrite map_app in Hk. rewrite (claim_rows_tasks db items k Hsrc). rewrite bool_decide_eq_false_2.
    + apply F2. intros Hin. apply Hk, in_or_app. left. exact Hin.
    + intros Hin. apply Hk, in_or_app. right. rewrite map_map.
      apply list_elem_of_In in Hin. exact Hin.
Qed.

Lemma candidate_selectable db0 db found tag t :
  claim_inv make_task_spec manager_name now db0 db found -> claim_frame db0 db found ->
  claim_candidate db0 locked manager_programs tag found t ->
  (exists k, task_queue db !! k = Some t) /\ claim_filter db manager_programs tag t = true /\
  tq_id t ∉ locked.
Proof.
  intros (_ & _ & I3 & _) [F1 F2] (Hq & (r0 & Hr0 & Hw) & Hp & Htag & Hl & Hnr).
  assert (Hid : ~ In (tq_id t) (map tq_id found)).
  { intros Hin. apply in_map_iff in Hin as [u [Hu Hin]].
    destruct (I3 u Hin) as (t0 & r1 & Hq0 & Hut & _).
    rewrite Hu, Hq in Hq0. injection Hq0 as <-. apply Hnr. apply in_map_iff.
    exists u. split; [rewrite Hut; reflexivity|exact Hin]. }
  split; [exists (tq_id t); rewrite F2 by exact Hid; exact Hq|]. split; [|exact Hl].
  unfold claim_filter. rewrite F1 by exact Hnr. rewrite Hr0.
  rewrite bool_decide_eq_true_2 by exact Hw. rewrite Hp. cbn [andb].
  destruct Htag as [->|<-]; [reflexivity|].
  destruct (String.eqb (tq_tag t) "*"); [reflexivity|apply String.eqb_refl].
Qed.

Lemma claim_loop_blocks db0 limit : forall tags db found,
  claim_inv make_task_spec manager_name now db0 db found -> claim_frame db0 db found ->
  (length found <= Z.to_nat limit)%nat ->
  exists db' blocks,
    claim_loop make_task_spec manager_name now locked manager_programs limit tags db found
      = (db', found ++ concat blocks) /\
    (length blocks <= length tags)%nat /\
    ((length blocks < length tags)%nat -> length (found ++ concat blocks) = Z.to_nat limit) /\
    (length (found ++ concat blocks) <= Z.to_nat limit)%nat /\
    forall i tag b, nth_error tags i = Some tag -> nth_error blocks i = Some b ->
      Forall (claimed_from make_task_spec db0 locked manager_programs tag) b /\
      Sorted claim_before b /\
      (length b <= Z.to_nat limit - length (found ++ concat (firstn i blocks)))%nat /\
      forall t, claim_candidate db0 locked manager_programs tag
                  (found ++ concat (firstn i blocks)) t ->
        ((length b < Z.to_nat limit - length (found ++ concat (firstn i blocks)))%nat ->
           In (tq_id t) (map tq_id b)) /\
        (~ In (tq_id t) (map tq_id b) -> forall u, In u b -> claim_before u t).
Proof.
  induction tags as [|tag tags IH]; intros db found Hinv Hfr Hlen; cbn [claim_loop].
  - exists db, []. rewrite app_nil_r. split; [reflexivity|]. cbn [length].
    split; [lia|]. split; [lia|]. split; [exact Hlen|].
    intros i ? ? Ht; destruct i; discriminate.
  - destruct (limit - Z.of_nat (length found) <=? 0) eqn:E.
    + apply Z.leb_le in E. exists db, []. rewrite app_nil_r. split; [reflexivity|].
      cbn [length]. split; [lia|]. split; [intros _; lia|]. split; [exact Hlen|].
      intros i ? ? _ Hb; destruct i; discriminate.
    + apply Z.leb_gt in E.
      set (n := limit - Z.of_nat (length found)).
      set (items := select_claimable db locked manager_programs tag n).
      destruct (claim_step db0 db found tag n Hinv) as [Hinv' Hblk]. fold items in Hinv', Hblk.
      pose proof (claim_frame_step db0 db found tag n Hinv Hfr) as Hfr'. cbv zeta in Hfr'. fold items in Hfr'.
      pose proof (select_claimable_length db locked manager_programs tag n) as Hil.
      fold items in Hil.
      destruct (claim_rows make_task_spec manager_name now db items) as [db1 items'] eqn:Ec.
      pose proof (claim_rows_found db items) as Hf. rewrite Ec in Hf. simpl in Hf. subst items'.
      simpl in Hinv', Hfr'.
      assert (Hlen' : (length (found ++ map spec_of items) <= Z.to_nat limit)%nat)
        by (rewrite length_app, length_map; lia).
      destruct (IH db1 _ Hinv' Hfr' Hlen') as (db' & blocks & Hl & Hb & Hstop & Htot & Hblocks).
      exists db', (map spec_of items :: blocks).
      cbn [concat length]. rewrite !app_assoc.
      split; [rewrite Hl; reflexivity|]. split; [lia|].
      split; [intros Hlt; apply Hstop; lia|]. split; [exact Htot|].
      intros [|i] tag' b Htag Hb'; cbn in Htag, Hb'.
      * injection Htag as <-. injection Hb' as <-. cbn [firstn concat]. rewrite app_nil_r.
        split; [exact Hblk|]. split.
        { apply sorted_map_with_spec; [intros; split; reflexivity|]. apply select_claimable_sorted. }
        rewrite length_map. split; [lia|].
        intros t Hc.
        destruct (candidate_selectable db0 db found tag t Hinv Hfr Hc) as (Hk & Hcf & Hlk).
        destruct (select_claimable_complete db locked manager_programs tag n t Hk Hcf Hlk)
          as [Hall Hbefore]. fold items in Hall, Hbefore.
        split.
        -- intros Hlt. rewrite map_map. apply (in_map (fun x => tq_id (spec_of x))).
           apply Hall. lia.
        -- intros Hnot u Hu. apply in_map_iff in Hu as [u0 [<- Hu0]].
           assert (Hnt : ~ In t items).
           { intros Hin. apply Hnot. rewrite map_map. exact (in_map (fun x => tq_id (spec_of x)) _ _ Hin). }
           exact (Hbefore Hnt u0 Hu0).
      * cbn [firstn concat]. rewrite !app_assoc. exact (Hblocks i tag' b Htag Hb').
Qed.

End ClaimProofs.

Lemma claim_loop_length make_task_spec manager_name now locked progs limit : forall tags db found,
  (length found <= Z.to_nat limit)%nat ->
  (length (snd (claim_loop make_task_spec manager_name now locked progs limit tags db found))
     <= Z.to_nat limit)%nat.
Proof.
  induction tags as [|tag tags IH]; intros db found Hlen; cbn [claim_loop]; [exact Hlen|].
  destruct (limit - Z.of_nat (length found) <=? 0) eqn:E; [exact Hlen|].
  apply Z.leb_gt in E.
  destruct (claim_rows make_task_spec manager_name now db _) as [db1 items'] eqn:Ec.
  apply IH. pose proof (claim_rows_found make_task_spec manager_name now db
     (select_claimable db locked progs tag (limit - Z.of_nat (length found)))) as Hf.
  rewrite Ec in Hf. simpl in Hf. subst items'.
  pose proof (select_claimable_length db locked progs tag (limit - Z.of_nat (length found))).
  rewrite length_app, length_map. lia.
Qed.

Lemma claim_inv_init make_task_spec manager_name now db :
  tasks_keyed db -> claim_inv make_task_spec manager_name now db db [].
Proof.
  intros Hk. split; [|split; [|split]].
  - intros rid r Hr _. exact Hr.
  - intros k t Ht. exists t. split; [exact Ht|left; reflexivity].
  - intros t [].
  - exact Hk.
Qed.

(** C2: for an active manager, [claim_tasks] goes through the manager's tags
    in their configured order, one block of tasks per tag, and stops early
    only once the effective limit is reached.  The block claimed for a tag
    consists of rows of the queue whose record was waiting, whose required
    programs are among the manager's programs and whose tag is the manager
    tag (or the manager tag is "*"), skipping rows locked by concurrent
    claimants; it is ordered by priority descending then creation time
    ascending; it holds at most the remaining limit; and it is the first
    such tasks in that order: a task that was still eligible for this tag
    (its record not claimed for an earlier tag) and was left out comes after
    every task of the block, and a block shorter than the remaining limit
    holds every eligible task. *)
Theorem claim_tasks_selects_by_tag_order
    (make_task_spec : TaskQueueORM -> string) (tasks_claim_limit : Z) (now : nat)
    (locked : gset nat) (manager_name : string) (limit : option Z) (db : DB)
    (manager : ComputeManagerORM) :
  tasks_keyed db ->
  compute_managers db !! manager_name = Some manager ->
  cm_status manager = active ->
  let lim := Z.to_nat (calculate_limit tasks_claim_limit limit) in
  exists db' blocks,
    claim_tasks make_task_spec tasks_claim_limit now locked manager_name limit db
      = (db', inr (concat blocks)) /\
    (length blocks <= length (cm_tags manager))%nat /\
    ((length blocks < length (cm_tags manager))%nat -> length (concat blocks) = lim) /\
    (length (concat blocks) <= lim)%nat /\
    forall i tag b, nth_error (cm_tags manager) i = Some tag -> nth_error blocks i = Some b ->
      let before := concat (firstn i blocks) in
      Forall (claimed_from make_task_spec db locked (cm_programs manager) tag) b /\
      Sorted claim_before b /\
      (length b <= lim - length before)%nat /\
      forall t, claim_candidate db locked (cm_programs manager) tag before t ->
        ((length b < lim - length before)%nat -> In (tq_id t) (map tq_id b)) /\
        (~ In (tq_id t) (map tq_id b) -> forall u, In u b -> claim_before u t).
Proof.
  intros Hk Hm Ha lim. unfold claim_tasks. rewrite Hm.
  rewrite bool_decide_eq_false_2 by (intros H; apply H, Ha).
  destruct (claim_loop_blocks make_task_spec manager_name now locked (cm_programs manager) db
              (calculate_limit tasks_claim_limit limit) (cm_tags manager) db []
              (claim_inv_init _ _ _ _ Hk)
              (conj (fun _ _ => eq_refl) (fun _ _ => eq_refl)) (Nat.le_0_l _))
    as (db1 & blocks & Hl & Hb & Hstop & Htot & Hblocks).
  rewrite Hl. cbn [app] in *. exists (set_compute_managers db1
    (<[manager_name := add_claimed (length (concat blocks)) manager]> (compute_managers db1))), blocks.
  split; [reflexivity|]. split; [exact Hb|]. split; [exact Hstop|]. split; [exact Htot|].
  exact Hblocks.
Qed.

Lemma claim_tasks_selects_by_tag_order_witness :
  let lim := Z.to_nat (calculate_limit 200 (Some 2)) in
  exists db' blocks,
    claim_tasks (fun _ => "spec") 200 5 ∅ "mgr" (Some 2) ex_db = (db', inr (concat blocks)) /\
    (length blocks <= length (cm_tags ex_manager))%nat /\
    ((length blocks < length (cm_tags ex_manager))%nat -> length (concat blocks) = lim) /\
    (length (concat blocks) <= lim)%nat /\
    forall i tag b, nth_error (cm_tags ex_manager) i = Some tag -> nth_error blocks i = Some b ->
      let before := concat (firstn i blocks) in
      Forall (claimed_from (fun _ => "spec") ex_db ∅ (cm_programs ex_manager) tag) b /\
      Sorted claim_before b /\
      (length b <= lim - length before)%nat /\
      forall t, claim_candidate ex_db ∅ (cm_programs ex_manager) tag before t ->
        ((length b < lim - length before)%nat -> In (tq_id t) (map tq_id b)) /\
        (~ In (tq_id t) (map tq_id b) -> forall u, In u b -> claim_before u t).
Proof.
  apply (claim_tasks_selects_by_tag_order (fun _ => "spec") 200 5 ∅ "mgr" (Some 2) ex_db ex_manager).
  - apply (bool_decide_unpack _). vm_compute. reflexivity.
  - vm_compute. reflexivity.
  - reflexivity.
Defined.

Lemma calculate_limit_le (max_limit : Z) (given_limit : option Z) :
  (Z.to_nat (calculate_limit max_limit given_limit) <= Z.to_nat max_limit)%nat /\
  (forall l, given_limit = Some l -> (Z.to_nat (calculate_limit max_limit given_limit) <= Z.to_nat l)%nat).
Proof.
  destruct given_limit as [l|]; simpl; split; intros; try discriminate; try lia.
  injection H as <-. lia.
Qed.

(** C10: whatever limit the manager asks for (or none), [claim_tasks]
    returns at most [api_limits.manager_tasks_claim] tasks (read as a count,
    a negative setting meaning none), and at most the requested limit. *)
Theorem claim_tasks_within_claim_limit
    (make_task_spec : TaskQueueORM -> string) (tasks_claim_limit : Z) (now : nat)
    (locked : gset nat) (manager_name : string) (limit : option Z) (db : DB) :
  match snd (claim_tasks make_task_spec tasks_claim_limit now locked manager_name limit db) with
  | inr found =>
      (length found <= Z.to_nat tasks_claim_limit)%nat /\
      (forall l, limit = Some l -> (length found <= Z.to_nat l)%nat)
  | inl _ => True
  end.
Proof.
  unfold claim_tasks. destruct (compute_managers db !! manager_name) as [m|]; [|exact I].
  case_bool_decide as Hact; [exact I|].
  pose proof (claim_loop_length make_task_spec manager_name now locked (cm_programs m)
                (calculate_limit tasks_claim_limit limit) (cm_tags m) db [] (Nat.le_0_l _)) as Hlen.
  destruct (claim_loop _ _ _ _ _ _ _ _ _) as [db1 found]. simpl in *.
  destruct (calculate_limit_le tasks_claim_limit limit) as [H1 H2].
  split; [lia|]. intros l Hl. specialize (H2 l Hl). lia.
Qed.

(** C5 (as amended): every task a claim returns has its record, as it was at
    the start of the call, now [running], owned by the claiming manager and
    stamped with the claim time (its history unchanged); the task row keeps
    the [available] flag it had. *)
Theorem claim_tasks_marks_records_running
    (make_task_spec : TaskQueueORM -> string) (tasks_claim_limit : Z) (now : nat)
    (locked : gset nat) (manager_name : string) (limit : option Z) (db : DB)
    (manager : ComputeManagerORM) :
  tasks_keyed db ->
  compute_managers db !! manager_name = Some manager ->
  cm_status manager = active ->
  exists db' found,
    claim_tasks make_task_spec tasks_claim_limit now locked manager_name limit db
      = (db', inr found) /\
    Forall (fun t =>
      exists t0 r0 r1 t1,
        task_queue db !! tq_id t = Some t0 /\
        records db !! tq_record_id t0 = Some r0 /\
        records db' !! tq_record_id t0 = Some r1 /\
        br_status r1 = running /\ br_manager_name r1 = Some manager_name /\
        br_modified_on r1 = now /\ br_compute_history r1 = br_compute_history r0 /\
        task_queue db' !! tq_id t = Some t1 /\ tq_available t1 = tq_available t0) found.
Proof.
  intros Hk Hm Ha. unfold claim_tasks. rewrite Hm.
  rewrite bool_decide_eq_false_2 by (intros H; apply H, Ha).
  destruct (claim_loop_spec make_task_spec manager_name now locked (cm_programs manager) db
              (calculate_limit tasks_claim_limit limit) (cm_tags manager) db []
              (claim_inv_init _ _ _ _ Hk) (Nat.le_0_l _))
    as [db1 [blocks [Hl [_ [_ [[_ [_ [I3 _]]] _]]]]]].
  rewrite Hl. simpl. eexists _, _. split; [reflexivity|].
  apply List.Forall_forall. intros t Ht.
  destruct (I3 t Ht) as [t0 [r0 [Hq0 [Ht0 [Hr0 [_ [Hr1 Hq1]]]]]]].
  exists t0, r0, (claim_record manager_name now r0), t.
  repeat (split; [first [assumption | reflexivity]|]).
  subst t. reflexivity.
Qed.

(** C5 fails as stated: the claimed task keeps [available = true] (the
    claim query filters on the record status and never writes the flag). *)
Lemma claim_tasks_keeps_available_flag :
  let '(db', res) := claim_tasks (fun _ => "spec") 200 5 ∅ "mgr" (Some 1) ex_db in
  res = inr [with_spec (ex_task 11 2 2 1) "spec"] /\
  option_map tq_available (task_queue db' !! 11%nat) = Some true /\
  option_map br_status (records db' !! 2%nat) = Some running.
Proof. vm_compute. split; [reflexivity|split; reflexivity]. Qed.

Lemma claim_tasks_marks_records_running_witness :
  exists db' found,
    claim_tasks (fun _ => "spec") 200 5 ∅ "mgr" None ex_db = (db', inr found) /\
    Forall (fun t =>
      exists t0 r0 r1 t1,
        task_queue ex_db !! tq_id t = Some t0 /\
        records ex_db !! tq_record_id t0 = Some r0 /\
        records db' !! tq_record_id t0 = Some r1 /\
        br_status r1 = running /\ br_manager_name r1 = Some "mgr" /\
        br_modified_on r1 = 5%nat /\ br_compute_history r1 = br_compute_history r0 /\
        task_queue db' !! tq_id t = Some t1 /\ tq_available t1 = tq_available t0) found.
Proof.
  apply (claim_tasks_marks_records_running (fun _ => "spec") 200 5 ∅ "mgr" None ex_db ex_manager).
  - apply (bool_decide_unpack _). vm_compute. reflexivity.
  - vm_compute. reflexivity.
  - reflexivity.
Defined.

(** ** Manager checks *)

(** C4: when the manager is unknown or not active, both [claim_tasks] and
    [update_finished] raise [ComputeManagerError] and return the database
    they were given: no task is claimed or processed. *)
Theorem manager_errors_precede_processing
    (make_task_spec : TaskQueueORM -> string) (tasks_claim_limit : Z) (now : nat)
    (locked : gset nat) (limit : option Z)
    (failure_raises : BaseRecordORM -> FailedOpError -> bool)
    (completion_raises : BaseRecordORM -> AllResultTypes -> bool)
    (should_reset : BaseRecordORM -> bool) (auto_reset_enabled : bool)
    (records_reset : list nat -> DB -> DB) (traceback_text : string)
    (manager_name : string) (results : list (nat * AllResultTypes)) (db : DB) :
  (compute_managers db !! manager_name = None \/
   exists m, compute_managers db !! manager_name = Some m /\ cm_status m <> active) ->
  (exists msg, claim_tasks make_task_spec tasks_claim_limit now locked manager_name limit db
               = (db, inl (ComputeManagerError msg))) /\
  (exists msg, update_finished failure_raises completion_raises should_reset auto_reset_enabled
                 records_reset traceback_text manager_name results db
               = (db, inl (ComputeManagerError msg))).
Proof.
  intros [H|[m [H Hs]]]; unfold claim_tasks, update_finished; rewrite H.
  - split; eexists; reflexivity.
  - rewrite !bool_decide_eq_true_2 by exact Hs. split; eexists; reflexivity.
Qed.

Lemma manager_errors_precede_processing_witness :
  (exists msg, claim_tasks (fun _ => "spec") 200 5 ∅ "other" None ex_db
               = (ex_db, inl (ComputeManagerError msg))) /\
  (exists msg, update_finished (fun _ _ => false) (fun _ _ => false) (fun _ => false) false
                 (fun _ d => d) "" "other" [(10%nat, AtomicResult true 0)] ex_db
               = (ex_db, inl (ComputeManagerError msg))).
Proof.
  apply (manager_errors_precede_processing (fun _ => "spec") 200 5 ∅ None
           (fun _ _ => false) (fun _ _ => false) (fun _ => false) false (fun _ d => d) ""
           "other" [(10%nat, AtomicResult true 0)] ex_db).
  left. vm_compute. reflexivity.
Defined.

(** ** The loop of [update_finished] *)

Section CompletionProofs.

Variable failure_raises : BaseRecordORM -> FailedOpError -> bool.
Variable completion_raises : BaseRecordORM -> AllResultTypes -> bool.
Variable should_reset : BaseRecordORM -> bool.
Variable auto_reset_enabled : bool.
Variable traceback_text : string.

Let process_results' :=
  process_results failure_raises completion_raises should_reset auto_reset_enabled traceback_text.
Let process_result' :=
  process_result failure_raises completion_raises should_reset auto_reset_enabled traceback_text.
Let internal_error_op' := internal_error_op traceback_text.

Lemma process_results_app manager_name pre post : forall db ls,
  process_results' manager_name db ls (pre ++ post) =
  match process_results' manager_name db ls pre with
  | inl e => inl e
  | inr (db', ls') => process_results' manager_name db' ls' post
  end.
Proof.
  unfold process_results'.
  induction pre as [|[task_id res] pre IH]; intros db ls; simpl; [reflexivity|].
  destruct (process_result _ _ _ _ _ _ _ _ _ _) as [e|[db' ls']]; [reflexivity|].
  apply IH.
Qed.

(** One result, classified by the outcome it had. *)
Lemma process_result_step manager_name db ls task_id res db' ls' :
  process_result' manager_name db ls task_id res = inr (db', ls') ->
  exists o, outcome_applied manager_name db task_id res db' o /\
    tasks_success ls' = tasks_success ls ++ (if is_success o then [task_id] else []) /\
    tasks_failures ls' = tasks_failures ls ++ (if is_failure o then [task_id] else []) /\
    tasks_rejected ls' = tasks_rejected ls ++ rejections [task_id] [o] /\
    to_be_reset ls' = to_be_reset ls ++
                      reset_candidates should_reset auto_reset_enabled manager_name [o] /\
    compute_managers db' = compute_managers db.
Proof.
  unfold process_result', process_result.
  destruct (lookup_task db task_id) as [[t r]|] eqn:Hl.
  2: { intros [= <- <-]. exists (ORejected "Task does not exist in the task queue").
       split; [left; auto|]. cbn. rewrite ?app_nil_r. auto. }
  unfold try_body. case_bool_decide as Hs.
  { intros [= <- <-]. exists (ORejected "Task is not in a running state").
    split; [right; exists t, r; split; [exact Hl|left; auto]|].
    cbn. rewrite ?app_nil_r. auto. }
  case_bool_decide as Hm.
  { intros [= <- <-]. exists (ORejected "Task is claimed by another manager").
    split; [right; exists t, r; split; [exact Hl|left; auto]|].
    cbn. rewrite ?app_nil_r. auto. }
  (* the [except] clause, shared by every branch that raises *)
  assert (Hexc : forall ls1,
    match update_failed_task failure_raises db r internal_error_op' manager_name with
    | None => inl InternalException
    | Some db'0 => inr (db'0, push_notify (push_rejected ls1 (task_id, "Internal server error"))
                                 (br_id r) (Some error))
    end = inr (db', ls') -> ls1 = ls ->
    exists o, outcome_applied manager_name db task_id res db' o /\
      tasks_success ls' = tasks_success ls ++ (if is_success o then [task_id] else []) /\
      tasks_failures ls' = tasks_failures ls ++ (if is_failure o then [task_id] else []) /\
      tasks_rejected ls' = tasks_rejected ls ++ rejections [task_id] [o] /\
      to_be_reset ls' = to_be_reset ls ++
                        reset_candidates should_reset auto_reset_enabled manager_name [o] /\
      compute_managers db' = compute_managers db).
  { intros ls1 H ->. unfold update_failed_task in H.
    destruct (failure_raises r internal_error_op') eqn:Hf; [discriminate|].
    injection H as <- <-. exists (ORejected "Internal server error").
    split.
    - right. exists t, r. split; [exact Hl|right]. exists internal_error_op'.
      split; [reflexivity|]. split; [cbn; apply lookup_insert_eq|auto].
    - cbn. rewrite ?app_nil_r. auto. }
  destruct res as [[|] err|[|] p]; cbn [negb result_success].
  - unfold update_completed_task.
    destruct (completion_raises r (FailedOperation true err)); [intros Hx; exact (Hexc _ Hx eq_refl)|].
    intros [= <- <-]. exists (OSuccess r).
    split; [split; [exists t; exact Hl|split; [reflexivity|cbn; apply lookup_insert_eq]]|].
    cbn. rewrite ?app_nil_r. auto.
  - unfold update_failed_task at 1.
    destruct (failure_raises r err); [intros Hx; exact (Hexc _ Hx eq_refl)|].
    intros H. exists (OFailure r err).
    split; [split; [exists t; exact Hl|split; [reflexivity|]]|].
    + destruct auto_reset_enabled; [destruct (should_reset (failed_record r err manager_name))|]; injection H as <- <-;
        cbn; apply lookup_insert_eq.
    + unfold reset_candidates. cbn [flat_map].
      destruct auto_reset_enabled; [destruct (should_reset (failed_record r err manager_name))|]; injection H as <- <-;
        cbn; rewrite ?app_nil_r; auto.
  - unfold update_completed_task.
    destruct (completion_raises r (AtomicResult true p)); [intros Hx; exact (Hexc _ Hx eq_refl)|].
    intros [= <- <-]. exists (OSuccess r).
    split; [split; [exists t; exact Hl|split; [reflexivity|cbn; apply lookup_insert_eq]]|].
    cbn. rewrite ?app_nil_r. auto.
  - unfold update_failed_task at 1.
    destruct (failure_raises r _); [intros Hx; exact (Hexc _ Hx eq_refl)|].
    intros [= <- <-].
    exists (ORejected "Returned success=False, but not a FailedOperation").
    split.
    + right. exists t, r. split; [exact Hl|right].
      exists {| error_type := "internal_fractal_error";
                error_message := unexpected_return_msg task_id (br_id r) |}.
      split; [reflexivity|]. split; [cbn; apply lookup_insert_eq|auto].
    + cbn. rewrite ?app_nil_r. auto.
Qed.

Lemma ids_with_cons p i ids o os :
  ids_with p (i :: ids) (o :: os) = (if p o then [i] else []) ++ ids_with p ids os.
Proof. simpl. destruct (p o); reflexivity. Qed.

Lemma rejections_cons i ids o os :
  rejections (i :: ids) (o :: os) = rejections [i] [o] ++ rejections ids os.
Proof. destruct o; reflexivity. Qed.

Lemma reset_candidates_cons sr en name o os :
  reset_candidates sr en name (o :: os)
  = reset_candidates sr en name [o] ++ reset_candidates sr en name os.
Proof. unfold reset_candidates. simpl. rewrite app_nil_r. reflexivity. Qed.

(** The loop, as a trace of outcomes. *)
Lemma process_results_trace manager_name results : forall db ls db' ls',
  process_results' manager_name db ls results = inr (db', ls') ->
  exists outs, batch_trace manager_name db results outs db' /\
    tasks_success ls' = tasks_success ls ++ ids_with is_success (map fst results) outs /\
    tasks_failures ls' = tasks_failures ls ++ ids_with is_failure (map fst results) outs /\
    tasks_rejected ls' = tasks_rejected ls ++ rejections (map fst results) outs /\
    to_be_reset ls' = to_be_reset ls ++
                      reset_candidates should_reset auto_reset_enabled manager_name outs /\
    compute_managers db' = compute_managers db.
Proof.
  induction results as [|[task_id res] rest IH]; intros db ls db' ls' H.
  - unfold process_results' in H. cbn in H.
    injection H as <- <-. exists []. split; [constructor|].
    cbn. rewrite ?app_nil_r. auto.
  - unfold process_results' in H. cbn [process_results] in H. fold process_result' in H. fold process_results' in H.
    destruct (process_result' manager_name db ls task_id res) as [e|[db1 ls1]] eqn:H1;
      [discriminate|].
    destruct (process_result_step _ _ _ _ _ _ _ H1) as (o & Ho & Hs & Hf & Hr & Hb & Hc).
    destruct (IH _ _ _ _ H) as (os & Hos & Hs' & Hf' & Hr' & Hb' & Hc').
    exists (o :: os). split; [econstructor; eauto|].
    cbn [map fst]. rewrite !ids_with_cons, rejections_cons, reset_candidates_cons.
    rewrite Hs', Hf', Hr', Hb', Hc', Hs, Hf, Hr, Hb, Hc, <- !app_assoc. auto.
Qed.

End CompletionProofs.

(** C3: in the loop of [update_finished], once the results before
    [task_id] have been processed (reaching [dbk] and the lists [lsk]), a
    result for a task missing from the queue, for a task whose record is not
    running, or for a task whose record is owned by another manager, adds
    exactly one rejection with the matching reason and leaves the database
    (so the record's status and history) as it was; the loop then goes on
    with the next result. *)
Theorem update_finished_rejects_stale_results
    (failure_raises : BaseRecordORM -> FailedOpError -> bool)
    (completion_raises : BaseRecordORM -> AllResultTypes -> bool)
    (should_reset : BaseRecordORM -> bool) (auto_reset_enabled : bool)
    (traceback_text : string) (manager_name : string)
    (pre post : list (nat * AllResultTypes)) (task_id : nat) (res : AllResultTypes)
    (db dbk : DB) (lsk : UpdateLists) :
  process_results failure_raises completion_raises should_reset auto_reset_enabled
    traceback_text manager_name db empty_lists pre = inr (dbk, lsk) ->
  let run := process_results failure_raises completion_raises should_reset auto_reset_enabled
               traceback_text manager_name in
  (lookup_task dbk task_id = None ->
   run db empty_lists (pre ++ (task_id, res) :: post)
   = run dbk (push_rejected lsk (task_id, "Task does not exist in the task queue")) post) /\
  (forall t r, lookup_task dbk task_id = Some (t, r) -> br_status r <> running ->
   run db empty_lists (pre ++ (task_id, res) :: post)
   = run dbk (push_rejected lsk (task_id, "Task is not in a running state")) post) /\
  (forall t r, lookup_task dbk task_id = Some (t, r) -> br_status r = running ->
   br_manager_name r <> Some manager_name ->
   run db empty_lists (pre ++ (task_id, res) :: post)
   = run dbk (push_rejected lsk (task_id, "Task is claimed by another manager")) post).
Proof.
  intros Hpre run. unfold run.
  rewrite (process_results_app failure_raises completion_raises should_reset
             auto_reset_enabled traceback_text manager_name pre).
  rewrite Hpre. cbn [process_results]. unfold process_result.
  split; [|split].
  - intros Hl. rewrite Hl. reflexivity.
  - intros t r Hl Hs. rewrite Hl. unfold try_body.
    rewrite bool_decide_eq_true_2 by exact Hs. reflexivity.
  - intros t r Hl Hs Hm. rewrite Hl. unfold try_body.
    rewrite bool_decide_eq_false_2 by (intros H; apply H, Hs).
    rewrite bool_decide_eq_true_2 by exact Hm. reflexivity.
Qed.

Lemma update_finished_rejects_stale_results_witness :
  process_results (fun _ _ => false) (fun _ _ => false) (fun _ => false) false ""
    "mgr" ex_db_complete empty_lists [] = inr (ex_db_complete, empty_lists) /\
  let run := process_results (fun _ _ => false) (fun _ _ => false) (fun _ => false) false ""
               "mgr" in
  (lookup_task ex_db_complete 10 = None ->
   run ex_db_complete empty_lists ([] ++ [(10%nat, AtomicResult true 0)])
   = run ex_db_complete (push_rejected empty_lists (10%nat, "Task does not exist in the task queue")) []) /\
  (forall t r, lookup_task ex_db_complete 10 = Some (t, r) -> br_status r <> running ->
   run ex_db_complete empty_lists ([] ++ [(10%nat, AtomicResult true 0)])
   = run ex_db_complete (push_rejected empty_lists (10%nat, "Task is not in a running state")) []) /\
  (forall t r, lookup_task ex_db_complete 10 = Some (t, r) -> br_status r = running ->
   br_manager_name r <> Some "mgr" ->
   run ex_db_complete empty_lists ([] ++ [(10%nat, AtomicResult true 0)])
   = run ex_db_complete (push_rejected empty_lists (10%nat, "Task is claimed by another manager")) []).
Proof.
  split; [reflexivity|].
  apply (update_finished_rejects_stale_results (fun _ _ => false) (fun _ _ => false)
           (fun _ => false) false "" "mgr" [] [] 10 (AtomicResult true 0)
           ex_db_complete ex_db_complete empty_lists).
  reflexivity.
Defined.

(** X16: in the loop of [update_finished], once the results before
    [task_id] have been processed (reaching [dbk] and [lsk]), a result for a
    task that exists, whose record is running and is owned by the submitting
    manager, and which is ambiguous (neither a success nor a
    [FailedOperation] with success=False) or whose outcome raises when
    applied, leads, provided the synthetic failure itself can be applied, to
    a synthetic failure tagged [internal_fractal_error] written into that
    record (status error), the task removed from the queue, exactly one
    rejection for [task_id] with reason "Returned success=False, but not a
    FailedOperation" or "Internal server error", an error notification,
    nothing else touched (other records, other records' tasks, managers),
    and the loop going on with the next result. *)
Theorem update_finished_internal_error_isolated
    (failure_raises : BaseRecordORM -> FailedOpError -> bool)
    (completion_raises : BaseRecordORM -> AllResultTypes -> bool)
    (should_reset : BaseRecordORM -> bool) (auto_reset_enabled : bool)
    (traceback_text : string) (manager_name : string)
    (pre post : list (nat * AllResultTypes)) (task_id : nat) (res : AllResultTypes)
    (db dbk : DB) (lsk : UpdateLists) (t : TaskQueueORM) (r : BaseRecordORM) :
  process_results failure_raises completion_raises should_reset auto_reset_enabled
    traceback_text manager_name db empty_lists pre = inr (dbk, lsk) ->
  lookup_task dbk task_id = Some (t, r) ->
  br_status r = running ->
  br_manager_name r = Some manager_name ->
  ((result_success res = false /\ forall err, res <> FailedOperation false err) \/
   (exists err, res = FailedOperation false err /\ failure_raises r err = true) \/
   (result_success res = true /\ completion_raises r res = true)) ->
  failure_raises r (internal_error_op traceback_text) = false ->
  exists reason err,
    error_type err = "internal_fractal_error" /\
    (reason = "Returned success=False, but not a FailedOperation" \/
     reason = "Internal server error") /\
    process_results failure_raises completion_raises should_reset auto_reset_enabled
      traceback_text manager_name db empty_lists (pre ++ (task_id, res) :: post)
    = process_results failure_raises completion_raises should_reset auto_reset_enabled
        traceback_text manager_name
        (set_task_queue
           (set_records dbk (<[br_id r := failed_record r err manager_name]> (records dbk)))
           (drop_task_of (br_id r) (task_queue dbk)))
        (push_notify (push_rejected lsk (task_id, reason)) (br_id r) (Some error)) post.
Proof.
  intros Hpre Hl Hs Hm Hcase Hint.
  rewrite (process_results_app failure_raises completion_raises should_reset
             auto_reset_enabled traceback_text manager_name pre).
  rewrite Hpre. cbn [process_results]. unfold process_result. rewrite Hl.
  unfold try_body.
  rewrite bool_decide_eq_false_2 by (intros H; apply H, Hs).
  rewrite bool_decide_eq_false_2 by (intros H; apply H, Hm).
  (* the [except] clause *)
  assert (Hexc : match update_failed_task failure_raises dbk r (internal_error_op traceback_text)
                         manager_name with
                 | None => @inl Exc (DB * UpdateLists) InternalException
                 | Some db' => inr (db', push_notify (push_rejected lsk
                                   (task_id, "Internal server error")) (br_id r) (Some error))
                 end
                 = inr (set_task_queue
                          (set_records dbk (<[br_id r := failed_record r
                             (internal_error_op traceback_text) manager_name]> (records dbk)))
                          (drop_task_of (br_id r) (task_queue dbk)),
                        push_notify (push_rejected lsk (task_id, "Internal server error"))
                          (br_id r) (Some error))).
  { unfold update_failed_task. rewrite Hint. reflexivity. }
  destruct Hcase as [[Hsucc Hnf]|[(err & -> & Hf)|[Hsucc Hc]]].
  - destruct res as [[|] err|[|] p]; try discriminate Hsucc.
    + exfalso. exact (Hnf err eq_refl).
    + cbn [negb result_success]. unfold update_failed_task at 1.
      destruct (failure_raises r {| error_type := "internal_fractal_error";
                                    error_message := unexpected_return_msg task_id (br_id r) |})
        eqn:Hf.
      * cbv beta iota; rewrite Hexc. exists "Internal server error", (internal_error_op traceback_text).
        split; [reflexivity|]. split; [right; reflexivity|reflexivity].
      * exists "Returned success=False, but not a FailedOperation",
          {| error_type := "internal_fractal_error";
             error_message := unexpected_return_msg task_id (br_id r) |}.
        split; [reflexivity|]. split; [left; reflexivity|reflexivity].
  - unfold update_failed_task at 1. rewrite Hf. cbv beta iota; rewrite Hexc.
    exists "Internal server error", (internal_error_op traceback_text).
    split; [reflexivity|]. split; [right; reflexivity|reflexivity].
  - destruct res as [[|] err|[|] p]; try discriminate Hsucc;
      cbn [negb result_success]; unfold update_completed_task; rewrite Hc; cbv beta iota; rewrite Hexc;
      exists "Internal server error", (internal_error_op traceback_text);
      (split; [reflexivity|]; split; [right; reflexivity|reflexivity]).
Qed.

Lemma update_finished_internal_error_isolated_witness :
  process_results (fun _ _ => false) (fun _ _ => false) (fun _ => false) false ""
    "mgr" ex_db_running empty_lists [] = inr (ex_db_running, empty_lists) /\
  lookup_task ex_db_running 10 = Some (ex_task 10 1 1 0, ex_record 1 running (Some "mgr")) /\
  br_status (ex_record 1 running (Some "mgr")) = running /\
  br_manager_name (ex_record 1 running (Some "mgr")) = Some "mgr" /\
  ((result_success (AtomicResult false 0) = false /\
    forall err, AtomicResult false 0 <> FailedOperation false err) \/
   (exists err, AtomicResult false 0 = FailedOperation false err /\
                (fun _ _ => false) (ex_record 1 running (Some "mgr")) err = true) \/
   (result_success (AtomicResult false 0) = true /\
    (fun _ _ => false) (ex_record 1 running (Some "mgr")) (AtomicResult false 0) = true)) /\
  (fun _ _ => false) (ex_record 1 running (Some "mgr")) (internal_error_op "") = false /\
  exists reason err,
    error_type err = "internal_fractal_error" /\
    (reason = "Returned success=False, but not a FailedOperation" \/
     reason = "Internal server error") /\
    process_results (fun _ _ => false) (fun _ _ => false) (fun _ => false) false ""
      "mgr" ex_db_running empty_lists ([] ++ [(10%nat, AtomicResult false 0)])
    = process_results (fun _ _ => false) (fun _ _ => false) (fun _ => false) false ""
        "mgr"
        (set_task_queue
           (set_records ex_db_running
              (<[br_id (ex_record 1 running (Some "mgr")) :=
                   failed_record (ex_record 1 running (Some "mgr")) err "mgr"]>
                 (records ex_db_running)))
           (drop_task_of (br_id (ex_record 1 running (Some "mgr"))) (task_queue ex_db_running)))
        (push_notify (push_rejected empty_lists (10%nat, reason))
           (br_id (ex_record 1 running (Some "mgr"))) (Some error)) [].
Proof.
  assert (Hl : lookup_task ex_db_running 10
               = Some (ex_task 10 1 1 0, ex_record 1 running (Some "mgr")))
    by (vm_compute; reflexivity).
  assert (Hc : (result_success (AtomicResult false 0) = false /\
                forall err, AtomicResult false 0 <> FailedOperation false err) \/
               (exists err, AtomicResult false 0 = FailedOperation false err /\
                  (fun _ _ => false) (ex_record 1 running (Some "mgr")) err = true) \/
               (result_success (AtomicResult false 0) = true /\
                  (fun _ _ => false) (ex_record 1 running (Some "mgr"))
                    (AtomicResult false 0) = true))
    by (left; split; [reflexivity|intros err H; discriminate H]).
  split; [reflexivity|]. split; [exact Hl|]. split; [reflexivity|]. split; [reflexivity|].
  split; [exact Hc|]. split; [reflexivity|].
  apply (update_finished_internal_error_isolated (fun _ _ => false) (fun _ _ => false)
           (fun _ => false) false "" "mgr" [] [] 10 (AtomicResult false 0)
           ex_db_running ex_db_running empty_lists (ex_task 10 1 1 0)
           (ex_record 1 running (Some "mgr")) eq_refl Hl eq_refl eq_refl Hc eq_refl).
Defined.

(** C1: when the [except] clause's own [update_failed_task] raises (here
    the failure handling of record 2 raises whatever the payload), the
    exception leaves the loop: for the batch of three results of which the
    second fails, [update_finished] raises and the session is rolled back,
    so the first and third results, which apply on their own, are lost
    together with the counters; run alone, the first result is accepted and
    its record completed. *)
Lemma update_finished_handler_raise_aborts_batch :
  let failure_raises := fun (r : BaseRecordORM) (_ : FailedOpError) => Nat.eqb (br_id r) 2 in
  let run := update_finished failure_raises (fun _ _ => false) (fun _ => false) false
               (fun _ d => d) "" "mgr" in
  run [(10%nat, AtomicResult true 0);
       (11%nat, FailedOperation false {| error_type := "RuntimeError"; error_message := "" |});
       (12%nat, AtomicResult true 0)] ex_db_running3
  = (ex_db_running3, inl InternalException) /\
  match run [(10%nat, AtomicResult true 0)] ex_db_running3 with
  | (db', inr (meta, _)) =>
      accepted_ids meta = [10%nat] /\ option_map br_status (records db' !! 1%nat) = Some complete
  | _ => False
  end.
Proof. vm_compute. split; [reflexivity|split; reflexivity]. Qed.

(** ** Manager counters and the returned metadata *)

(** C6: when [update_finished] returns normally, the results of the batch
    have a trace of outcomes (a success outcome is the completed record
    written, a recognized failure is the manager's [FailedOperation] written,
    a rejection carries its reason), and, when [records.reset] does not touch
    the managers table, the manager's counters grew by the number of success
    outcomes, of recognized-failure outcomes and of rejections; the metadata
    lists as accepted the ids of the successes followed by those of the
    failures, and as rejected each rejected id with its reason. *)
Theorem update_finished_counts_outcomes
    (failure_raises : BaseRecordORM -> FailedOpError -> bool)
    (completion_raises : BaseRecordORM -> AllResultTypes -> bool)
    (should_reset : BaseRecordORM -> bool) (auto_reset_enabled : bool)
    (records_reset : list nat -> DB -> DB) (traceback_text : string)
    (manager_name : string) (results : list (nat * AllResultTypes)) (db : DB)
    (m : ComputeManagerORM) :
  (forall ids d, compute_managers (records_reset ids d) = compute_managers d) ->
  compute_managers db !! manager_name = Some m ->
  match update_finished failure_raises completion_raises should_reset auto_reset_enabled
          records_reset traceback_text manager_name results db with
  | (db', inr (meta, _)) =>
      exists outs db1,
        batch_trace manager_name db results outs db1 /\
        let ids := map fst results in
        (exists m', compute_managers db' !! manager_name = Some m' /\
           cm_successes m' = (cm_successes m + length (ids_with is_success ids outs))%nat /\
           cm_failures m' = (cm_failures m + length (ids_with is_failure ids outs))%nat /\
           cm_rejected m' = (cm_rejected m + length (rejections ids outs))%nat) /\
        accepted_ids meta = ids_with is_success ids outs ++ ids_with is_failure ids outs /\
        rejected_info meta = rejections ids outs
  | (_, inl _) => True
  end.
Proof.
  intros Hreset Hm. unfold update_finished. rewrite Hm.
  case_bool_decide; [exact I|].
  destruct (process_results _ _ _ _ _ _ _ _ _) as [e|[db1 ls]] eqn:Hp; [exact I|].
  destruct (process_results_trace _ _ _ _ _ _ _ _ _ _ _ Hp)
    as (outs & Htr & Hs & Hf & Hr & _ & _).
  cbn [tasks_success tasks_failures tasks_rejected empty_lists app] in Hs, Hf, Hr.
  exists outs, db1. split; [exact Htr|]. cbn zeta.
  split; [|cbn; rewrite Hs, Hf, Hr; split; reflexivity].
  eexists. split.
  - destruct (auto_reset_enabled && _); [rewrite Hreset|]; cbn; apply lookup_insert_eq.
  - cbn. rewrite Hs, Hf, Hr. auto.
Qed.

Lemma update_finished_counts_outcomes_witness :
  (forall ids d, compute_managers ((fun (_ : list nat) (d : DB) => d) ids d)
                 = compute_managers d) /\
  compute_managers ex_db_running !! "mgr" = Some ex_manager /\
  match update_finished (fun _ _ => false) (fun _ _ => false) (fun _ => false) false
          (fun _ d => d) "" "mgr" [(10%nat, AtomicResult true 0); (99%nat, AtomicResult true 0)]
          ex_db_running with
  | (db', inr (meta, _)) =>
      exists outs db1,
        batch_trace "mgr" ex_db_running
          [(10%nat, AtomicResult true 0); (99%nat, AtomicResult true 0)] outs db1 /\
        let ids := map fst [(10%nat, AtomicResult true 0); (99%nat, AtomicResult true 0)] in
        (exists m', compute_managers db' !! "mgr" = Some m' /\
           cm_successes m' = (cm_successes ex_manager + length (ids_with is_success ids outs))%nat /\
           cm_failures m' = (cm_failures ex_manager + length (ids_with is_failure ids outs))%nat /\
           cm_rejected m' = (cm_rejected ex_manager + length (rejections ids outs))%nat) /\
        accepted_ids meta = ids_with is_success ids outs ++ ids_with is_failure ids outs /\
        rejected_info meta = rejections ids outs
  | (_, inl _) => True
  end.
Proof.
  split; [intros; reflexivity|]. split; [reflexivity|].
  apply (update_finished_counts_outcomes (fun _ _ => false) (fun _ _ => false)
           (fun _ => false) false (fun _ d => d) "" "mgr"
           [(10%nat, AtomicResult true 0); (99%nat, AtomicResult true 0)]
           ex_db_running ex_manager); [intros; reflexivity|reflexivity].
Defined.

(** ** The reset policy in [update_finished] *)

Lemma try_body_reset_ext failure_raises completion_raises sr1 sr2 en manager_name db ls
    task_id r res :
  (en = true -> forall r' err, sr1 (failed_record r' err manager_name)
                               = sr2 (failed_record r' err manager_name)) ->
  try_body failure_raises completion_raises sr1 en manager_name db ls task_id r res
  = try_body failure_raises completion_raises sr2 en manager_name db ls task_id r res.
Proof.
  intros H. unfold try_body.
  destruct (bool_decide _); [reflexivity|]. destruct (bool_decide _); [reflexivity|].
  destruct res as [[|] err|[|] p]; try reflexivity.
  destruct (update_failed_task _ _ _ _ _); [|reflexivity].
  destruct en; [rewrite H by reflexivity|]; reflexivity.
Qed.

Lemma process_results_reset_ext failure_raises completion_raises sr1 sr2 en traceback_text
    manager_name results :
  (en = true -> forall r' err, sr1 (failed_record r' err manager_name)
                               = sr2 (failed_record r' err manager_name)) ->
  forall db ls,
  process_results failure_raises completion_raises sr1 en traceback_text manager_name db ls results
  = process_results failure_raises completion_raises sr2 en traceback_text manager_name db ls results.
Proof.
  intros H. induction results as [|[task_id res] rest IH]; intros db ls; [reflexivity|].
  cbn [process_results]. unfold process_result.
  destruct (lookup_task db task_id) as [[t r]|]; [|apply IH].
  rewrite (try_body_reset_ext _ _ sr1 sr2 _ _ _ _ _ _ _ H).
  destruct (try_body _ _ _ _ _ _ _ _ _ _); [apply IH|].
  destruct (update_failed_task _ _ _ _ _); [apply IH|reflexivity].
Qed.

Lemma reset_candidates_disabled sr manager_name outs :
  reset_candidates sr false manager_name outs = [].
Proof. induction outs as [|[] outs IH]; cbn; auto. Qed.

(** C7: (1) with auto-reset disabled, [update_finished] does not depend on
    the reset policy nor on [records.reset] at all; (2) with it enabled, the
    policy is only consulted on a record as a recognized failure has just
    left it (two policies agreeing there give the same result); (3) when
    the call returns normally, the resets are applied once, after the whole
    batch has been processed (to the records and tasks as the loop left
    them), on exactly the records for which, in the order of the batch, a
    recognized failure was applied and the policy (with auto-reset enabled)
    recommended a reset; nothing is reset when that list is empty. *)
Theorem update_finished_batched_reset
    (failure_raises : BaseRecordORM -> FailedOpError -> bool)
    (completion_raises : BaseRecordORM -> AllResultTypes -> bool)
    (traceback_text : string) (manager_name : string)
    (results : list (nat * AllResultTypes)) (db : DB) :
  (forall sr1 sr2 rr1 rr2,
     update_finished failure_raises completion_raises sr1 false rr1 traceback_text
       manager_name results db
     = update_finished failure_raises completion_raises sr2 false rr2 traceback_text
         manager_name results db) /\
  (forall en sr1 sr2 rr,
     (forall r err, sr1 (failed_record r err manager_name)
                    = sr2 (failed_record r err manager_name)) ->
     update_finished failure_raises completion_raises sr1 en rr traceback_text
       manager_name results db
     = update_finished failure_raises completion_raises sr2 en rr traceback_text
         manager_name results db) /\
  (forall en sr rr,
     match update_finished failure_raises completion_raises sr en rr traceback_text
             manager_name results db with
     | (db', inr _) =>
         exists outs db1 db2,
           batch_trace manager_name db results outs db1 /\
           records db2 = records db1 /\ task_queue db2 = task_queue db1 /\
           let ids := reset_candidates sr en manager_name outs in
           db' = if bool_decide (ids = []) then db2 else rr ids db2
     | (_, inl _) => True
     end).
Proof.
  split; [|split].
  - intros sr1 sr2 rr1 rr2. unfold update_finished.
    rewrite (process_results_reset_ext _ _ sr1 sr2 false) by discriminate.
    destruct (compute_managers db !! manager_name); [|reflexivity].
    destruct (bool_decide _); [reflexivity|].
    destruct (process_results _ _ _ _ _ _ _ _ _) as [e|[db1 ls]]; reflexivity.
  - intros en sr1 sr2 rr H. unfold update_finished.
    rewrite (process_results_reset_ext _ _ sr1 sr2 en) by (intros; apply H).
    reflexivity.
  - intros en sr rr. unfold update_finished.
    destruct (compute_managers db !! manager_name) as [m|]; [|exact I].
    case_bool_decide; [exact I|].
    destruct (process_results _ _ _ _ _ _ _ _ _) as [e|[db1 ls]] eqn:Hp; [exact I|].
    destruct (process_results_trace _ _ _ _ _ _ _ _ _ _ _ Hp)
      as (outs & Htr & _ & _ & _ & Hb & _).
    cbn [to_be_reset empty_lists app] in Hb. rewrite Hb.
    exists outs, db1,
      (set_compute_managers db1
         (<[manager_name := add_counts (length (tasks_success ls)) (length (tasks_failures ls))
                              (length (tasks_rejected ls)) m]> (compute_managers db1))).
    split; [exact Htr|]. split; [reflexivity|]. split; [reflexivity|].
    cbn zeta. destruct en.
    + cbn [andb]. destruct (bool_decide (reset_candidates sr true manager_name outs = []));
        reflexivity.
    + rewrite reset_candidates_disabled. reflexivity.
Qed.

Lemma update_finished_batched_reset_witness :
  (forall r err, (fun _ => true) (failed_record r err "mgr")
                 = (fun r' => bool_decide (br_status r' = error)) (failed_record r err "mgr")) /\
  update_finished (fun _ _ => false) (fun _ _ => false) (fun _ => true) true (fun _ d => d) ""
    "mgr" [(10%nat, FailedOperation false {| error_type := "e"; error_message := "m" |})]
    ex_db_running
  = update_finished (fun _ _ => false) (fun _ _ => false)
      (fun r' => bool_decide (br_status r' = error)) true (fun _ d => d) ""
      "mgr" [(10%nat, FailedOperation false {| error_type := "e"; error_message := "m" |})]
      ex_db_running.
Proof.
  assert (Hag : forall r err, (fun _ => true) (failed_record r err "mgr")
                 = (fun r' => bool_decide (br_status r' = error)) (failed_record r err "mgr"))
    by (intros; reflexivity).
  split; [exact Hag|].
  apply (proj1 (proj2 (update_finished_batched_reset (fun _ _ => false) (fun _ _ => false) ""
           "mgr" [(10%nat, FailedOperation false {| error_type := "e"; error_message := "m" |})]
           ex_db_running)) true (fun _ => true) (fun r' => bool_decide (br_status r' = error))
           (fun _ d => d) Hag).
Defined.

(** ** Torsiondrive services *)

Section TorsiondriveProofs.

Variable TDState Geometry Energy : Type.
Context `{EqDecision Energy}.
Variable energy_lt : Energy -> Energy -> bool.
Variable td_update_state : TDState -> gmap string (list (Geometry * Geometry * Energy)) -> TDState.
Variable td_next_jobs_from_state : TDState -> list (string * list Geometry).
Variable td_collect_lowest_energies : TDState -> list (list Z * option Energy).
Variable td_grid_id_from_string : string -> list Z.
Variable td_printed : TDState -> string.
Variable serialize_key : list Z -> string.
Variable Store OptSpec Molecule : Type.
Variable optimization_add :
  Store -> list Molecule -> OptSpec -> string -> nat -> bool -> Store * (bool * list nat).
Variable constrained_spec : string -> list Z -> option OptSpec.
Variable make_molecule : string -> Geometry -> Molecule.
Variable dependency_result : Store -> nat -> option (Geometry * Geometry * Energy).
Variable optimization_energy : Store -> nat -> option Energy.

Let submit_loop' :=
  submit_loop TDState Geometry td_grid_id_from_string serialize_key Store OptSpec Molecule
    optimization_add constrained_spec make_molecule.
Let submit_optimizations' :=
  submit_optimizations TDState Geometry td_grid_id_from_string serialize_key Store OptSpec
    Molecule optimization_add constrained_spec make_molecule.

Lemma submit_loop_dependencies st next_tasks :
  (forall s mols spec tag prio fe,
     length (snd (snd (optimization_add s mols spec tag prio fe))) = length mols) ->
  forall w w', submit_loop' st w next_tasks = inr w' ->
  exists idss,
    Forall2 (fun kg ids => length ids = length (snd kg)) next_tasks idss /\
    dependencies (service w') = dependencies (service w) ++ batch_dependencies next_tasks idss.
Proof.
  intros Hadd. unfold submit_loop'.
  induction next_tasks as [|[key geoms] rest IH]; intros w w' H.
  - injection H as <-. exists []. split; [constructor|]. cbn. rewrite app_nil_r. reflexivity.
  - cbn [submit_loop] in H.
    destruct (constrained_spec _ _) as [spec|]; [|discriminate].
    destruct (optimization_add _ _ _ _ _ _) as [s' [success ids]] eqn:Ha.
    destruct success; cbn [negb] in H; [|discriminate].
    destruct (IH _ _ H) as (idss & Hf & Hd).
    exists (ids :: idss). split.
    + constructor; [|exact Hf]. cbn [snd].
      pose proof (Hadd (store w) (map (make_molecule (molecule_template st)) geoms)
                    spec (compute_tag (service w)) (compute_priority (service w))
                    (find_existing (service w))) as Hl.
      rewrite Ha in Hl. cbn in Hl. rewrite Hl, length_map. reflexivity.
    + rewrite Hd. cbn. rewrite <- app_assoc. reflexivity.
Qed.

Lemma batch_dependencies_length (next_tasks : list (string * list Geometry)) (idss : list (list nat)) :
  Forall2 (fun kg ids => length ids = length (snd kg)) next_tasks idss ->
  length (batch_dependencies next_tasks idss) = sum_list_with (fun kg => length (snd kg)) next_tasks.
Proof.
  unfold batch_dependencies.
  induction 1 as [|kg ids next_tasks idss Hl _ IH]; [reflexivity|].
  cbn. rewrite length_app, IH. unfold key_dependencies. rewrite length_imap, Hl. reflexivity.
Qed.

Let prepare_iteration' :=
  prepare_iteration TDState Geometry Energy td_update_state td_next_jobs_from_state Store
    dependency_result.
Let iterate_service' :=
  iterate_service TDState Geometry Energy energy_lt td_update_state td_next_jobs_from_state
    td_collect_lowest_energies td_grid_id_from_string td_printed serialize_key Store OptSpec
    Molecule optimization_add constrained_spec make_molecule dependency_result
    optimization_energy.
Let serialized_lowest_energies' :=
  serialized_lowest_energies TDState Energy td_collect_lowest_energies serialize_key.
Let min_energies' := min_energies Energy energy_lt Store optimization_energy.

(** C8: when [records.optimization.add] returns one id per molecule, an
    iteration whose driver produces a non-empty batch of next jobs and that
    goes through leaves as dependencies of the service exactly the new ones:
    for each key of the batch, one dependency per returned id, carrying that
    key and the id's position; nothing of the dependencies before the
    iteration remains, and there are as many as geometries in the batch. *)
Theorem iterate_service_replaces_dependencies w td st' next_tasks :
  (forall s mols spec tag prio fe,
     length (snd (snd (optimization_add s mols spec tag prio fe))) = length mols) ->
  prepare_iteration' w = inr (td, st', next_tasks) ->
  next_tasks <> [] ->
  match iterate_service' w with
  | (w', inr done) =>
      done = false /\
      exists idss,
        Forall2 (fun kg ids => length ids = length (snd kg)) next_tasks idss /\
        dependencies (service w') = batch_dependencies next_tasks idss /\
        length (dependencies (service w')) = sum_list_with (fun kg => length (snd kg)) next_tasks
  | (_, inl _) => True
  end.
Proof.
  intros Hadd Hp Hne. unfold iterate_service', iterate_service.
  unfold prepare_iteration' in Hp. rewrite Hp. cbv zeta.
  rewrite bool_decide_eq_true_2
    by (destruct next_tasks; [congruence|cbn; lia]).
  destruct (submit_optimizations _ _ _ _ _ _ _ _ _ _ _ _ _) as [e|w2] eqn:Hs; [exact I|].
  split; [apply bool_decide_eq_false_2; destruct next_tasks; [congruence|discriminate]|].
  unfold submit_optimizations in Hs.
  destruct (submit_loop_dependencies _ _ Hadd _ _ Hs) as (idss & Hf & Hd).
  exists idss. cbn [service set_service_state dependencies set_dependencies] in Hd |- *.
  rewrite Hd. split; [exact Hf|]. split; [reflexivity|].
  apply batch_dependencies_length, Hf.
Qed.

(** C9: an iteration that goes through returns [done = true] exactly when
    the driver's next batch is empty; then the driver's lowest energies
    matched the minimum energies of the record's optimizations, nothing was
    submitted, and the driver's output is appended to the record's stdout;
    when the batch is non-empty, it was submitted and [done] is false.  An
    iteration that raises leaves everything as it was; with an empty batch
    and energies that do not match, the iteration raises. *)
Theorem iterate_service_done_iff_no_jobs w :
  (match iterate_service' w with
   | (w', inr done) =>
       exists td st' next_tasks,
         prepare_iteration' w = inr (td, st', next_tasks) /\
         service_state (service w') = st' /\
         (done = true <-> next_tasks = []) /\
         (next_tasks = [] ->
            serialized_lowest_energies' (torsiondrive_state st')
              = min_energies' (store w) (td_optimizations td) /\
            store w' = store w /\
            td_record w' = append_stdout td
                             (String (Ascii.ascii_of_nat 10) (td_printed (torsiondrive_state st')))) /\
         (next_tasks <> [] ->
            exists w2,
              submit_optimizations TDState Geometry td_grid_id_from_string serialize_key Store
                OptSpec Molecule optimization_add constrained_spec make_molecule st'
                {| store := store w; service := service w; td_record := td |} next_tasks
              = inr w2 /\
              store w' = store w2 /\
              td_record w' = append_stdout (td_record w2)
                               (String (Ascii.ascii_of_nat 10) (td_printed (torsiondrive_state st'))))
   | (w', inl _) => w' = w
   end) /\
  (forall td st',
     prepare_iteration' w = inr (td, st', []) ->
     serialized_lowest_energies' (torsiondrive_state st')
       <> min_energies' (store w) (td_optimizations td) ->
     iterate_service' w
     = (w, inl (RuntimeError
                  "Minimum energies reported by the torsiondrive package do not match ours!"))).
Proof.
  split.
  - unfold iterate_service', iterate_service.
    destruct (prepare_iteration _ _ _ _ _ _ _ w) as [e|[[td st'] next_tasks]] eqn:Hp;
      [reflexivity|].
    cbv zeta.
    destruct next_tasks as [|kg rest] eqn:Hn.
    + rewrite bool_decide_eq_false_2 by (cbn; lia).
      case_bool_decide as Heq; [reflexivity|].
      exists td, st', []. split; [exact Hp|]. split; [reflexivity|].
      split; [split; reflexivity|].
      split; [intros _; split; [exact Heq|split; reflexivity]|].
      intros H; congruence.
    + rewrite bool_decide_eq_true_2 by (cbn; lia).
      destruct (submit_optimizations _ _ _ _ _ _ _ _ _ _ _ _ _) as [e|w2] eqn:Hs;
        [reflexivity|].
      exists td, st', (kg :: rest). split; [exact Hp|]. split; [reflexivity|].
      split; [split; [discriminate|discriminate]|].
      split; [discriminate|].
      intros _. exists w2. split; [exact Hs|split; reflexivity].
  - intros td st' Hp Hne. unfold iterate_service', iterate_service.
    unfold prepare_iteration' in Hp. rewrite Hp. cbv zeta.
    rewrite bool_decide_eq_false_2 by (cbn; lia).
    rewrite bool_decide_eq_true_2 by exact Hne.
    reflexivity.
Qed.

End TorsiondriveProofs.

Lemma iterate_service_replaces_dependencies_witness :
  (forall s mols spec tag prio fe,
     length (snd (snd (ex_optimization_add s mols spec tag prio fe))) = length mols) /\
  prepare_iteration nat nat nat (fun s _ => s) ex_td_next_jobs nat
    (fun _ _ => Some (0%nat, 0%nat, 0%nat)) (ex_td_world 1)
  = inr (ex_td_after, ex_td_state 1, ex_td_next_jobs 1) /\
  ex_td_next_jobs 1 <> [] /\
  match iterate_service nat nat nat Nat.ltb (fun s _ => s) ex_td_next_jobs ex_td_lowest
          (fun _ => [0]) (fun _ => "out") (fun _ => "[0]") nat unit nat ex_optimization_add
          (fun _ _ => Some tt) (fun _ g => g) (fun _ _ => Some (0%nat, 0%nat, 0%nat))
          (fun _ _ => Some 7%nat) (ex_td_world 1) with
  | (w', inr done) =>
      done = false /\
      exists idss,
        Forall2 (fun kg ids => length ids = length (snd kg)) (ex_td_next_jobs 1) idss /\
        dependencies (service w') = batch_dependencies (ex_td_next_jobs 1) idss /\
        length (dependencies (service w'))
        = sum_list_with (fun kg => length (snd kg)) (ex_td_next_jobs 1)
  | (_, inl _) => True
  end.
Proof.
  assert (Hadd : forall s mols spec tag prio fe,
            length (snd (snd (ex_optimization_add s mols spec tag prio fe))) = length mols)
    by (intros; reflexivity).
  assert (Hp : prepare_iteration nat nat nat (fun s _ => s) ex_td_next_jobs nat
                 (fun _ _ => Some (0%nat, 0%nat, 0%nat)) (ex_td_world 1)
               = inr (ex_td_after, ex_td_state 1, ex_td_next_jobs 1))
    by (vm_compute; reflexivity).
  assert (Hne : ex_td_next_jobs 1 <> []) by (vm_compute; discriminate).
  split; [exact Hadd|]. split; [exact Hp|]. split; [exact Hne|].
  exact (iterate_service_replaces_dependencies nat nat nat Nat.ltb (fun s _ => s)
           ex_td_next_jobs ex_td_lowest (fun _ => [0]) (fun _ => "out") (fun _ => "[0]")
           nat unit nat ex_optimization_add (fun _ _ => Some tt) (fun _ g => g)
           (fun _ _ => Some (0%nat, 0%nat, 0%nat)) (fun _ _ => Some 7%nat)
           (ex_td_world 1) ex_td_after (ex_td_state 1) (ex_td_next_jobs 1) Hadd Hp Hne).
Defined.

Lemma iterate_service_done_iff_no_jobs_witness :
  prepare_iteration nat nat nat (fun s _ => s) ex_td_next_jobs nat
    (fun _ _ => Some (0%nat, 0%nat, 0%nat)) (ex_td_world 0)
  = inr (ex_td_after, ex_td_state 0, []) /\
  serialized_lowest_energies nat nat ex_td_lowest (fun _ => "[0]")
    (torsiondrive_state (ex_td_state 0))
  <> min_energies nat Nat.ltb nat (fun _ _ => Some 7%nat) (store (ex_td_world 0))
       (td_optimizations ex_td_after) /\
  iterate_service nat nat nat Nat.ltb (fun s _ => s) ex_td_next_jobs ex_td_lowest
    (fun _ => [0]) (fun _ => "out") (fun _ => "[0]") nat unit nat ex_optimization_add
    (fun _ _ => Some tt) (fun _ g => g) (fun _ _ => Some (0%nat, 0%nat, 0%nat))
    (fun _ _ => Some 7%nat) (ex_td_world 0)
  = (ex_td_world 0,
     inl (RuntimeError "Minimum energies reported by the torsiondrive package do not match ours!")).
Proof.
  assert (Hp : prepare_iteration nat nat nat (fun s _ => s) ex_td_next_jobs nat
                 (fun _ _ => Some (0%nat, 0%nat, 0%nat)) (ex_td_world 0)
               = inr (ex_td_after, ex_td_state 0, []))
    by (vm_compute; reflexivity).
  assert (Hne : serialized_lowest_energies nat nat ex_td_lowest (fun _ => "[0]")
                  (torsiondrive_state (ex_td_state 0))
                <> min_energies nat Nat.ltb nat (fun _ _ => Some 7%nat) (store (ex_td_world 0))
                     (td_optimizations ex_td_after))
    by (intros H; apply (f_equal (lookup "[0]")) in H; vm_compute in H; discriminate H).
  split; [exact Hp|]. split; [exact Hne|].
  exact (proj2 (iterate_service_done_iff_no_jobs nat nat nat Nat.ltb (fun s _ => s)
           ex_td_next_jobs ex_td_lowest (fun _ => [0]) (fun _ => "out") (fun _ => "[0]")
           nat unit nat ex_optimization_add (fun _ _ => Some tt) (fun _ g => g)
           (fun _ _ => Some (0%nat, 0%nat, 0%nat)) (fun _ _ => Some 7%nat) (ex_td_world 0))
           ex_td_after (ex_td_state 0) Hp Hne).
Defined.

(** ** Further properties of the task socket *)

Lemma nodup_map_filter {A} (f : A -> nat) (p : A -> bool) (l : list A) :
  NoDup (map f l) -> NoDup (map f (List.filter p l)).
Proof.
  induction l as [|a l IH]; simpl; [auto|]. rewrite NoDup_cons. intros [Hn Hd].
  destruct (p a); simpl; [|auto]. rewrite NoDup_cons. split; [|auto].
  intros Hin. apply Hn. rewrite list_elem_of_In in *.
  apply in_map_iff in Hin as [y [Hy Hy']]. apply filter_In in Hy' as [Hy' _].
  apply in_map_iff. eauto.
Qed.

Lemma in_firstn_in {A} (n : nat) (l : list A) y : In y (firstn n l) -> In y l.
Proof.
  revert l. induction n as [|n IH]; intros [|a l]; simpl; try tauto.
  intros [->|H]; [left; reflexivity|right; apply IH, H].
Qed.

Lemma nodup_map_firstn {A} (f : A -> nat) (n : nat) (l : list A) :
  NoDup (map f l) -> NoDup (map f (firstn n l)).
Proof.
  revert l. induction n as [|n IH]; intros [|a l]; simpl; intros H;
    try solve [constructor].
  revert H. rewrite !NoDup_cons. intros [Hn Hd]. split; [|auto].
  intros Hin. apply Hn. rewrite list_elem_of_In in *.
  apply in_map_iff in Hin as [y [Hy Hy']]. apply in_firstn_in in Hy'.
  apply in_map_iff. eauto.
Qed.

Lemma queue_ids_nodup (tq : gmap nat TaskQueueORM) :
  map_Forall (fun k t => tq_id t = k) tq -> NoDup (map tq_id (map snd (map_to_list tq))).
Proof.
  intros Hk. rewrite map_map.
  replace (map (fun x => tq_id (snd x)) (map_to_list tq)) with (map fst (map_to_list tq)).
  - exact (NoDup_fst_map_to_list tq).
  - apply map_ext_in. intros [k t] Hin. simpl.
    apply list_elem_of_In, elem_of_map_to_list in Hin.
    symmetry. exact (map_Forall_lookup_1 _ _ _ _ Hk Hin).
Qed.

Lemma select_claimable_nodup db locked progs tag n :
  tasks_keyed db -> NoDup (map tq_id (select_claimable db locked progs tag n)).
Proof.
  intros Hk. unfold select_claimable.
  apply nodup_map_firstn, nodup_map_filter.
  eapply NoDup_Permutation_proper.
  - apply Permutation_map, sort_by_claim_order_perm.
  - apply nodup_map_filter, queue_ids_nodup, Hk.
Qed.

Section ClaimExtras.

Variable make_task_spec : TaskQueueORM -> string.
Variable manager_name : string.
Variable now : nat.
Variable locked : gset nat.
Variable manager_programs : list string.

Lemma claim_loop_nodup db0 limit : forall tags db found,
  claim_inv make_task_spec manager_name now db0 db found ->
  NoDup (map tq_id found) ->
  NoDup (map tq_id (snd (claim_loop make_task_spec manager_name now locked manager_programs
                           limit tags db found))).
Proof.
  induction tags as [|tag tags IH]; intros db found Hinv Hnd; cbn [claim_loop]; [exact Hnd|].
  destruct (limit - Z.of_nat (length found) <=? 0); [exact Hnd|].
  set (n := limit - Z.of_nat (length found)).
  set (items := select_claimable db locked manager_programs tag n).
  destruct (claim_step make_task_spec manager_name now locked manager_programs
              db0 db found tag n Hinv) as [Hinv' _].
  fold items in Hinv'.
  destruct (claim_rows make_task_spec manager_name now db items) as [db1 items'] eqn:Ec.
  assert (Hi : items' = map (fun t => with_spec t (make_task_spec t)) items)
    by (change items' with (snd (db1, items')); rewrite <- Ec; reflexivity).
  assert (Hd : db1 = fst (claim_rows make_task_spec manager_name now db items))
    by (rewrite Ec; reflexivity).
  subst items' db1. apply IH; [exact Hinv'|].
  destruct Hinv as [_ [_ [I3 I4]]].
  rewrite map_app, NoDup_app. split; [exact Hnd|]. split.
  - intros k Hk1 Hk2. rewrite map_map in Hk2. cbn [tq_id with_spec] in Hk2.
    apply in_map_key in Hk1 as [t [-> Ht]].
    apply in_map_key in Hk2 as [s [Hts Hs]].
    destruct (I3 t Ht) as [t0 [r0 [_ [Et [_ [_ [Hrc Hq]]]]]]].
    destruct (selected_facts locked manager_programs db tag n s I4 Hs)
      as [Hqs [r [Hr [Hw _]]]].
    rewrite <- Hts, Hq in Hqs. injection Hqs as <-.
    rewrite Et in Hr. cbn [tq_record_id with_spec] in Hr. rewrite Hrc in Hr.
    injection Hr as <-. discriminate Hw.
  - rewrite map_map. cbn [tq_id with_spec].
    apply select_claimable_nodup, I4.
Qed.

Lemma claim_loop_managers limit : forall tags db found,
  compute_managers (fst (claim_loop make_task_spec manager_name now locked manager_programs
                           limit tags db found)) = compute_managers db.
Proof.
  induction tags as [|tag tags IH]; intros db found; cbn [claim_loop]; [reflexivity|].
  destruct (limit - Z.of_nat (length found) <=? 0); [reflexivity|].
  destruct (claim_rows make_task_spec manager_name now db _) as [db1 items'] eqn:Ec.
  rewrite IH. change db1 with (fst (db1, items')). rewrite <- Ec. reflexivity.
Qed.

End ClaimExtras.

Lemma trace_partition manager_name db results outs db' :
  batch_trace manager_name db results outs db' ->
  Permutation (ids_with is_success (map fst results) outs ++
               ids_with is_failure (map fst results) outs ++
               map fst (rejections (map fst results) outs))
              (map fst results).
Proof.
  induction 1 as [|db db1 db2 task_id res rest o os _ _ IH]; [reflexivity|].
  destruct o; cbn [map fst ids_with rejections is_success is_failure app].
  - constructor. exact IH.
  - rewrite <- Permutation_middle. constructor. exact IH.
  - rewrite app_assoc, <- Permutation_middle, <- app_assoc. constructor. exact IH.
Qed.

Lemma add_counts_zero m : add_counts 0 0 0 m = m.
Proof. destruct m. unfold add_counts. cbn. rewrite !Nat.add_0_r. reflexivity. Qed.

Lemma set_compute_managers_same db : set_compute_managers db (compute_managers db) = db.
Proof. destruct db. reflexivity. Qed.

(** X1: [claim_tasks] never hands out the same task twice: the ids of the
    tasks it returns are pairwise distinct (across all the manager's tags). *)
Theorem claim_tasks_no_duplicate_tasks make_task_spec tasks_claim_limit now locked
    manager_name limit db :
  tasks_keyed db ->
  match snd (claim_tasks make_task_spec tasks_claim_limit now locked manager_name limit db) with
  | inr found => NoDup (map tq_id found)
  | inl _ => True
  end.
Proof.
  intros Hk. unfold claim_tasks.
  destruct (compute_managers db !! manager_name) as [m|]; [|exact I].
  case_bool_decide; [exact I|].
  destruct (claim_loop make_task_spec manager_name now locked (cm_programs m) _ (cm_tags m) db [])
    as [db' found] eqn:E.
  cbn [snd]. change found with (snd (db', found)). rewrite <- E.
  apply (claim_loop_nodup make_task_spec manager_name now locked (cm_programs m) db).
  - apply claim_inv_init, Hk.
  - constructor.
Qed.

Lemma claim_tasks_no_duplicate_tasks_witness :
  tasks_keyed ex_db /\
  match snd (claim_tasks (fun _ => "spec") 200 5 ∅ "mgr" None ex_db) with
  | inr found => NoDup (map tq_id found)
  | inl _ => True
  end.
Proof.
  assert (Hk : tasks_keyed ex_db) by (apply (bool_decide_unpack _); vm_compute; reflexivity).
  split; [exact Hk|].
  exact (claim_tasks_no_duplicate_tasks (fun _ => "spec") 200 5 ∅ "mgr" None ex_db Hk).
Defined.

(** X2: a successful [claim_tasks] comes from an existing, active manager
    and adds the number of returned tasks to that manager's [claimed]
    counter, changing no other manager; a refused claim (unknown or inactive
    manager) leaves the database unchanged. *)
Theorem claim_tasks_counts_claimed make_task_spec tasks_claim_limit now locked
    manager_name limit db :
  match claim_tasks make_task_spec tasks_claim_limit now locked manager_name limit db with
  | (db', inr found) =>
      exists m, compute_managers db !! manager_name = Some m /\ cm_status m = active /\
      compute_managers db' = <[manager_name := add_claimed (length found) m]> (compute_managers db)
  | (db', inl _) => db' = db
  end.
Proof.
  unfold claim_tasks. destruct (compute_managers db !! manager_name) as [m|] eqn:Hm; [|reflexivity].
  case_bool_decide as Ha; [reflexivity|].
  destruct (claim_loop make_task_spec manager_name now locked (cm_programs m) _ (cm_tags m) db [])
    as [db' found] eqn:E.
  cbn. exists m. split; [reflexivity|]. split; [destruct (decide (cm_status m = active)) as [Hy|Hn]; [exact Hy|contradiction]|].
  f_equal. change db' with (fst (db', found)). rewrite <- E.
  apply claim_loop_managers.
Qed.

(** X3: when [update_finished] returns, every submitted task id is answered
    exactly once: [accepted_ids] followed by the ids of [rejected_info] is a
    permutation of the submitted ids. *)
Theorem update_finished_answers_each_result failure_raises completion_raises should_reset
    auto_reset_enabled records_reset traceback_text manager_name results db :
  match snd (update_finished failure_raises completion_raises should_reset auto_reset_enabled
               records_reset traceback_text manager_name results db) with
  | inr (meta, _) =>
      Permutation (accepted_ids meta ++ map fst (rejected_info meta)) (map fst results)
  | inl _ => True
  end.
Proof.
  unfold update_finished.
  destruct (compute_managers db !! manager_name) as [m|]; [|exact I].
  case_bool_decide; [exact I|].
  destruct (process_results failure_raises completion_raises should_reset auto_reset_enabled
              traceback_text manager_name db empty_lists results) as [e|[db1 ls]] eqn:E;
    [exact I|].
  apply process_results_trace in E as [outs [Ht [HS [HF [HR _]]]]].
  cbn [snd accepted_ids rejected_info]. rewrite HS, HF, HR. cbn [empty_lists tasks_success
    tasks_failures tasks_rejected app]. rewrite <- app_assoc.
  exact (trace_partition _ _ _ _ _ Ht).
Qed.

(** X4: an empty batch from an active manager changes nothing: the database
    is returned as it was, with empty metadata and no notifications. *)
Theorem update_finished_empty_batch failure_raises completion_raises should_reset
    auto_reset_enabled records_reset traceback_text manager_name db m :
  compute_managers db !! manager_name = Some m -> cm_status m = active ->
  update_finished failure_raises completion_raises should_reset auto_reset_enabled
    records_reset traceback_text manager_name [] db
  = (db, inr ({| rejected_info := []; accepted_ids := [] |}, [])).
Proof.
  intros Hm Ha. unfold update_finished. rewrite Hm.
  rewrite bool_decide_eq_false_2 by (rewrite Ha; congruence).
  cbn. rewrite add_counts_zero, andb_false_r, insert_id by exact Hm.
  rewrite set_compute_managers_same. reflexivity.
Qed.

Lemma update_finished_empty_batch_witness :
  compute_managers ex_db_running !! "mgr" = Some ex_manager /\ cm_status ex_manager = active /\
  update_finished (fun _ _ => false) (fun _ _ => false) (fun _ => true) true
    (fun _ d => d) "" "mgr" [] ex_db_running
  = (ex_db_running, inr ({| rejected_info := []; accepted_ids := [] |}, [])).
Proof.
  assert (Hm : compute_managers ex_db_running !! "mgr" = Some ex_manager) by reflexivity.
  assert (Ha : cm_status ex_manager = active) by reflexivity.
  split; [exact Hm|]. split; [exact Ha|].
  exact (update_finished_empty_batch (fun _ _ => false) (fun _ _ => false) (fun _ => true) true
           (fun _ d => d) "" "mgr" ex_db_running ex_manager Hm Ha).
Defined.

(** ** Properties of migration 12e2ba353ee6 *)

Lemma upgrade_available_rows recs tq k :
  set_available_from_records recs (add_available_column tq) !! k =
  (fun r => (r, (fun br => bool_decide (br_status br = waiting)) <$> recs !! tq0_record_id r))
    <$> tq !! k.
Proof.
  unfold set_available_from_records, add_available_column. rewrite !lookup_fmap.
  destruct (tq !! k) as [r|]; [|reflexivity]. cbn.
  destruct (recs !! tq0_record_id r); reflexivity.
Qed.

(** X5: the upgrade succeeds exactly when every task row has its record in
    [base_record]; a row without one keeps its NULL and makes
    [nullable=False] fail. *)
Theorem upgrade_available_succeeds_iff recs tq :
  is_Some (upgrade_available recs tq) <->
  map_Forall (fun _ r => is_Some (recs !! tq0_record_id r)) tq.
Proof.
  unfold upgrade_available, set_available_not_null.
  case_bool_decide as H.
  - split; [intros _|intros _; eexists; reflexivity].
    intros k r Hk.
    pose proof (H k (r, (fun br => bool_decide (br_status br = waiting)) <$> recs !! tq0_record_id r))
      as H'.
    rewrite upgrade_available_rows, Hk in H'. cbn in H'.
    destruct (H' eq_refl) as [x Hx]. destruct (recs !! tq0_record_id r); [eexists; reflexivity|].
    discriminate.
  - split; [intros [x Hx]; discriminate|]. intros Hall. exfalso. apply H.
    intros k ra Hk. rewrite upgrade_available_rows in Hk.
    destruct (tq !! k) as [r|] eqn:E; [|discriminate]. injection Hk as <-. cbn.
    destruct (Hall k r E) as [br Hbr]. rewrite Hbr. eexists; reflexivity.
Qed.

Lemma upgrade_available_lookup recs tq tq' :
  upgrade_available recs tq = Some tq' ->
  forall k, tq' !! k =
    (fun r => row_with_available r
                (bool_decide (fmap br_status (recs !! tq0_record_id r) = Some waiting)))
    <$> tq !! k.
Proof.
  unfold upgrade_available, set_available_not_null. case_bool_decide as H; [|discriminate].
  intros [= <-] k. rewrite lookup_fmap, upgrade_available_rows.
  destruct (tq !! k) as [r|] eqn:E; [|reflexivity]. cbn. f_equal. f_equal.
  destruct (recs !! tq0_record_id r) as [br|] eqn:Er; cbn.
  - apply bool_decide_ext. split; [intros ->|intros [= ->]]; reflexivity.
  - exfalso. pose proof (H k (r, None)) as Hk.
    rewrite upgrade_available_rows, E in Hk. cbn in Hk. rewrite Er in Hk.
    destruct (Hk eq_refl) as [x Hx]. discriminate.
Qed.

(** X6: after a successful upgrade every task row keeps all its columns and
    its [available] flag is true exactly when its record is waiting; no row
    is added or removed. *)
Theorem upgrade_available_rows_waiting recs tq tq' :
  upgrade_available recs tq = Some tq' ->
  forall k, tq' !! k =
    (fun r => row_with_available r
                (bool_decide (fmap br_status (recs !! tq0_record_id r) = Some waiting)))
    <$> tq !! k.
Proof. exact (upgrade_available_lookup recs tq tq'). Qed.

(** X7: [downgrade] undoes a successful [upgrade]: the table is back to its
    rows before the migration. *)
Theorem downgrade_upgrade_available recs tq tq' :
  upgrade_available recs tq = Some tq' -> downgrade_available tq' = tq.
Proof.
  intros H. apply map_eq. intros k. unfold downgrade_available.
  rewrite lookup_fmap, (upgrade_available_lookup recs tq tq' H k).
  destruct (tq !! k) as [r|]; [|reflexivity]. cbn. f_equal. destruct r; reflexivity.
Qed.

Lemma upgrade_available_rows_waiting_witness :
  upgrade_available ex_records_v0 ex_tq_v0 = Some ex_tq_v1 /\
  forall k, ex_tq_v1 !! k =
    (fun r => row_with_available r
                (bool_decide (fmap br_status (ex_records_v0 !! tq0_record_id r) = Some waiting)))
    <$> ex_tq_v0 !! k.
Proof.
  assert (H : upgrade_available ex_records_v0 ex_tq_v0 = Some ex_tq_v1)
    by (vm_compute; reflexivity).
  split; [exact H|]. exact (upgrade_available_rows_waiting ex_records_v0 ex_tq_v0 ex_tq_v1 H).
Defined.

Lemma downgrade_upgrade_available_witness :
  upgrade_available ex_records_v0 ex_tq_v0 = Some ex_tq_v1 /\
  downgrade_available ex_tq_v1 = ex_tq_v0.
Proof.
  assert (H : upgrade_available ex_records_v0 ex_tq_v0 = Some ex_tq_v1)
    by (vm_compute; reflexivity).
  split; [exact H|]. exact (downgrade_upgrade_available ex_records_v0 ex_tq_v0 ex_tq_v1 H).
Defined.

(** ** Further properties of the torsiondrive service *)

Lemma insert_by_position_hd x d l :
  HdRel position_le x l -> position_le x d -> HdRel position_le x (insert_by_position d l).
Proof.
  intros Hx Hd. destruct l as [|y l]; cbn; [constructor; exact Hd|].
  destruct (dep_position d <=? dep_position y)%nat; constructor; [exact Hd|].
  inversion Hx; assumption.
Qed.

Lemma insert_by_position_sorted d l :
  Sorted position_le l -> Sorted position_le (insert_by_position d l).
Proof.
  induction l as [|x l IH]; intros Hs; cbn; [repeat constructor|].
  destruct (dep_position d <=? dep_position x)%nat eqn:E.
  - constructor; [exact Hs|]. constructor. apply Nat.leb_le, E.
  - inversion Hs as [|? ? Hl Hh]; subst. constructor; [apply IH, Hl|].
    apply insert_by_position_hd; [exact Hh|]. apply Nat.leb_gt in E. unfold position_le. lia.
Qed.

Lemma sort_by_position_sorted l : Sorted position_le (sort_by_position l).
Proof.
  induction l as [|x l IH]; cbn; [constructor|]. apply insert_by_position_sorted, IH.
Qed.

Lemma insert_by_position_first d l :
  Forall (position_le d) l -> insert_by_position d l = d :: l.
Proof.
  intros H. destruct l as [|x l]; cbn; [reflexivity|].
  inversion H as [|? ? Hx _]; subst. unfold position_le in Hx.
  apply Nat.leb_le in Hx. rewrite Hx. reflexivity.
Qed.

Lemma filter_insert_by_position (p : ServiceDependencyORM -> bool) d l :
  Sorted position_le l ->
  List.filter p (insert_by_position d l) =
  if p d then insert_by_position d (List.filter p l) else List.filter p l.
Proof.
  induction l as [|x l IH]; intros Hs; cbn; [destruct (p d); reflexivity|].
  apply Sorted_StronglySorted in Hs; [|intros a b c; unfold position_le; lia].
  inversion Hs as [|? ? Hl Hall]; subst.
  destruct (dep_position d <=? dep_position x)%nat eqn:E; cbn.
  - destruct (p d) eqn:Ed; [|reflexivity].
    destruct (p x) eqn:Ex; cbn; [rewrite E; reflexivity|].
    symmetry. apply insert_by_position_first.
    apply Forall_forall. intros y Hy. apply list_elem_of_In, filter_In in Hy as [Hy _].
    apply list_elem_of_In in Hy. rewrite Forall_forall in Hall. specialize (Hall y Hy). apply Nat.leb_le in E.
    unfold position_le in *. lia.
  - rewrite IH by (apply StronglySorted_Sorted, Hl).
    destruct (p x) eqn:Ex, (p d) eqn:Ed; cbn; try rewrite E; reflexivity.
Qed.

Lemma filter_sort_by_position (p : ServiceDependencyORM -> bool) l :
  List.filter p (sort_by_position l) = sort_by_position (List.filter p l).
Proof.
  induction l as [|x l IH]; cbn; [reflexivity|].
  rewrite filter_insert_by_position by apply sort_by_position_sorted.
  rewrite IH. destruct (p x); reflexivity.
Qed.

Lemma sort_by_position_id l : Sorted position_le l -> sort_by_position l = l.
Proof.
  induction l as [|x l IH]; intros Hs; cbn; [reflexivity|].
  inversion Hs as [|? ? Hl Hh]; subst. rewrite (IH Hl).
  destruct l as [|y l]; cbn; [reflexivity|].
  inversion Hh as [|? ? Hxy]; subst. unfold position_le in Hxy.
  apply Nat.leb_le in Hxy. rewrite Hxy. reflexivity.
Qed.

Lemma imap_position_sorted (g : nat -> nat -> ServiceDependencyORM) (ids : list nat) :
  (forall i x y, position_le (g i x) (g (S i) y)) -> Sorted position_le (imap g ids).
Proof.
  revert g. induction ids as [|x ids IH]; intros g Hg; cbn; [constructor|].
  constructor; [apply IH; intros; apply Hg|].
  destruct ids as [|y ids]; cbn; constructor. apply Hg.
Qed.

Lemma key_dependencies_sorted k ids : Sorted position_le (key_dependencies k ids).
Proof. apply imap_position_sorted. intros i x y. unfold position_le. cbn. lia. Qed.

Lemma imap_key (g : nat -> nat -> ServiceDependencyORM) (ids : list nat) k :
  (forall i x, dep_td_api_key (g i x) = k) -> Forall (fun d => dep_td_api_key d = k) (imap g ids).
Proof.
  revert g. induction ids as [|x ids IH]; intros g Hg; cbn; constructor; [apply Hg|].
  apply IH. intros; apply Hg.
Qed.

Lemma imap_record_ids (g : nat -> nat -> ServiceDependencyORM) (ids : list nat) :
  (forall i x, dep_record_id (g i x) = x) -> map dep_record_id (imap g ids) = ids.
Proof.
  revert g. induction ids as [|x ids IH]; intros g Hg; cbn; [reflexivity|].
  rewrite Hg, IH; [reflexivity|]. intros; apply Hg.
Qed.

Lemma key_dependencies_record_ids k ids : map dep_record_id (key_dependencies k ids) = ids.
Proof. apply imap_record_ids. reflexivity. Qed.

Lemma filter_key_dependencies k k' ids :
  List.filter (dep_key_is k) (key_dependencies k' ids) =
  if String.eqb k' k then key_dependencies k' ids else [].
Proof.
  pose proof (imap_key (fun position opt_id =>
    {| dep_record_id := opt_id; dep_td_api_key := k'; dep_position := position |}) ids k'
    (fun _ _ => eq_refl)) as Hk.
  fold (key_dependencies k' ids) in Hk.
  induction Hk as [|d l Hd _ IH]; cbn; [destruct (String.eqb k' k); reflexivity|].
  unfold dep_key_is at 1. rewrite Hd, IH. destruct (String.eqb k' k); reflexivity.
Qed.

Lemma filter_batch_dependencies {Geometry : Type} (next_tasks : list (string * list Geometry))
    (idss : list (list nat)) k :
  NoDup (map fst next_tasks) ->
  (forall ids, In (k, ids) (combine (map fst next_tasks) idss) ->
     List.filter (dep_key_is k) (batch_dependencies next_tasks idss) = key_dependencies k ids) /\
  (~ In k (map fst next_tasks) ->
     List.filter (dep_key_is k) (batch_dependencies next_tasks idss) = []).
Proof.
  revert idss. induction next_tasks as [|[k0 g0] next IH]; intros idss Hnd.
  - split; [intros ids []|reflexivity].
  - destruct idss as [|ids0 idss].
    + split; [intros ids []|reflexivity].
    + unfold batch_dependencies. cbn [zip_with concat map fst combine].
      fold (batch_dependencies next idss). rewrite List.filter_app, filter_key_dependencies.
      cbn [map fst] in Hnd. apply NoDup_cons in Hnd as [Hk0 Hnd].
      destruct (IH idss Hnd) as [IH1 IH2]. split.
      * intros ids [Heq|Hin].
        -- injection Heq as -> ->. rewrite String.eqb_refl, IH2, app_nil_r; [reflexivity|].
           intros Hin. apply Hk0, list_elem_of_In, Hin.
        -- assert (Hne : k0 <> k).
           { intros ->. apply Hk0, list_elem_of_In. eapply in_combine_l, Hin. }
           apply String.eqb_neq in Hne. rewrite Hne. cbn. apply IH1, Hin.
      * intros Hnin. cbn in Hnin.
        assert (Hne : k0 <> k) by (intros ->; apply Hnin; left; reflexivity).
        apply String.eqb_neq in Hne. rewrite Hne. cbn. apply IH2. intros H; apply Hnin; right; exact H.
Qed.

Lemma Forall2_map_l {A B C} (f : A -> B) (P : B -> C -> Prop) l xs :
  Forall2 (fun a x => P (f a) x) l xs -> Forall2 P (map f l) xs.
Proof. induction 1; cbn; constructor; assumption. Qed.

Lemma imap_map_const {B : Type} (g : nat -> nat -> ServiceDependencyORM)
    (h : ServiceDependencyORM -> B) (c : nat -> B) (ids : list nat) :
  (forall i x, h (g i x) = c x) -> map h (imap g ids) = map c ids.
Proof.
  revert g. induction ids as [|x ids IH]; intros g Hg; cbn; [reflexivity|].
  rewrite Hg, IH; [reflexivity|]. intros; apply Hg.
Qed.

Section TorsiondriveExtras.

Variable TDState Geometry Energy : Type.
Context `{EqDecision Energy}.
Variable energy_lt : Energy -> Energy -> bool.
Variable td_grid_id_from_string : string -> list Z.
Variable serialize_key : list Z -> string.
Variable Store OptSpec Molecule : Type.
Variable optimization_add :
  Store -> list Molecule -> OptSpec -> string -> nat -> bool -> Store * (bool * list nat).
Variable constrained_spec : string -> list Z -> option OptSpec.
Variable make_molecule : string -> Geometry -> Molecule.
Variable dependency_result : Store -> nat -> option (Geometry * Geometry * Energy).
Variable optimization_energy : Store -> nat -> option Energy.

Let submit_loop' :=
  submit_loop TDState Geometry td_grid_id_from_string serialize_key Store OptSpec Molecule
    optimization_add constrained_spec make_molecule.
Let submit_optimizations' :=
  submit_optimizations TDState Geometry td_grid_id_from_string serialize_key Store OptSpec
    Molecule optimization_add constrained_spec make_molecule.
Let collect_task_results' := collect_task_results Geometry Energy Store dependency_result.
Let min_energies' := min_energies Energy energy_lt Store optimization_energy.
Let our_energies' := our_energies Energy Store optimization_energy.

(** The history rows written for a batch. *)
Let batch_optimizations (torsiondrive_id : nat) (next_tasks : list (string * list Geometry))
    (idss : list (list nat)) : list TorsiondriveOptimizationORM :=
  concat (zip_with (fun kg ids => key_optimizations torsiondrive_id
                                    (serialize_key (td_grid_id_from_string (fst kg))) ids)
                   next_tasks idss).

Lemma submit_loop_history st : forall next_tasks w w',
  submit_loop' st w next_tasks = inr w' ->
  exists idss,
    dependencies (service w') = dependencies (service w) ++ batch_dependencies next_tasks idss /\
    td_optimizations (td_record w') =
      td_optimizations (td_record w) ++ batch_optimizations (svc_record_id (service w)) next_tasks idss /\
    svc_record_id (service w') = svc_record_id (service w).
Proof.
  unfold submit_loop'.
  induction next_tasks as [|[key geoms] rest IH]; intros w w' H.
  - injection H as <-. exists []. cbn. rewrite !app_nil_r. auto.
  - cbn [submit_loop] in H.
    destruct (constrained_spec _ _) as [spec|]; [|discriminate].
    destruct (optimization_add _ _ _ _ _ _) as [s' [success ids]] eqn:Ha.
    destruct success; cbn [negb] in H; [|discriminate].
    destruct (IH _ _ H) as (idss & Hd & Ho & Hr).
    exists (ids :: idss). cbn in Hd, Ho, Hr. rewrite Hd, Ho, Hr.
    unfold batch_dependencies, batch_optimizations. cbn. rewrite <- !app_assoc. auto.
Qed.

Lemma batch_optimizations_ids rid next_tasks : forall idss,
  map tdo_optimization_id (batch_optimizations rid next_tasks idss) =
  map dep_record_id (batch_dependencies next_tasks idss) /\
  map tdo_key (batch_optimizations rid next_tasks idss) =
  map (fun d => serialize_key (td_grid_id_from_string (dep_td_api_key d)))
      (batch_dependencies next_tasks idss) /\
  Forall (fun o => tdo_torsiondrive_id o = rid) (batch_optimizations rid next_tasks idss).
Proof.
  unfold batch_optimizations, batch_dependencies.
  induction next_tasks as [|[key geoms] rest IH]; intros [|ids idss]; cbn; auto.
  destruct (IH idss) as (H1 & H2 & H3). rewrite !map_app, H1, H2.
  unfold key_optimizations. rewrite !map_map. cbn.
  rewrite key_dependencies_record_ids, map_id. unfold key_dependencies.
  rewrite (imap_map_const _ (fun d => serialize_key (td_grid_id_from_string (dep_td_api_key d)))
             (fun _ => serialize_key (td_grid_id_from_string key))) by reflexivity.
  split; [reflexivity|]. split; [reflexivity|].
  apply Forall_app. split; [|exact H3]. apply Forall_forall. intros o Ho.
  apply list_elem_of_In, in_map_iff in Ho as [x [<- _]]. reflexivity.
Qed.

Lemma collect_task_results_spec s : forall l acc m,
  collect_task_results' s l acc = Some m ->
  forall k, exists xs,
    Forall2 (fun d x => dependency_result s (dep_record_id d) = Some x)
      (List.filter (dep_key_is k) l) xs /\
    m !! k = match xs with [] => acc !! k | _ => Some (default [] (acc !! k) ++ xs) end.
Proof.
  unfold collect_task_results'.
  induction l as [|d l IH]; intros acc m H k; cbn in H.
  - injection H as <-. exists []. split; [constructor|reflexivity].
  - destruct (dependency_result s (dep_record_id d)) as [x|] eqn:Ex; [|discriminate].
    destruct (IH _ _ H k) as [xs [Hf Hm]]. cbn [List.filter]. unfold dep_key_is at 1.
    destruct (String.eqb (dep_td_api_key d) k) eqn:Ek.
    + apply String.eqb_eq in Ek. subst k. exists (x :: xs). split; [constructor; assumption|].
      rewrite Hm, lookup_insert_eq. destruct xs; cbn; [reflexivity|].
      rewrite <- app_assoc. reflexivity.
    + apply String.eqb_neq in Ek. exists xs. split; [exact Hf|].
      rewrite Hm, lookup_insert_ne by exact Ek. reflexivity.
Qed.

Lemma py_min_below e es :
  (forall a b c, energy_lt a b = true -> energy_lt b c = true -> energy_lt a c = true) ->
  py_min Energy energy_lt e es = e \/ energy_lt (py_min Energy energy_lt e es) e = true.
Proof.
  intros Htr. revert e. induction es as [|x es IH]; intros e; [left; reflexivity|].
  unfold py_min in *. cbn [foldl]. destruct (energy_lt x e) eqn:Ex.
  - right. destruct (IH x) as [->|H]; [exact Ex|]. eapply Htr; eassumption.
  - apply IH.
Qed.

Lemma py_min_spec e es :
  (forall a, energy_lt a a = false) ->
  (forall a b c, energy_lt a b = true -> energy_lt b c = true -> energy_lt a c = true) ->
  In (py_min Energy energy_lt e es) (e :: es) /\
  forall y, In y (e :: es) -> energy_lt y (py_min Energy energy_lt e es) = false.
Proof.
  intros Hirr Htr. revert e. induction es as [|x es IH]; intros e.
  - split; [left; reflexivity|]. intros y [<-|[]]. apply Hirr.
  - pose proof (py_min_below e (x :: es) Htr) as Hb.
    unfold py_min in *. cbn [foldl] in *.
    destruct (energy_lt x e) eqn:Ex.
    + destruct (IH x) as [Hin Hmin]. split.
      * destruct Hin as [<-|Hin]; [right; left; reflexivity|right; right; exact Hin].
      * intros y [Hy|[Hy|Hy]]; [subst y|subst y; apply Hmin; left; reflexivity
                                         |apply Hmin; right; exact Hy].
        match goal with |- ?a = false => destruct a eqn:Ey; [|reflexivity] end. exfalso.
        destruct (py_min_below x es Htr) as [Hm|Hm]; unfold py_min in Hm.
        -- rewrite Hm in Ey. pose proof (Htr _ _ _ Ey Ex) as Hyy. rewrite Hirr in Hyy. discriminate.
        -- pose proof (Htr _ _ _ (Htr _ _ _ Ey Hm) Ex) as Hyy. rewrite Hirr in Hyy. discriminate.
    + destruct (IH e) as [Hin Hmin]. split.
      * destruct Hin as [<-|Hin]; [left; reflexivity|right; right; exact Hin].
      * intros y [Hy|[Hy|Hy]]; [subst y; apply Hmin; left; reflexivity|subst y
                                 |apply Hmin; right; exact Hy].
        match goal with |- ?a = false => destruct a eqn:Ey; [|reflexivity] end. exfalso.
        destruct (py_min_below e es Htr) as [Hm|Hm]; unfold py_min in Hm.
        -- rewrite Hm in Ey. congruence.
        -- rewrite (Htr _ _ _ Ey Hm) in Ex. discriminate.
Qed.

Lemma our_energies_keys : forall (opts : list TorsiondriveOptimizationORM) acc k,
  (foldl (fun m x => <[tdo_key x := []]> m) acc opts : gmap string (list Energy)) !! k =
  if existsb (fun x => String.eqb (tdo_key x) k) opts then Some [] else acc !! k.
Proof.
  induction opts as [|x opts IH]; intros acc k; cbn; [reflexivity|].
  rewrite IH. destruct (existsb _ opts); [rewrite orb_true_r; reflexivity|].
  rewrite orb_false_r. destruct (String.eqb (tdo_key x) k) eqn:E.
  - apply String.eqb_eq in E. subst k. apply lookup_insert_eq.
  - apply String.eqb_neq in E. apply lookup_insert_ne, E.
Qed.

Lemma our_energies_fold s : forall opts (acc : gmap string (list Energy)),
  (forall x, In x opts -> is_Some (acc !! tdo_key x)) ->
  forall k,
  foldl (fun m x => match optimization_energy s (tdo_optimization_id x) with
                    | Some e => <[tdo_key x := default [] (m !! tdo_key x) ++ [e]]> m
                    | None => m
                    end) acc opts !! k
  = (fun l => l ++ energies_at optimization_energy s opts k) <$> acc !! k.
Proof.
  induction opts as [|x opts IH]; intros acc Hacc k; cbn.
  - destruct (acc !! k); cbn; [rewrite app_nil_r|]; reflexivity.
  - rewrite IH.
    + unfold energies_at. fold (energies_at optimization_energy s opts k).
      destruct (optimization_energy s (tdo_optimization_id x)) as [e|] eqn:Ee.
      * destruct (String.eqb (tdo_key x) k) eqn:E.
        -- apply String.eqb_eq in E. subst k. rewrite lookup_insert_eq.
           destruct (Hacc x (or_introl eq_refl)) as [l Hl]. rewrite Hl. cbn.
           rewrite <- app_assoc. reflexivity.
        -- apply String.eqb_neq in E. rewrite lookup_insert_ne by exact E. reflexivity.
      * destruct (String.eqb (tdo_key x) k); reflexivity.
    + intros y Hy. destruct (optimization_energy s (tdo_optimization_id x)).
      * destruct (decide (tdo_key x = tdo_key y)) as [E|E].
        -- rewrite E, lookup_insert_eq. eexists; reflexivity.
        -- rewrite lookup_insert_ne by exact E. apply Hacc. right. exact Hy.
      * apply Hacc. right. exact Hy.
Qed.

Lemma our_energies_lookup s opts k :
  our_energies' s opts !! k =
  if existsb (fun x => String.eqb (tdo_key x) k) opts
  then Some (energies_at optimization_energy s opts k) else None.
Proof.
  unfold our_energies', our_energies. rewrite our_energies_fold.
  - rewrite our_energies_keys, lookup_empty. destruct (existsb _ opts); reflexivity.
  - intros x Hx. rewrite our_energies_keys.
    replace (existsb _ opts) with true; [eexists; reflexivity|].
    symmetry. apply existsb_exists. exists x. split; [exact Hx|]. apply String.eqb_refl.
Qed.

(** X8: when [_submit_optimizations] goes through, the record's earlier
    optimization history is kept and one history row is appended per new
    dependency of the service, in the same order: the row has the
    dependency's optimization id, the serialized grid id of its
    [td_api_key] as key, and the record's id. *)
Theorem submit_optimizations_history_matches_dependencies st w next_tasks w' :
  submit_optimizations' st w next_tasks = inr w' ->
  exists new,
    td_optimizations (td_record w') = td_optimizations (td_record w) ++ new /\
    map tdo_optimization_id new = map dep_record_id (dependencies (service w')) /\
    map tdo_key new =
      map (fun d => serialize_key (td_grid_id_from_string (dep_td_api_key d)))
          (dependencies (service w')) /\
    Forall (fun o => tdo_torsiondrive_id o = svc_record_id (service w)) new.
Proof.
  intros H. unfold submit_optimizations', submit_optimizations in H.
  destruct (submit_loop_history _ _ _ _ H) as (idss & Hd & Ho & _).
  cbn [service td_record dependencies set_dependencies svc_record_id app] in Hd, Ho.
  exists (batch_optimizations (svc_record_id (service w)) next_tasks idss).
  destruct (batch_optimizations_ids (svc_record_id (service w)) next_tasks idss) as (H1 & H2 & H3).
  rewrite Hd. auto.
Qed.

(** X9: submitting a batch whose keys are distinct (a Python dict) and then
    gathering the results of the new dependencies, as the next iteration
    does, gives for each key of the batch the results of exactly the
    optimizations recorded for that key, in the order they were submitted
    (a key with no optimization is absent), and nothing for other keys. *)
Theorem submitted_results_collected_in_order st w next_tasks w' s m :
  submit_optimizations' st w next_tasks = inr w' ->
  NoDup (map fst next_tasks) ->
  collect_task_results' s (sort_by_position (dependencies (service w'))) ∅ = Some m ->
  exists idss,
    td_optimizations (td_record w') =
      td_optimizations (td_record w) ++
      concat (zip_with (fun kg ids => key_optimizations (svc_record_id (service w))
                                        (serialize_key (td_grid_id_from_string (fst kg))) ids)
                       next_tasks idss) /\
    (forall k ids, In (k, ids) (combine (map fst next_tasks) idss) ->
       exists xs, Forall2 (fun id x => dependency_result s id = Some x) ids xs /\
         m !! k = match xs with [] => None | _ => Some xs end) /\
    (forall k, ~ In k (map fst next_tasks) -> m !! k = None).
Proof.
  intros H Hnd Hc. unfold submit_optimizations', submit_optimizations in H.
  destruct (submit_loop_history _ _ _ _ H) as (idss & Hd & Ho & _).
  cbn [service td_record dependencies set_dependencies svc_record_id app] in Hd, Ho.
  exists idss. split; [exact Ho|].
  rewrite Hd in Hc.
  pose proof (collect_task_results_spec s _ _ _ Hc) as Hk.
  split.
  - intros k ids Hin. destruct (Hk k) as [xs [Hf Hm]].
    rewrite filter_sort_by_position, (proj1 (filter_batch_dependencies next_tasks idss k Hnd) ids Hin),
      sort_by_position_id in Hf by apply key_dependencies_sorted.
    exists xs. split.
    + rewrite <- (key_dependencies_record_ids k ids). apply Forall2_map_l, Hf.
    + rewrite Hm, lookup_empty. destruct xs; reflexivity.
  - intros k Hnin. destruct (Hk k) as [xs [Hf Hm]].
    rewrite filter_sort_by_position, (proj2 (filter_batch_dependencies next_tasks idss k Hnd) Hnin)
      in Hf. cbn in Hf. inversion Hf; subst. rewrite Hm. apply lookup_empty.
Qed.

(** X10: for Python's [<] on energies (irreflexive and transitive), the
    minimum energies of a record's optimizations have one entry per key of
    the optimizations; the entry is [None] when no optimization of that key
    has an energy, and otherwise one of the key's energies with no energy of
    that key below it. *)
Theorem min_energies_minimum s opts k :
  (forall a, energy_lt a a = false) ->
  (forall a b c, energy_lt a b = true -> energy_lt b c = true -> energy_lt a c = true) ->
  match min_energies' s opts !! k with
  | None => Forall (fun x => tdo_key x <> k) opts
  | Some None =>
      Exists (fun x => tdo_key x = k) opts /\ energies_at optimization_energy s opts k = []
  | Some (Some e) =>
      In e (energies_at optimization_energy s opts k) /\
      forall e', In e' (energies_at optimization_energy s opts k) -> energy_lt e' e = false
  end.
Proof.
  intros Hirr Htr. unfold min_energies'. unfold min_energies.
  rewrite lookup_fmap. fold (our_energies' s opts). rewrite our_energies_lookup.
  destruct (existsb (fun x => String.eqb (tdo_key x) k) opts) eqn:E; cbn.
  - apply existsb_exists in E as [x [Hx Ek]]. apply String.eqb_eq in Ek.
    destruct (energies_at optimization_energy s opts k) as [|e es] eqn:Ees.
    + split; [|reflexivity]. apply Exists_exists. exists x. split; [apply list_elem_of_In, Hx|exact Ek].
    + exact (py_min_spec e es Hirr Htr).
  - apply Forall_forall. intros x Hx Ek. apply list_elem_of_In in Hx.
    assert (Ht : existsb (fun x => String.eqb (tdo_key x) k) opts = true)
      by (apply existsb_exists; exists x; split; [exact Hx|apply String.eqb_eq, Ek]).
    congruence.
Qed.

End TorsiondriveExtras.

Lemma submit_optimizations_history_matches_dependencies_witness :
  submit_optimizations nat nat (fun _ => [0]) (fun _ => "[0]") nat unit nat
    ex_optimization_add (fun _ _ => Some tt) (fun _ g => g) (ex_td_state 1)
    (ex_td_world 1) (ex_td_next_jobs 1) = inr ex_td_submitted /\
  exists new,
    td_optimizations (td_record ex_td_submitted) =
      td_optimizations (td_record (ex_td_world 1)) ++ new /\
    map tdo_optimization_id new = map dep_record_id (dependencies (service ex_td_submitted)) /\
    map tdo_key new =
      map (fun d => (fun _ => "[0]") ((fun _ => [0]) (dep_td_api_key d)))
          (dependencies (service ex_td_submitted)) /\
    Forall (fun o => tdo_torsiondrive_id o = svc_record_id (service (ex_td_world 1))) new.
Proof.
  assert (H : submit_optimizations nat nat (fun _ => [0]) (fun _ => "[0]") nat unit nat
                ex_optimization_add (fun _ _ => Some tt) (fun _ g => g) (ex_td_state 1)
                (ex_td_world 1) (ex_td_next_jobs 1) = inr ex_td_submitted)
    by (vm_compute; reflexivity).
  split; [exact H|].
  exact (submit_optimizations_history_matches_dependencies nat nat (fun _ => [0]) (fun _ => "[0]")
           nat unit nat ex_optimization_add (fun _ _ => Some tt) (fun _ g => g) (ex_td_state 1)
           (ex_td_world 1) (ex_td_next_jobs 1) ex_td_submitted H).
Defined.

Lemma submitted_results_collected_in_order_witness :
  submit_optimizations nat nat (fun _ => [0]) (fun _ => "[0]") nat unit nat
    ex_optimization_add (fun _ _ => Some tt) (fun _ g => g) (ex_td_state 1)
    (ex_td_world 1) (ex_td_next_jobs 1) = inr ex_td_submitted /\
  NoDup (map fst (ex_td_next_jobs 1)) /\
  collect_task_results nat nat nat (fun _ i => Some (i, i, i)) 0%nat
    (sort_by_position (dependencies (service ex_td_submitted))) ∅ = Some ex_td_collected /\
  exists idss,
    td_optimizations (td_record ex_td_submitted) =
      td_optimizations (td_record (ex_td_world 1)) ++
      concat (zip_with (fun kg ids => key_optimizations (svc_record_id (service (ex_td_world 1)))
                                        ((fun _ => "[0]") ((fun _ => [0]) (fst kg))) ids)
                       (ex_td_next_jobs 1) idss) /\
    (forall k ids, In (k, ids) (combine (map fst (ex_td_next_jobs 1)) idss) ->
       exists xs, Forall2 (fun id x => (fun _ i => Some (i, i, i)) 0%nat id = Some x) ids xs /\
         ex_td_collected !! k = match xs with [] => None | _ => Some xs end) /\
    (forall k, ~ In k (map fst (ex_td_next_jobs 1)) -> ex_td_collected !! k = None).
Proof.
  assert (H : submit_optimizations nat nat (fun _ => [0]) (fun _ => "[0]") nat unit nat
                ex_optimization_add (fun _ _ => Some tt) (fun _ g => g) (ex_td_state 1)
                (ex_td_world 1) (ex_td_next_jobs 1) = inr ex_td_submitted)
    by (vm_compute; reflexivity).
  assert (Hnd : NoDup (map fst (ex_td_next_jobs 1)))
    by (vm_compute; repeat constructor; set_solver).
  assert (Hc : collect_task_results nat nat nat (fun _ i => Some (i, i, i)) 0%nat
                 (sort_by_position (dependencies (service ex_td_submitted))) ∅
               = Some ex_td_collected)
    by (vm_compute; reflexivity).
  split; [exact H|]. split; [exact Hnd|]. split; [exact Hc|].
  exact (submitted_results_collected_in_order nat nat nat (fun _ => [0]) (fun _ => "[0]")
           nat unit nat ex_optimization_add (fun _ _ => Some tt) (fun _ g => g)
           (fun _ i => Some (i, i, i)) (ex_td_state 1) (ex_td_world 1) (ex_td_next_jobs 1)
           ex_td_submitted 0%nat ex_td_collected H Hnd Hc).
Defined.

Lemma min_energies_minimum_witness :
  (forall a, Nat.ltb a a = false) /\
  (forall a b c, Nat.ltb a b = true -> Nat.ltb b c = true -> Nat.ltb a c = true) /\
  match min_energies nat Nat.ltb unit ex_td_energy tt ex_td_opts !! "[0]" with
  | None => Forall (fun x => tdo_key x <> "[0]") ex_td_opts
  | Some None =>
      Exists (fun x => tdo_key x = "[0]") ex_td_opts /\
      energies_at ex_td_energy tt ex_td_opts "[0]" = []
  | Some (Some e) =>
      In e (energies_at ex_td_energy tt ex_td_opts "[0]") /\
      forall e', In e' (energies_at ex_td_energy tt ex_td_opts "[0]") -> Nat.ltb e' e = false
  end.
Proof.
  assert (Hirr : forall a, Nat.ltb a a = false) by (intros a; apply Nat.ltb_irrefl).
  assert (Htr : forall a b c, Nat.ltb a b = true -> Nat.ltb b c = true -> Nat.ltb a c = true)
    by (intros a b c; rewrite !Nat.ltb_lt; lia).
  split; [exact Hirr|]. split; [exact Htr|].
  exact (min_energies_minimum nat Nat.ltb unit ex_td_energy tt ex_td_opts "[0]" Hirr Htr).
Defined.

(** ** Properties of [add_internal] *)

Lemma insert_nat_perm x l : Permutation (insert_nat x l) (x :: l).
Proof.
  induction l as [|y l IH]; cbn; [reflexivity|].
  destruct (x <=? y)%nat; [reflexivity|]. rewrite IH. constructor.
Qed.

Lemma sort_nat_perm l : Permutation (sort_nat l) l.
Proof.
  induction l as [|x l IH]; cbn; [reflexivity|]. rewrite insert_nat_perm, IH. reflexivity.
Qed.

Lemma sorted_set_in m l : In m (sorted_set l) <-> In m l.
Proof.
  unfold sorted_set. rewrite <- !list_elem_of_In, (sort_nat_perm (remove_dups l)).
  apply elem_of_remove_dups.
Qed.

Lemma sorted_set_nodup l : NoDup (sorted_set l).
Proof.
  unfold sorted_set. rewrite (sort_nat_perm (remove_dups l)). apply NoDup_remove_dups.
Qed.

Lemma molecule_ids_of_insert st next' recs' id ms k :
  molecule_ids_of {| td_records := recs'; td_initial_molecules := td_initial_molecules st ++
                       map (fun mid => (id, mid)) ms; td_next_id := next' |} k =
  molecule_ids_of st k ++ (if Nat.eqb id k then ms else []).
Proof.
  unfold molecule_ids_of. cbn [td_initial_molecules].
  rewrite List.filter_app, map_app. f_equal.
  induction ms as [|x ms IH]; cbn; [destruct (Nat.eqb id k); reflexivity|].
  destruct (Nat.eqb id k); cbn; rewrite IH; reflexivity.
Qed.

Lemma filter_rows_below (rows : list (nat * nat)) k :
  (forall p, In p rows -> (fst p < k)%nat) ->
  List.filter (fun p => Nat.eqb (fst p) k) rows = [].
Proof.
  induction rows as [|p rows IH]; intros H; cbn; [reflexivity|].
  destruct (Nat.eqb (fst p) k) eqn:E.
  - apply Nat.eqb_eq in E. specialize (H p (or_introl eq_refl)). lia.
  - apply IH. intros q Hq. apply H. right. exact Hq.
Qed.

Lemma molecule_ids_of_fresh st k :
  td_store_wf st -> (td_next_id st <= k)%nat -> molecule_ids_of st k = [].
Proof.
  intros [_ Hrows] Hk. unfold molecule_ids_of. rewrite filter_rows_below; [reflexivity|].
  intros p Hp. specialize (Hrows p Hp). lia.
Qed.

Section AddInternalProofs.

Variable str_lower : string -> string.
Variable group_member_ok : option nat -> option nat -> bool.
Variable first_row : list nat -> option nat.

Let add_loop' := add_loop first_row.
Let find_existing_td' := find_existing_td first_row.

Lemma add_loop_cons spec as_service tag prio ou og fe idx m rest st ids ins ex :
  (fe = true /\ exists e, find_existing_td' st spec (sorted_set m) = Some e /\ e <> 0%nat /\
     add_loop' spec as_service tag prio ou og fe idx (m :: rest) st (ids, ins, ex) =
     add_loop' spec as_service tag prio ou og fe (S idx) rest st (ids ++ [e], ins, ex ++ [idx])) \/
  ((fe = false \/ forall e, find_existing_td' st spec (sorted_set m) = Some e -> e = 0%nat) /\
     add_loop' spec as_service tag prio ou og fe idx (m :: rest) st (ids, ins, ex) =
     add_loop' spec as_service tag prio ou og fe (S idx) rest
       (fst (insert_td st spec as_service tag prio ou og fe (sorted_set m)))
       (ids ++ [td_next_id st], ins ++ [idx], ex)).
Proof.
  unfold add_loop', find_existing_td'. cbn [add_loop]. cbv zeta.
  destruct fe.
  - destruct (find_existing_td first_row st spec (sorted_set m)) as [e|] eqn:E.
    + destruct (Nat.eqb e 0) eqn:Ez.
      * apply Nat.eqb_eq in Ez. subst e. right. split; [right; intros e' [= <-]; reflexivity|].
        reflexivity.
      * apply Nat.eqb_neq in Ez. left. split; [reflexivity|].
        exists e. split; [reflexivity|]. split; [exact Ez|reflexivity].
    + right. split; [right; intros e' [=]|reflexivity].
  - right. split; [left; reflexivity|reflexivity].
Qed.

(** The record [add_internal] creates. *)
Let new_row spec as_service tag prio ou og (fe : bool) : TDRecordRow :=
  {| tdr_is_service := as_service; tdr_specification_id := spec; tdr_status := waiting;
     tdr_owner_user_id := ou; tdr_owner_group_id := og; tdr_service := Some (tag, prio, fe) |}.

Lemma add_loop_shape spec as_service tag prio ou og fe : forall rest idx st ids ins ex st' ids' ins' ex',
  add_loop' spec as_service tag prio ou og fe idx rest st (ids, ins, ex) = (st', (ids', ins', ex')) ->
  length ids = idx ->
  length ids' = (length ids + length rest)%nat /\
  Permutation (ins' ++ ex') (ins ++ ex ++ seq idx (length rest)) /\
  (fe = false -> ex' = ex /\ ins' = ins ++ seq idx (length rest) /\
                 ids' = ids ++ seq (td_next_id st) (length rest)) /\
  (exists ins_new, ins' = ins ++ ins_new /\
     td_next_id st' = (td_next_id st + length ins_new)%nat /\
     map (fun i => nth_error ids' i) ins_new = map Some (seq (td_next_id st) (length ins_new)) /\
     forall k, td_records st' !! k =
       if bool_decide (td_next_id st <= k < td_next_id st')%nat
       then Some (new_row spec as_service tag prio ou og fe) else td_records st !! k) /\
  (forall j m, nth_error rest j = Some m -> exists id, nth_error ids' (idx + j) = Some id) /\
  (forall i id, nth_error ids i = Some id -> nth_error ids' i = Some id).
Proof.
  induction rest as [|m rest IH]; intros idx st ids ins ex st' ids' ins' ex' H Hlen.
  - injection H as <- <- <- <-. cbn. rewrite !app_nil_r, Nat.add_0_r.
    split; [reflexivity|]. split; [reflexivity|]. split; [intros _; auto|]. split.
    + exists []. rewrite app_nil_r, Nat.add_0_r. split; [reflexivity|]. split; [reflexivity|].
      split; [reflexivity|]. intros k. rewrite bool_decide_eq_false_2 by lia. reflexivity.
    + split; [intros j m Hj; destruct j; discriminate|auto].
  - destruct (add_loop_cons spec as_service tag prio ou og fe idx m rest st ids ins ex)
      as [[Hfe [e [_ [_ Heq]]]]|[_ Heq]]; rewrite Heq in H.
    + destruct (IH _ _ _ _ _ _ _ _ _ H) as (H1 & H2 & _ & H4 & H5 & H6);
        [rewrite length_app, Hlen; cbn; lia|].
      rewrite length_app in H1. cbn [length] in H1 |- *.
      split; [lia|]. split.
      * rewrite H2, <- app_assoc. cbn. reflexivity.
      * split; [intros ->; discriminate|]. split; [exact H4|]. split.
        -- intros [|j] m' Hj.
           ++ exists e. rewrite Nat.add_0_r. apply H6. rewrite nth_error_app2 by lia.
              rewrite Hlen, Nat.sub_diag. reflexivity.
           ++ destruct (H5 j m' Hj) as [id Hid]. exists id. rewrite <- Hid. f_equal. lia.
        -- intros i id Hi. apply H6. rewrite nth_error_app1; [exact Hi|].
           apply nth_error_Some. congruence.
    + set (st1 := fst (insert_td st spec as_service tag prio ou og fe (sorted_set m))) in H.
      destruct (IH _ _ _ _ _ _ _ _ _ H) as (H1 & H2 & H3 & H4 & H5 & H6);
        [rewrite length_app, Hlen; cbn; lia|].
      rewrite length_app in H1. cbn [length] in H1 |- *.
      split; [lia|]. split.
      * rewrite H2, <- !app_assoc. cbn. apply Permutation_app_head, Permutation_middle.
      * split.
        -- intros Hfe. destruct (H3 Hfe) as (-> & -> & ->).
           split; [reflexivity|]. rewrite <- !app_assoc. split; reflexivity.
        -- split.
           ++ destruct H4 as (ins_new & Hins & Hnext & Hmap & Hrec).
              exists (idx :: ins_new). split; [rewrite Hins, <- app_assoc; reflexivity|].
              unfold st1 in *. cbn [insert_td fst td_next_id] in Hnext, Hmap, Hrec |- *.
              split; [rewrite Hnext; cbn; lia|]. split.
              ** cbn [map]. rewrite Hmap. cbn [length seq map]. f_equal.
                 apply H6. rewrite nth_error_app2 by lia. rewrite Hlen, Nat.sub_diag. reflexivity.
              ** intros k. rewrite Hrec. cbn [td_records].
                 destruct (decide (k = td_next_id st)) as [->|Hk].
                 --- rewrite lookup_insert_eq.
                     rewrite bool_decide_eq_false_2 by lia.
                     rewrite bool_decide_eq_true_2 by (rewrite Hnext; lia). reflexivity.
                 --- rewrite lookup_insert_ne by congruence.
                     repeat case_bool_decide; try reflexivity; lia.
           ++ split.
              ** intros [|j] m' Hj.
                 --- exists (td_next_id st). rewrite Nat.add_0_r. apply H6.
                     rewrite nth_error_app2 by lia. rewrite Hlen, Nat.sub_diag. reflexivity.
                 --- destruct (H5 j m' Hj) as [id Hid]. exists id. rewrite <- Hid. f_equal. lia.
              ** intros i id Hi. apply H6. rewrite nth_error_app1; [exact Hi|].
                 apply nth_error_Some. congruence.
Qed.


(** [.first()] returns one of the rows of the query, if any. *)
Hypothesis first_row_in : forall l x, first_row l = Some x -> In x l.

Lemma find_existing_td_found st spec ms e :
  find_existing_td' st spec ms = Some e ->
  exists r, td_records st !! e = Some r /\ tdr_specification_id r = spec /\
    molecule_ids_of st e <> [] /\ sort_nat (molecule_ids_of st e) = ms.
Proof.
  unfold find_existing_td', find_existing_td. intros H. apply first_row_in in H.
  apply in_map_iff in H as [row [<- Hrow]]. apply filter_In in Hrow as [Hrow Hc].
  apply list_elem_of_In, list_elem_of_omap in Hrow as [[k r] [Hkr Hf]].
  apply elem_of_map_to_list in Hkr. cbn in Hf.
  destruct (molecule_ids_of st k) as [|mid mids] eqn:Em; [discriminate|].
  injection Hf as <-. cbn in Hc. apply andb_true_iff in Hc as [Hs Hm].
  apply Nat.eqb_eq in Hs. apply bool_decide_eq_true in Hm.
  cbn [fst snd]. exists r. split; [exact Hkr|]. split; [exact Hs|]. rewrite Em. split; [discriminate|exact Hm].
Qed.

Lemma find_existing_td_empty st spec : find_existing_td' st spec [] = None.
Proof.
  destruct (find_existing_td' st spec []) as [e|] eqn:E; [|reflexivity].
  destruct (find_existing_td_found _ _ _ _ E) as (r & _ & _ & Hne & Hs).
  exfalso. apply Hne. apply Permutation_nil. rewrite <- (sort_nat_perm (molecule_ids_of st e)), Hs.
  reflexivity.
Qed.

Let round_trip (spec : nat) (st : TDStore) (ids : list nat) (i : nat) (mols : list nat) : Prop :=
  exists id rec, nth_error ids i = Some id /\ td_records st !! id = Some rec /\
    tdr_specification_id rec = spec /\ NoDup (molecule_ids_of st id) /\
    forall m, In m (molecule_ids_of st id) <-> In m mols.

Lemma insert_td_wf st spec as_service tag prio ou og fe ms :
  td_store_wf st -> td_store_wf (fst (insert_td st spec as_service tag prio ou og fe ms)).
Proof.
  intros [Hk Hr]. unfold td_store_wf, insert_td. cbn [fst td_records td_initial_molecules td_next_id]. split.
  - intros k Hks. destruct (decide (k = td_next_id st)) as [->|Hne]; [lia|].
    rewrite lookup_insert_ne in Hks by congruence. specialize (Hk k Hks). lia.
  - intros p Hp. apply in_app_or in Hp as [Hp|Hp]; [specialize (Hr p Hp); lia|].
    apply in_map_iff in Hp as [mid [<- _]]. cbn. lia.
Qed.

Lemma add_loop_round_trip spec as_service tag prio ou og fe :
  forall rest idx st ids ins ex done st' ids' ins' ex',
  add_loop' spec as_service tag prio ou og fe idx rest st (ids, ins, ex) = (st', (ids', ins', ex')) ->
  td_store_wf st -> length ids = length done ->
  (forall i mols, nth_error done i = Some mols -> round_trip spec st ids i mols) ->
  td_store_wf st' /\
  forall i mols, nth_error (done ++ rest) i = Some mols -> round_trip spec st' ids' i mols.
Proof.
  induction rest as [|m rest IH]; intros idx st ids ins ex done st' ids' ins' ex' H Hwf Hlen Hrt.
  - injection H as <- <- <- <-. rewrite app_nil_r. auto.
  - replace (done ++ m :: rest) with ((done ++ [m]) ++ rest) by (rewrite <- app_assoc; reflexivity).
    destruct (add_loop_cons spec as_service tag prio ou og fe idx m rest st ids ins ex)
      as [[_ [e [He [_ Heq]]]]|[_ Heq]]; rewrite Heq in H.
    + destruct (find_existing_td_found _ _ _ _ He) as (r & Hr & Hs & _ & Hsort).
      apply (IH _ _ _ _ _ _ _ _ _ _ H Hwf); [rewrite !length_app; cbn; lia|].
      intros i mols Hi. destruct (decide (i < length done)%nat) as [Hlt|Hge].
      * rewrite nth_error_app1 in Hi by exact Hlt.
        destruct (Hrt i mols Hi) as (id & rec & Hid & Hrec).
        exists id, rec. split; [|exact Hrec]. rewrite nth_error_app1; [exact Hid|].
        apply nth_error_Some. congruence.
      * rewrite nth_error_app2 in Hi by lia.
        destruct (i - length done)%nat eqn:Ei; [|destruct n; discriminate].
        injection Hi as <-. exists e, r. split.
        { rewrite nth_error_app2 by lia. replace (i - length ids)%nat with 0%nat by lia. reflexivity. }
        split; [exact Hr|]. split; [exact Hs|]. split.
        -- rewrite <- (sort_nat_perm (molecule_ids_of st e)), Hsort. apply sorted_set_nodup.
        -- intros x. rewrite <- (sorted_set_in x m), <- Hsort, <- !list_elem_of_In,
             (sort_nat_perm (molecule_ids_of st e)). reflexivity.
    + set (st1 := fst (insert_td st spec as_service tag prio ou og fe (sorted_set m))) in H.
      assert (Hwf1 : td_store_wf st1) by apply insert_td_wf, Hwf.
      apply (IH _ _ _ _ _ _ _ _ _ _ H Hwf1); [rewrite !length_app; cbn; lia|].
      intros i mols Hi. destruct (decide (i < length done)%nat) as [Hlt|Hge].
      * rewrite nth_error_app1 in Hi by exact Hlt.
        destruct (Hrt i mols Hi) as (id & rec & Hid & Hrec & Hrest).
        assert (Hlt' : (id < td_next_id st)%nat) by (apply (proj1 Hwf); rewrite Hrec; eexists; reflexivity).
        exists id, rec. split; [rewrite nth_error_app1; [exact Hid|]; apply nth_error_Some; congruence|].
        unfold st1, insert_td. cbn [fst td_records].
        rewrite lookup_insert_ne by lia. split; [exact Hrec|].
        rewrite molecule_ids_of_insert. replace (Nat.eqb (td_next_id st) id) with false
          by (symmetry; apply Nat.eqb_neq; lia).
        rewrite app_nil_r. exact Hrest.
      * rewrite nth_error_app2 in Hi by lia.
        destruct (i - length done)%nat eqn:Ei; [|destruct n; discriminate].
        injection Hi as <-.
        exists (td_next_id st), (create_service {| tdr_is_service := as_service;
          tdr_specification_id := spec; tdr_status := waiting; tdr_owner_user_id := ou;
          tdr_owner_group_id := og; tdr_service := None |} tag prio fe). split.
        { rewrite nth_error_app2 by lia. replace (i - length ids)%nat with 0%nat by lia. reflexivity. }
        unfold st1, insert_td. cbn [fst td_records]. rewrite lookup_insert_eq.
        split; [reflexivity|]. split; [reflexivity|].
        rewrite molecule_ids_of_insert, Nat.eqb_refl, molecule_ids_of_fresh by (exact Hwf || lia).
        cbn [app]. split; [apply sorted_set_nodup|]. intros x. apply sorted_set_in.
Qed.

Lemma add_loop_empty_inserted spec as_service tag prio ou og :
  forall rest idx st ids ins ex st' ids' ins' ex',
  add_loop' spec as_service tag prio ou og true idx rest st (ids, ins, ex) = (st', (ids', ins', ex')) ->
  (exists ins_new, ins' = ins ++ ins_new) /\
  forall j m, nth_error rest j = Some m -> m = [] -> In (idx + j)%nat ins'.
Proof.
  induction rest as [|m rest IH]; intros idx st ids ins ex st' ids' ins' ex' H.
  - injection H as <- <- <- <-. split; [exists []; rewrite app_nil_r; reflexivity|].
    intros [|j] m Hj; discriminate.
  - destruct (add_loop_cons spec as_service tag prio ou og true idx m rest st ids ins ex)
      as [[_ [e [He [_ Heq]]]]|[Hcase Heq]]; rewrite Heq in H;
      destruct (IH _ _ _ _ _ _ _ _ _ H) as [[ins_new Hins] Hin].
    + split; [exists ins_new; exact Hins|].
      intros [|j] m' Hj Hm.
      * exfalso. cbn in Hj. injection Hj as Hj. subst.
        change (sorted_set []) with (@nil nat) in He. rewrite find_existing_td_empty in He. discriminate.
      * replace (idx + S j)%nat with (S idx + j)%nat by lia. apply (Hin j m' Hj Hm).
    + split; [exists (idx :: ins_new); rewrite Hins, <- app_assoc; reflexivity|].
      intros [|j] m' Hj Hm.
      * rewrite Hins, Nat.add_0_r. apply in_or_app. left. apply in_or_app. right. left. reflexivity.
      * replace (idx + S j)%nat with (S idx + j)%nat by lia. apply (Hin j m' Hj Hm).
Qed.


Lemma add_internal_loop st inputs spec as_service tag prio ou og fe st' meta ids :
  add_internal str_lower group_member_ok first_row st inputs spec as_service tag prio ou og fe =
    inr (st', (meta, ids)) ->
  add_loop' spec as_service (str_lower tag) prio ou og fe 0 inputs st ([], [], []) =
    (st', (ids, inserted_idx meta, existing_idx meta)).
Proof.
  unfold add_internal, add_loop'. intros H.
  destruct (negb (group_member_ok ou og)); [discriminate|].
  destruct (add_loop first_row spec as_service (str_lower tag) prio ou og fe 0 inputs st ([], [], []))
    as [st1 [[ids1 ins1] ex1]] eqn:E.
  injection H as <- <- <-. reflexivity.
Qed.

(** X11: [add_internal] returns one torsiondrive id per input entry, and
    its [inserted_idx] and [existing_idx] split the entry indices
    [0 .. n-1] between them, each index in exactly one of the two. *)
Theorem add_internal_one_id_per_entry st inputs spec as_service tag prio ou og fe st' meta ids :
  add_internal str_lower group_member_ok first_row st inputs spec as_service tag prio ou og fe =
    inr (st', (meta, ids)) ->
  length ids = length inputs /\
  Permutation (inserted_idx meta ++ existing_idx meta) (seq 0 (length inputs)).
Proof.
  intros H. apply add_internal_loop in H.
  destruct (add_loop_shape _ _ _ _ _ _ _ _ _ _ _ _ _ _ _ _ _ H eq_refl) as (Hl & Hp & _).
  split; [exact Hl|exact Hp].
Qed.

(** X12: the records [add_internal] writes are exactly the new ones: the
    id counter advances by the number of inserted entries, the inserted
    entries get the fresh ids in order, each of these ids holds a waiting
    record with the given specification, owner and service (tag
    lower-cased), and every other record is left as it was. *)
Theorem add_internal_new_records st inputs spec as_service tag prio ou og fe st' meta ids :
  add_internal str_lower group_member_ok first_row st inputs spec as_service tag prio ou og fe =
    inr (st', (meta, ids)) ->
  td_next_id st' = (td_next_id st + length (inserted_idx meta))%nat /\
  map (fun i => nth_error ids i) (inserted_idx meta) =
    map Some (seq (td_next_id st) (length (inserted_idx meta))) /\
  forall k, td_records st' !! k =
    if bool_decide (td_next_id st <= k < td_next_id st')%nat
    then Some {| tdr_is_service := as_service; tdr_specification_id := spec;
                 tdr_status := waiting; tdr_owner_user_id := ou; tdr_owner_group_id := og;
                 tdr_service := Some (str_lower tag, prio, fe) |}
    else td_records st !! k.
Proof.
  intros H. apply add_internal_loop in H.
  destruct (add_loop_shape _ _ _ _ _ _ _ _ _ _ _ _ _ _ _ _ _ H eq_refl)
    as (_ & _ & _ & (ins_new & Hins & Hnext & Hmap & Hrec) & _).
  cbn [app] in Hins. subst ins_new. auto.
Qed.

(** X13: without [find_existing], every entry is inserted: [inserted_idx]
    is [0 .. n-1], [existing_idx] is empty and the ids are the next [n]
    ids of the store, in order. *)
Theorem add_internal_no_find_existing st inputs spec as_service tag prio ou og st' meta ids :
  add_internal str_lower group_member_ok first_row st inputs spec as_service tag prio ou og false =
    inr (st', (meta, ids)) ->
  inserted_idx meta = seq 0 (length inputs) /\ existing_idx meta = [] /\
  ids = seq (td_next_id st) (length inputs).
Proof.
  intros H. apply add_internal_loop in H.
  destruct (add_loop_shape _ _ _ _ _ _ _ _ _ _ _ _ _ _ _ _ _ H eq_refl)
    as (_ & _ & Hfe & _). destruct (Hfe eq_refl) as (Hex & Hins & Hids). auto.
Qed.

(** X14: on a well-formed store, each input entry [i] is answered by a
    torsiondrive id whose record exists, has the requested specification,
    and whose initial molecules, as [get_initial_molecules_ids] returns
    them, are the entry's molecules without repetition (same elements). *)
Theorem add_internal_initial_molecules st inputs spec as_service tag prio ou og fe st' meta ids :
  td_store_wf st ->
  add_internal str_lower group_member_ok first_row st inputs spec as_service tag prio ou og fe =
    inr (st', (meta, ids)) ->
  forall i mols, nth_error inputs i = Some mols ->
  exists id rec l, nth_error ids i = Some id /\ td_records st' !! id = Some rec /\
    tdr_specification_id rec = spec /\ get_initial_molecules_ids st' id = inr l /\
    NoDup l /\ forall m, In m l <-> In m mols.
Proof.
  intros Hwf H i mols Hi. apply add_internal_loop in H.
  assert (Hnone : forall j m, nth_error (@nil (list nat)) j = Some m ->
            round_trip spec st [] j m) by (intros [|j] ? Hj; discriminate).
  destruct (add_loop_round_trip _ _ _ _ _ _ _ _ _ _ _ _ _ [] _ _ _ _ H Hwf eq_refl Hnone)
    as [_ Hrt].
  destruct (Hrt i mols Hi) as (id & rec & Hid & Hrec & Hs & Hnd & Hin).
  exists id, rec, (molecule_ids_of st' id). unfold get_initial_molecules_ids. rewrite Hrec.
  repeat split; auto; apply Hin.
Qed.

(** X15: an input entry with no molecules is always inserted as a new
    record: the existing-record query never matches an empty list, since
    it only returns records that have initial molecules. *)
Theorem add_internal_empty_entry_inserted st inputs spec as_service tag prio ou og fe st' meta ids :
  add_internal str_lower group_member_ok first_row st inputs spec as_service tag prio ou og fe =
    inr (st', (meta, ids)) ->
  forall i, nth_error inputs i = Some [] -> In i (inserted_idx meta).
Proof.
  intros H i Hi. apply add_internal_loop in H. destruct fe.
  - destruct (add_loop_empty_inserted _ _ _ _ _ _ _ _ _ _ _ _ _ _ _ _ H) as [_ Hin].
    exact (Hin i [] Hi eq_refl).
  - destruct (add_loop_shape _ _ _ _ _ _ _ _ _ _ _ _ _ _ _ _ _ H eq_refl)
      as (_ & _ & Hfe & _). destruct (Hfe eq_refl) as (_ & -> & _).
    cbn [app]. apply in_seq. assert (i < length inputs)%nat by (apply nth_error_Some; congruence).
    lia.
Qed.

End AddInternalProofs.

Lemma head_in (l : list nat) x : head l = Some x -> In x l.
Proof. destruct l; cbn; [discriminate|]. intros [= ->]. left. reflexivity. Qed.

Lemma add_internal_one_id_per_entry_witness :
  add_internal (fun s => s) (fun _ _ => true) head ex_td_store ex_td_inputs 7 true "Tag" 1
    None None true = inr ex_td_added /\
  length (snd (snd ex_td_added)) = length ex_td_inputs /\
  Permutation (inserted_idx (fst (snd ex_td_added)) ++ existing_idx (fst (snd ex_td_added)))
    (seq 0 (length ex_td_inputs)).
Proof.
  split; [vm_compute; reflexivity|].
  apply (add_internal_one_id_per_entry (fun s => s) (fun _ _ => true) head ex_td_store
           ex_td_inputs 7 true "Tag" 1 None None true (fst ex_td_added)
           (fst (snd ex_td_added)) (snd (snd ex_td_added))).
  vm_compute. reflexivity.
Defined.

Lemma add_internal_new_records_witness :
  add_internal (fun s => s) (fun _ _ => true) head ex_td_store ex_td_inputs 7 true "Tag" 1
    None None true = inr ex_td_added /\
  td_next_id (fst ex_td_added) =
    (td_next_id ex_td_store + length (inserted_idx (fst (snd ex_td_added))))%nat /\
  td_records (fst ex_td_added) !! 3%nat =
    Some {| tdr_is_service := true; tdr_specification_id := 7; tdr_status := waiting;
            tdr_owner_user_id := None; tdr_owner_group_id := None;
            tdr_service := Some ("Tag", 1%nat, true) |}.
Proof.
  split; [vm_compute; reflexivity|].
  destruct (add_internal_new_records (fun s => s) (fun _ _ => true) head ex_td_store
              ex_td_inputs 7 true "Tag" 1 None None true (fst ex_td_added)
              (fst (snd ex_td_added)) (snd (snd ex_td_added)))
    as (Hnext & _ & Hrec); [vm_compute; reflexivity|].
  split; [exact Hnext|]. rewrite Hrec. vm_compute. reflexivity.
Defined.

Lemma add_internal_no_find_existing_witness :
  add_internal (fun s => s) (fun _ _ => true) head ex_td_store ex_td_inputs 7 true "Tag" 1
    None None false = inr ex_td_added_plain /\
  inserted_idx (fst (snd ex_td_added_plain)) = seq 0 (length ex_td_inputs) /\
  existing_idx (fst (snd ex_td_added_plain)) = [] /\
  snd (snd ex_td_added_plain) = seq (td_next_id ex_td_store) (length ex_td_inputs).
Proof.
  split; [vm_compute; reflexivity|].
  apply (add_internal_no_find_existing (fun s => s) (fun _ _ => true) head ex_td_store
           ex_td_inputs 7 true "Tag" 1 None None (fst ex_td_added_plain)
           (fst (snd ex_td_added_plain)) (snd (snd ex_td_added_plain))).
  vm_compute. reflexivity.
Defined.

Lemma add_internal_initial_molecules_witness :
  td_store_wf ex_td_store /\
  add_internal (fun s => s) (fun _ _ => true) head ex_td_store ex_td_inputs 7 true "Tag" 1
    None None true = inr ex_td_added /\
  exists id rec l, nth_error (snd (snd ex_td_added)) 0 = Some id /\
    td_records (fst ex_td_added) !! id = Some rec /\ tdr_specification_id rec = 7%nat /\
    get_initial_molecules_ids (fst ex_td_added) id = inr l /\
    NoDup l /\ forall m, In m l <-> In m [3; 5; 5]%nat.
Proof.
  assert (Hwf : td_store_wf ex_td_store).
  { unfold td_store_wf, ex_td_store. cbn [td_records td_initial_molecules td_next_id]. split.
    - intros k [r Hr]. destruct (decide (k = 1%nat)) as [->|Hne]; [lia|].
      rewrite lookup_insert_ne, lookup_empty in Hr by congruence. discriminate.
    - intros p [<-|[<-|[]]]; cbn; lia. }
  assert (Hadd : add_internal (fun s => s) (fun _ _ => true) head ex_td_store ex_td_inputs 7 true
                   "Tag" 1 None None true = inr ex_td_added) by (vm_compute; reflexivity).
  split; [exact Hwf|]. split; [exact Hadd|].
  apply (add_internal_initial_molecules (fun s => s) (fun _ _ => true) head head_in ex_td_store
           ex_td_inputs 7 true "Tag" 1 None None true (fst ex_td_added)
           (fst (snd ex_td_added)) (snd (snd ex_td_added)) Hwf Hadd 0 [3; 5; 5]%nat).
  reflexivity.
Defined.

Lemma add_internal_empty_entry_inserted_witness :
  add_internal (fun s => s) (fun _ _ => true) head ex_td_store ex_td_inputs 7 true "Tag" 1
    None None true = inr ex_td_added /\
  nth_error ex_td_inputs 2 = Some [] /\ In 2%nat (inserted_idx (fst (snd ex_td_added))).
Proof.
  assert (Hadd : add_internal (fun s => s) (fun _ _ => true) head ex_td_store ex_td_inputs 7 true
                   "Tag" 1 None None true = inr ex_td_added) by (vm_compute; reflexivity).
  split; [exact Hadd|]. split; [reflexivity|].
  apply (add_internal_empty_entry_inserted (fun s => s) (fun _ _ => true) head head_in
           ex_td_store ex_td_inputs 7 true "Tag" 1 None None true (fst ex_td_added)
           (fst (snd ex_td_added)) (snd (snd ex_td_added)) Hadd 2).
  reflexivity.
Defined.
